(** * visualquicksort: the step-recording randomized quicksort of script.js

    The development embeds the sorting core of [script.js] (the functions
    [saveStep], [generateArray], [randomizedQuickSort] and
    [randomizedPartition]) and proves the properties its specification
    states about the recorded trace.

    - JavaScript numbers are IEEE 754 binary64 values: [spec_float] of the
      Standard Library, compared with [SFltb] (the [<] of the source).
    - Arrays are objects: an array value is an address ([loc]) into a heap
      of arrays, so that the copies taken by [[...arr]] and the aliasing of
      the live array are explicit.
    - The globals [array], [steps] and [currentStep] are fields of the
      program state, threaded through a state monad.  The monad fails on
      an access outside an array or to an address that is not allocated:
      JavaScript would read [undefined] or grow the array there, which the
      embedding does not follow; the runs of [generateArray] never get
      there ([generateArray_run]).
    - [Math.random] is an oracle: its k-th call returns the k-th element of
      a sequence of binary64 numbers of the interval [0, 1).  The product
      [Math.random() * m] is the binary64 product [SFmul], rounded to
      nearest, and [Math.floor] takes the integer below it, so that
      [0.6666666666666666 * 3] gives 2 as it does in the source
      ([product_rounds_up]); [floor_scaled_range] shows that the result
      is one of [0 .. m - 1] all the same.
    - The sorting core leaves the timer ([clearInterval]) and the DOM
      ([renderStep], [alert]) out: its [generateArray] returns which of
      the two it ends with.  The section on the page adds the display, the
      timer and the handlers around it ([Page.generateArray],
      [Page.renderStep], [Page.startAutoPlay], [Page.handle]). *)

From Stdlib Require Import ZArith SpecFloat Lia Bool String.
From Stdlib Require Import Sorting.Sorted Sorting.Permutation.
From stdpp Require Import base option list list_numbers.
From Equations Require Import Equations.

Local Open Scope Z_scope.

(** ** Numbers *)

Abbreviation number := spec_float.

(** [isNaN] on a value that already is a number. *)
Definition isNaN (x : number) : bool :=
  match x with S754_nan => true | _ => false end.

(** The binary64 value of an integer. *)
Definition number_of_Z (z : Z) : number := binary_normalize 53 1024 z 0 false.

(** [x <= y] of the source language, as a proposition. *)
Definition num_le (x y : number) : Prop := SFleb x y = true.

(** [a / b] of the source language, for two integers. *)
Definition fraction (a b : Z) : number :=
  SFdiv 53 1024 (number_of_Z a) (number_of_Z b).

(** [0 <= x && x < 1] for a binary64 number [x]. *)
Definition in_unit_interval (x : number) : bool :=
  valid_binary 53 1024 x && SFleb (number_of_Z 0) x && SFltb x (number_of_Z 1).

(** A value of [Math.random()]: a binary64 number of the interval [0, 1). *)
Record unit_interval := UnitInterval {
  ui_val : number;
  ui_range : in_unit_interval ui_val = true
}.

(** [Math.floor(x)] as an integer: the integer below a finite [x].  An
    infinity or NaN is no integer, and no index of an array; the embedding
    reads 0 there.  The products of [floor_scaled] are finite for every
    factor below [2 ^ 53] ([floor_scaled_finite]), as every array length
    is. *)
Definition Math_floor (x : number) : Z :=
  match x with
  | S754_finite s m e => Z.shiftl (cond_Zopp s (Zpos m)) e
  | _ => 0
  end.

(** [Math.floor(x * m)] for [x] drawn by [Math.random()]: the product is
    the binary64 one. *)
Definition floor_scaled (x : unit_interval) (m : Z) : Z :=
  Math_floor (SFmul 53 1024 (ui_val x) (number_of_Z m)).

(** *** Rounding, as [binary_round_aux] does it

    The three predicates below describe the steps of the rounding of the
    Standard Library; the lemmas on the binary64 product are stated with
    them. *)

(** [mrs] is the mantissa [P] after [k] halvings, with its round bit. *)
Definition shifted (P k : Z) (mrs : shr_record) : Prop :=
  shr_m mrs = P / 2 ^ k
  /\ (shr_r mrs = true -> 1 <= k /\ 2 ^ (k - 1) <= P mod 2 ^ k).

(** [r] is the number of sign [sx], mantissa [q] and exponent [E], the
    mantissa brought back to 53 bits. *)
Definition rounded_to (sx : bool) (q E : Z) (r : number) : Prop :=
  match r with
  | S754_zero s => s = sx /\ q = 0
  | S754_infinity s => s = sx /\ 971 <= E
  | S754_nan => False
  | S754_finite s mr er =>
      s = sx /\ er <= 971
      /\ ((Zpos mr = q /\ er = E /\ q < 2 ^ 53)
          \/ (q = 2 ^ 53 /\ Zpos mr = 2 ^ 52 /\ er = E + 1))
  end.

(** The shape of the binary64 value [my * 2 ^ ey] of a positive integer
    [m]: the number is [m] itself, or the multiple of [2 ^ ey] below [m],
    or the one above it. *)
Definition integer_shape (m : Z) (my : positive) (ey : Z) : Prop :=
  2 ^ 52 <= Zpos my < 2 ^ 53 /\ -52 <= ey
  /\ ((ey < 0 /\ Zpos my = m * 2 ^ (- ey))
      \/ (0 <= ey /\ Zpos my * 2 ^ ey <= m)
      \/ (exists q nm, 1 <= nm <= ey /\ 2 ^ 52 <= q /\ q * 2 ^ nm < m
                       /\ Zpos my * 2 ^ (ey - nm) = q + 1)).

(** ** Steps, highlights and the program state *)

Abbreviation loc := nat.

(** The highlight object of a step: each field is optional, as the
    properties of the JavaScript object are. *)
Record Highlight := mkHighlight {
  pivot : option Z;
  compare : option Z;
  sorted : option bool
}.

(** [{}], [{ pivot: p }], [{ pivot: p, compare: j }], [{ sorted: true }]. *)
Definition hl_none : Highlight := mkHighlight None None None.
Definition hl_pivot (p : Z) : Highlight := mkHighlight (Some p) None None.
Definition hl_compare (p j : Z) : Highlight := mkHighlight (Some p) (Some j) None.
Definition hl_sorted : Highlight := mkHighlight None None (Some true).

(** An element of [steps]: [{ array: ..., highlight: ... }]; [array] is a
    reference to an array object. *)
Module Step.
Record t := mk { array : loc; highlight : Highlight }.
End Step.

(** The globals of the script and the heap of array objects.  [calls]
    counts the calls of [Math.random] made so far; [chosen] is a history
    variable that lists the values [randomIndex] has taken (it does not
    influence the run). *)
Record state := mkState {
  heap : list (list number);
  array : loc;
  steps : list Step.t;
  currentStep : Z;
  calls : nat;
  chosen : list Z
}.

Definition set_heap (h : list (list number)) (s : state) : state :=
  mkState h (array s) (steps s) (currentStep s) (calls s) (chosen s).
Definition set_array (a : loc) (s : state) : state :=
  mkState (heap s) a (steps s) (currentStep s) (calls s) (chosen s).
Definition set_steps (l : list Step.t) (s : state) : state :=
  mkState (heap s) (array s) l (currentStep s) (calls s) (chosen s).
Definition set_currentStep (c : Z) (s : state) : state :=
  mkState (heap s) (array s) (steps s) c (calls s) (chosen s).
Definition set_calls (n : nat) (s : state) : state :=
  mkState (heap s) (array s) (steps s) (currentStep s) n (chosen s).
Definition set_chosen (l : list Z) (s : state) : state :=
  mkState (heap s) (array s) (steps s) (currentStep s) (calls s) l.

(** ** The state monad with failure *)

Definition M (A : Type) : Type := state -> option (A * state).

Definition ret {A} (x : A) : M A := fun s => Some (x, s).
Definition bind {A B} (c : M A) (k : A -> M B) : M B :=
  fun s => match c s with
           | Some (x, s') => k x s'
           | None => None
           end.
Definition fault {A} : M A := fun _ => None.

Notation "x <- c ;; k" := (bind c (fun x => k))
  (at level 100, c at next level, right associativity).
Notation "c ;; k" := (bind c (fun _ => k))
  (at level 100, right associativity).

(** *** Array objects *)

(** [v[i]] for an integer [i]; [None] outside the array. *)
Definition lookupZ (v : list number) (i : Z) : option number :=
  if i <? 0 then None else v !! Z.to_nat i.

(** A new array object with the given elements ([[...v]], [[]]). *)
Definition alloc (v : list number) : M loc :=
  fun s => Some (length (heap s), set_heap (heap s ++ [v]) s).

(** The elements of the array object at [a]. *)
Definition load (a : loc) : M (list number) :=
  fun s => match heap s !! a with
           | Some v => Some (v, s)
           | None => None
           end.

(** Overwrite the elements of the array object at [a]. *)
Definition store (a : loc) (v : list number) : M unit :=
  fun s => match heap s !! a with
           | Some _ => Some (tt, set_heap (<[a := v]> (heap s)) s)
           | None => None
           end.

(** [arr[i]], inside the array. *)
Definition get (arr : loc) (i : Z) : M number :=
  v <- load arr ;;
  match lookupZ v i with
  | Some x => ret x
  | None => fault
  end.

(** [arr[i] = x], inside the array. *)
Definition put (arr : loc) (i : Z) (x : number) : M unit :=
  v <- load arr ;;
  match lookupZ v i with
  | Some _ => store arr (<[Z.to_nat i := x]> v)
  | None => fault
  end.

(** [arr.push(x)]. *)
Definition push (arr : loc) (x : number) : M unit :=
  v <- load arr ;; store arr (v ++ [x]).

(** [[arr[x], arr[y]] = [arr[y], arr[x]]]: the right-hand side is
    evaluated first, then the two assignments from left to right. *)
Definition swap (arr : loc) (x y : Z) : M unit :=
  vy <- get arr y ;;
  vx <- get arr x ;;
  put arr x vy ;;
  put arr y vx.

(** ** The recorder *)

(** [saveStep(arr, highlight = {})]: pushes a step that holds a fresh copy
    of [arr] and of the highlight. *)
Definition saveStep (arr : loc) (highlight : Highlight) : M unit :=
  v <- load arr ;;
  copy <- alloc v ;;
  fun s => Some (tt, set_steps (steps s ++ [Step.mk copy highlight]) s).

(** What a reader of [steps] sees of one step: the elements of its array
    (if the reference is valid) and its highlight. *)
Abbreviation snapshot := (list number * Highlight)%type.

Definition view (h : list (list number)) (st : Step.t) : option (list number) * Highlight :=
  (h !! Step.array st, Step.highlight st).

Definition trace (s : state) : list (option (list number) * Highlight) :=
  map (view (heap s)) (steps s).

Definition seen (sn : snapshot) : option (list number) * Highlight :=
  (Some (fst sn), snd sn).

(** ** The sorter *)

Section Sorter.

(** The values returned by the successive calls of [Math.random]. *)
Variable Math_random : nat -> unit_interval.

(** [Math.floor(Math.random() * m)]. *)
Definition random_below (m : Z) : M Z :=
  fun s => Some (floor_scaled (Math_random (calls s)) m,
                 set_calls (S (calls s)) s).

(** History: note the value of [randomIndex]. *)
Definition note_choice (r : Z) : M unit :=
  fun s => Some (tt, set_chosen (chosen s ++ [r]) s).

(** The body of [for (let j = low; j < high; j++)] in
    [randomizedPartition], run for the values [js] of [j]; [i] is the
    local variable of the same name, returned at the end. *)
Fixpoint scan (arr : loc) (high : Z) (pivot : number) (js : list Z) (i : Z) : M Z :=
  match js with
  | [] => ret i
  | j :: js' =>
      saveStep arr (hl_compare high j) ;;
      aj <- get arr j ;;
      i' <- (if SFltb aj pivot
             then (let i := i + 1 in
                   swap arr i j ;;
                   saveStep arr (hl_pivot high) ;;
                   ret i)
             else ret i) ;;
      scan arr high pivot js' i'
  end.

Definition randomizedPartition (arr : loc) (low high : Z) : M Z :=
  r <- random_below (high - low + 1) ;;
  let randomIndex := r + low in
  note_choice randomIndex ;;
  saveStep arr (hl_pivot randomIndex) ;;
  swap arr randomIndex high ;;
  pivot <- get arr high ;;
  let i := low - 1 in
  i <- scan arr high pivot (seqZ low (high - low)) i ;;
  swap arr (i + 1) high ;;
  saveStep arr hl_none ;;
  ret (i + 1).

(** The index returned by the scan moves by at most one per iteration,
    whatever the array holds: this is what makes the recursion of
    [randomizedQuickSort] well founded. *)
Lemma scan_index_bounds arr high p js :
  forall i s i' s', scan arr high p js i s = Some (i', s') ->
    i <= i' <= i + Z.of_nat (length js).
Proof.
  induction js as [|j js IH]; intros i s i' s' H; simpl in H.
  - unfold ret in H. injection H as <- _. simpl. lia.
  - unfold bind in H at 1.
    destruct (saveStep arr (hl_compare high j) s) as [[[] s1]|]; [|discriminate].
    unfold bind in H at 1.
    destruct (get arr j s1) as [[aj s2]|]; [|discriminate].
    unfold bind in H at 1.
    destruct (SFltb aj p).
    + unfold bind in H at 1.
      destruct (swap arr (i + 1) j s2) as [[[] s3]|]; [|discriminate].
      unfold bind in H at 1.
      destruct (saveStep arr (hl_pivot high) s3) as [[[] s4]|]; [|discriminate].
      unfold ret in H at 1.
      apply IH in H. simpl length. lia.
    + unfold ret in H at 1. apply IH in H. simpl length. lia.
Qed.

Lemma randomizedPartition_bounds arr low high s pi s' :
  low < high ->
  randomizedPartition arr low high s = Some (pi, s') ->
  low <= pi <= high.
Proof.
  intros Hlt H. unfold randomizedPartition in H.
  repeat (unfold bind in H at 1;
          match type of H with
          | match ?c with _ => _ end = _ =>
              destruct c as [[? ?]|] eqn:?; [|discriminate]
          end).
  unfold ret in H. injection H as <- _.
  match goal with
  | E : scan _ _ _ _ _ _ = Some _ |- _ => apply scan_index_bounds in E; rename E into B
  end.
  rewrite length_seqZ in B. lia.
Qed.

(** A value together with the equation that it is the value of [x]: the
    recursion below needs to remember which call produced [pi]. *)
Definition inspect {A : Type} (x : A) : { y : A | x = y } := exist _ x eq_refl.

Equations? randomizedQuickSort (arr : loc) (low high : Z) (s : state)
  : option (unit * state) by wf (Z.to_nat (high - low)) lt :=
  randomizedQuickSort arr low high s with inspect (low <? high) := {
    | exist _ false Hge => Some (tt, s)
    | exist _ true Hlt with inspect (randomizedPartition arr low high s) := {
      | exist _ None Hnone => None
      | exist _ (Some (pi, s1)) Hpi
          with inspect (randomizedQuickSort arr low (pi - 1) s1) := {
        | exist _ None Hleft => None
        | exist _ (Some (_, s2)) Hleft => randomizedQuickSort arr (pi + 1) high s2 } } }.
Proof.
  all: pose proof (proj1 (Z.ltb_lt _ _) Hlt) as Hlt';
       pose proof (randomizedPartition_bounds _ _ _ _ _ _ Hlt' Hpi); lia.
Qed.

(** How [generateArray] ends: with the alert of line 83, or by rendering
    the step of the given index. *)
Inductive outcome :=
| Alerted (message : string)
| Rendered (index : Z).

Definition defaultSize : nat := 10.

(** [for (let i = 0; i < defaultSize; i++)
       array.push(Math.floor(Math.random() * 100) + 1);] *)
Fixpoint fill_random (arr : loc) (n : nat) : M unit :=
  match n with
  | O => ret tt
  | S n' =>
      r <- random_below 100 ;;
      push arr (number_of_Z (r + 1)) ;;
      fill_random arr n'
  end.

(** [steps[steps.length - 1]]; reading [.array] of it fails when [steps]
    is empty. *)
Definition last_step : M Step.t :=
  fun s => match last (steps s) with
           | Some st => Some (st, s)
           | None => None
           end.

(** Lines 89 to 93 of [generateArray]. *)
Definition sort_and_record : M outcome :=
  a <- (fun s => Some (array s, s)) ;;
  saveStep a hl_none ;;
  v <- load a ;;
  work <- alloc v ;;
  randomizedQuickSort work 0 (Z.of_nat (length v) - 1) ;;
  st <- last_step ;;
  saveStep (Step.array st) hl_sorted ;;
  ret (Rendered 0).

(** [generateArray()].  The text of the input box is represented by what
    the function makes of it: [None] when the trimmed text is empty, and
    [Some numbers] for the array
    [input.split(",").map(x => Number(x.trim()))] otherwise. *)
Definition generateArray (input : option (list number)) : M outcome :=
  (fun s => Some (tt, set_steps [] s)) ;;
  (fun s => Some (tt, set_currentStep 0 s)) ;;
  match input with
  | None =>
      a <- alloc [] ;;
      (fun s => Some (tt, set_array a s)) ;;
      fill_random a defaultSize ;;
      sort_and_record
  | Some parsed =>
      numbers <- alloc parsed ;;
      v <- load numbers ;;
      if existsb isNaN v
      then ret (Alerted "Enter valid numbers separated by commas.")
      else ((fun s => Some (tt, set_array numbers s)) ;;
            sort_and_record)
  end.

End Sorter.

(** ** The specification's reading of the sorter, on array values

    [spec_scan] and [spec_partition] follow steps 3a to 3f of the
    specification's algorithm: they list the snapshots (array values and
    highlight) in the order the specification gives, and compute the final
    array and the returned index. *)

(** The array value after exchanging the elements at [x] and [y]. *)
Definition swap_list (v : list number) (x y : Z) : list number :=
  match lookupZ v x, lookupZ v y with
  | Some vx, Some vy => <[Z.to_nat y := vx]> (<[Z.to_nat x := vy]> v)
  | _, _ => v
  end.

(** [arr[j] < pivotValue]. *)
Definition lt_at (v : list number) (j : Z) (pivotValue : number) : bool :=
  match lookupZ v j with
  | Some aj => SFltb aj pivotValue
  | None => false
  end.

(** Step 3d: for each [j], one snapshot before the comparison and, when
    [arr[j] < pivotValue], one after the exchange. *)
Fixpoint spec_scan (high : Z) (pivotValue : number) (js : list Z) (i : Z)
    (v : list number) : list snapshot * Z * list number :=
  match js with
  | [] => ([], i, v)
  | j :: js' =>
      if lt_at v j pivotValue
      then
        let v1 := swap_list v (i + 1) j in
        let r := spec_scan high pivotValue js' (i + 1) v1 in
        ((v, hl_compare high j) :: (v1, hl_pivot high) :: r.1.1, r.1.2, r.2)
      else
        let r := spec_scan high pivotValue js' i v in
        ((v, hl_compare high j) :: r.1.1, r.1.2, r.2)
  end.

(** Steps 3a to 3f: snapshots, returned index, final array. *)
Definition spec_partition (v : list number) (low high randomIndex : Z)
    : list snapshot * Z * list number :=
  let v1 := swap_list v randomIndex high in
  let pivotValue := default S754_nan (lookupZ v1 high) in
  let r := spec_scan high pivotValue (seqZ low (high - low)) (low - 1) v1 in
  let v3 := swap_list r.2 (r.1.2 + 1) high in
  ((v, hl_pivot randomIndex) :: r.1.1 ++ [(v3, hl_none)], r.1.2 + 1, v3).

(** Step 2, as a relation: [spec_quicksort v low high choices ev v'] when
    sorting the subrange [low .. high] of [v] with the successive pivot
    choices [choices] records the snapshots [ev] and leaves the array [v']. *)
Inductive spec_quicksort : list number -> Z -> Z -> list Z -> list snapshot -> list number -> Prop :=
| sq_base v low high :
    high <= low ->
    spec_quicksort v low high [] [] v
| sq_step v low high r cl cr evl evr v2 v3 :
    low < high ->
    low <= r <= high ->
    let p := spec_partition v low high r in
    spec_quicksort p.2 low (p.1.2 - 1) cl evl v2 ->
    spec_quicksort v2 (p.1.2 + 1) high cr evr v3 ->
    spec_quicksort v low high (r :: cl ++ cr) (p.1.1 ++ evl ++ evr) v3.

(** The steps that record the snapshots [ev] in a heap of [base] objects. *)
Fixpoint fresh_steps (base : nat) (ev : list snapshot) : list Step.t :=
  match ev with
  | [] => []
  | sn :: ev' => Step.mk base (snd sn) :: fresh_steps (S base) ev'
  end.

(** The state reached from [s] when the live array at [arr] holds [v], the
    snapshots [ev] have been recorded, [c] calls of [Math.random] have been
    made and the pivot choices [ch] have been noted. *)
Definition after (s : state) (arr : loc) (v : list number) (ev : list snapshot)
    (c : nat) (ch : list Z) : state :=
  mkState (<[arr := v]> (heap s) ++ map fst ev)
          (array s)
          (steps s ++ fresh_steps (length (heap s)) ev)
          (currentStep s)
          (calls s + c)
          (chosen s ++ ch).

(** The references of the recorded steps are allocated and none of them is
    the live array [arr]. *)
Definition refs_ok (arr : loc) (s : state) : Prop :=
  Forall (fun st => (Step.array st < length (heap s))%nat /\ Step.array st <> arr) (steps s).

(** Every element of [v] at an index of [low .. high] satisfies [P]. *)
Definition range_all (P : number -> Prop) (v : list number) (low high : Z) : Prop :=
  forall k x, low <= k <= high -> lookupZ v k = Some x -> P x.

(** The subrange [low .. high] of [v] is in non-descending order. *)
Definition sorted_range (v : list number) (low high : Z) : Prop :=
  forall i j x y, low <= i -> i < j -> j <= high ->
    lookupZ v i = Some x -> lookupZ v j = Some y -> num_le x y.

(** The inputs [generateArray] accepts: no entry is [NaN]. *)
Definition accepted (input : option (list number)) : bool :=
  match input with
  | Some numbers => negb (existsb isNaN numbers)
  | None => true
  end.

(** The pivot index drawn by a call of [randomizedPartition] in state [s]. *)
Definition drawn (rnd : nat -> unit_interval) (s : state) (low high : Z) : Z :=
  floor_scaled (rnd (calls s)) (high - low + 1) + low.

(** The numbers [fill_random] pushes, from the [c]-th call of [Math.random] on. *)
Definition generated (rnd : nat -> unit_interval) (c n : nat) : list number :=
  map (fun k => number_of_Z (floor_scaled (rnd (c + k)%nat) 100 + 1)) (seq 0 n).

(** The array the sort runs on: the numbers typed by the user, or the ten
    numbers drawn from [Math.random]. *)
Definition input_of (rnd : nat -> unit_interval) (input : option (list number))
    (s : state) : list number :=
  match input with
  | Some numbers => numbers
  | None => generated rnd (calls s) defaultSize
  end.

(** The state in which [generateArray] starts recording: the input array
    is the last object allocated and [array] refers to it. *)
Definition prepared (rnd : nat -> unit_interval) (input : option (list number))
    (s : state) : state :=
  mkState (heap s ++ [input_of rnd input s])
          (length (heap s))
          []
          0
          (calls s + match input with None => defaultSize | Some _ => 0 end)
          (chosen s).

(** The state [sort_and_record] reaches from [s0]: the array objects
    allocated after those of [s0] are the copy of the first step, the
    working copy (which holds [v'] at the end), the copies of the steps of
    the sort, and the copy of the last step. *)
Definition recorded (s0 : state) (input v' : list number) (ev : list snapshot)
    (cs : list Z) : state :=
  mkState (heap s0 ++ [input; v'] ++ map fst ev ++ [v'])
          (array s0)
          (Step.mk (length (heap s0)) hl_none
             :: fresh_steps (length (heap s0) + 2) ev
             ++ [Step.mk (length (heap s0) + 2 + length ev) hl_sorted])
          (currentStep s0)
          (calls s0 + length cs)
          (chosen s0 ++ cs).

(** An entry that is not a finite number: NaN or an infinity. *)
Definition not_finite (x : number) : bool :=
  match x with
  | S754_nan | S754_infinity _ => true
  | _ => false
  end.

(** [generateArray] refuses the array [numbers]: it alerts and returns
    with no snapshot recorded. *)
Definition refuses (rnd : nat -> unit_interval) (numbers : list number)
    (s : state) : Prop :=
  exists message s',
    generateArray rnd (Some numbers) s = Some (Alerted message, s')
    /\ steps s' = []
    /\ length (trace s') = 0%nat.

(** ** Sample inputs *)

(** A source of random numbers that always returns one half. *)
Definition always_half : nat -> unit_interval :=
  fun _ => UnitInterval (fraction 1 2) eq_refl.

(** A source that always returns 0.6666666666666666, the quotient [2 / 3]:
    its product by 3 is rounded to 2. *)
Definition always_two_thirds : nat -> unit_interval :=
  fun _ => UnitInterval (fraction 2 3) eq_refl.

(** A source that always returns 0.625. *)
Definition always_five_eighths : nat -> unit_interval :=
  fun _ => UnitInterval (fraction 5 8) eq_refl.

(** A source that returns 0, 1/3, 2/3, 0, ...: the binary64 quotients
    0.3333333333333333 and 0.6666666666666666. *)
Definition thirds : nat -> unit_interval :=
  fun k => match (k mod 3)%nat with
           | O => UnitInterval (number_of_Z 0) eq_refl
           | S O => UnitInterval (fraction 1 3) eq_refl
           | _ => UnitInterval (fraction 2 3) eq_refl
           end.

(** The number 0.03. *)
Definition three_hundredths : unit_interval :=
  UnitInterval (fraction 3 100) eq_refl.

(** The state after the declarations of lines 1 to 3. *)
Definition initial : state := mkState [[]] 0 [] 0 0 [].

Definition three_one_two : list number :=
  [number_of_Z 3; number_of_Z 1; number_of_Z 2].

(** A state in which the array [3, 1, 2] is the only object. *)
Definition sorting_312 : state := mkState [three_one_two] 0 [] 0 0 [].

(** The array [2, 2, 2], alone in the heap. *)
Definition twos : list number := [number_of_Z 2; number_of_Z 2; number_of_Z 2].
Definition sorting_222 : state := mkState [twos] 0 [] 0 0 [].

(** ** The page: display, cursor and timer

    The rest of [script.js]: [renderStep], the part of [generateArray]
    that touches the timer and the display, [startAutoPlay] and the
    handlers of the buttons and of the slider.  The display is the list of
    the bars of [container]; the window's interval timers are the list of
    the active ones, each with the identifier [setInterval] returned for
    it (a positive integer) and its delay; a timer that fires runs the
    callback of [startAutoPlay].  When a timer fires is not modelled, only
    that it may fire while it is active. *)

(** A [div] of [container]: [style.height] (the number before [px]),
    [innerText] and the classes added, in order. *)
Record bar := mkBar {
  height : number;
  innerText : number;
  classList : list string
}.

(** [Math.max(...values)]: the largest value from [-Infinity] on, [+0]
    above [-0], and NaN as soon as one value is NaN. *)
Definition Math_max (values : list number) : number :=
  fold_left
    (fun highest x =>
       if isNaN highest then highest
       else if isNaN x then S754_nan
       else match x, highest with
            | S754_zero false, S754_zero true => x
            | _, _ => if SFltb highest x then x else highest
            end)
    values (S754_infinity true).

(** The globals and the objects of the page: the sorting state, the
    variable [autoPlayInterval] ([null] or a timer identifier), the value
    of the slider, the active interval timers, the number of identifiers
    handed out, and the children of [container]. *)
Record page := mkPage {
  core : state;
  autoPlayInterval : option nat;
  speedSlider : Z;
  intervals : list (nat * Z);
  issued : nat;
  container : list bar
}.

Definition set_core (s : state) (p : page) : page :=
  mkPage s (autoPlayInterval p) (speedSlider p) (intervals p) (issued p) (container p).
Definition set_autoPlayInterval (h : option nat) (p : page) : page :=
  mkPage (core p) h (speedSlider p) (intervals p) (issued p) (container p).
Definition set_speedSlider (v : Z) (p : page) : page :=
  mkPage (core p) (autoPlayInterval p) v (intervals p) (issued p) (container p).
Definition set_intervals (l : list (nat * Z)) (p : page) : page :=
  mkPage (core p) (autoPlayInterval p) (speedSlider p) l (issued p) (container p).
Definition set_issued (n : nat) (p : page) : page :=
  mkPage (core p) (autoPlayInterval p) (speedSlider p) (intervals p) n (container p).
Definition set_container (l : list bar) (p : page) : page :=
  mkPage (core p) (autoPlayInterval p) (speedSlider p) (intervals p) (issued p) l.

(** What the user or a timer does. *)
Inductive event :=
| Generate (input : option (list number))
| Start
| Next
| Prev
| Slide (value : Z)
| Fire (id : nat).

Module Page.

(** [clearInterval(handle)]: nothing happens for [null] or for an
    identifier that is not active. *)
Definition clearInterval (handle : option nat) (p : page) : page :=
  match handle with
  | Some id =>
      set_intervals (List.filter (fun t => negb (Nat.eqb (fst t) id)) (intervals p)) p
  | None => p
  end.

(** [setInterval(callback, delay)], the callback being the one of
    [startAutoPlay]: the identifier is new and positive. *)
Definition setInterval (delay : Z) (p : page) : nat * page :=
  let id := S (issued p) in
  (id, set_issued id (set_intervals (intervals p ++ [(id, delay)]) p)).

(** [i === h] for an optional field [h] of the highlight. *)
Definition is_index (i : nat) (h : option Z) : bool :=
  match h with
  | Some k => Z.of_nat i =? k
  | None => false
  end.

(** The classes of the bar of index [i]. *)
Definition classes (h : Highlight) (i : nat) : list string :=
  ["bar"%string]
  ++ (if is_index i (pivot h) then ["pivot"%string] else [])
  ++ (if is_index i (compare h) then ["comparing"%string] else [])
  ++ (match sorted h with Some true => ["sorted"%string] | _ => [] end).

(** The bar [forEach] builds for [value] at index [i]. *)
Definition bar_of (h : Highlight) (maxVal : number) (i : nat) (value : number) : bar :=
  mkBar (SFmul 53 1024 (SFdiv 53 1024 value maxVal) (number_of_Z 300))
        value
        (classes h i).

(** [steps[index]]. *)
Definition step_at (l : list Step.t) (index : Z) : option Step.t :=
  if index <? 0 then None else l !! Z.to_nat index.

Definition renderStep (index : Z) (p : page) : option page :=
  let p := set_container [] p in
  match step_at (steps (core p)) index with
  | None => Some p
  | Some step =>
      match heap (core p) !! Step.array step with
      | None => None
      | Some values =>
          let maxVal := Math_max values in
          Some (set_container (imap (bar_of (Step.highlight step) maxVal) values) p)
      end
  end.

(** [core p] with [currentStep] set to [c]. *)
Definition with_currentStep (c : Z) (p : page) : page :=
  set_core (set_currentStep c (core p)) p.

Definition startAutoPlay (p : page) : page :=
  let p := clearInterval (autoPlayInterval p) p in
  let '(id, p) := setInterval (speedSlider p) p in
  set_autoPlayInterval (Some id) p.

(** The callback [startAutoPlay] passes to [setInterval]. *)
Definition tick (p : page) : option page :=
  if currentStep (core p) <? Z.of_nat (length (steps (core p))) - 1
  then
    let p := with_currentStep (currentStep (core p) + 1) p in
    renderStep (currentStep (core p)) p
  else Some (clearInterval (autoPlayInterval p) p).

Section WithRandom.

Variable Math_random : nat -> unit_interval.

(** [generateArray()] as a whole: the timer is cleared first, and the
    first step is rendered unless the input was refused. *)
Definition generateArray (input : option (list number)) (p : page) : option page :=
  let p := clearInterval (autoPlayInterval p) p in
  match generateArray Math_random input (core p) with
  | None => None
  | Some (Alerted _, s) => Some (set_core s p)
  | Some (Rendered index, s) => renderStep index (set_core s p)
  end.

(** The handlers registered at the end of the script, and the callback of
    the timers. *)
Definition handle (e : event) (p : page) : option page :=
  match e with
  | Generate input => generateArray input p
  | Start =>
      let p := with_currentStep 0 p in
      match renderStep (currentStep (core p)) p with
      | Some p => Some (startAutoPlay p)
      | None => None
      end
  | Next =>
      if currentStep (core p) <? Z.of_nat (length (steps (core p))) - 1
      then
        let p := with_currentStep (currentStep (core p) + 1) p in
        renderStep (currentStep (core p)) p
      else Some p
  | Prev =>
      if 0 <? currentStep (core p)
      then
        let p := with_currentStep (currentStep (core p) - 1) p in
        renderStep (currentStep (core p)) p
      else Some p
  | Slide value =>
      let p := set_speedSlider value p in
      match autoPlayInterval p with
      | Some (S _) => Some (startAutoPlay p)
      | _ => Some p
      end
  | Fire id =>
      if existsb (fun t => Nat.eqb (fst t) id) (intervals p)
      then tick p
      else Some p
  end.

(** The page after the events [es], in order. *)
Fixpoint play (es : list event) (p : page) : option page :=
  match es with
  | [] => Some p
  | e :: es' =>
      match handle e p with
      | Some p' => play es' p'
      | None => None
      end
  end.

End WithRandom.

End Page.

(** The page when the script starts: no step, no timer, nothing shown. *)
Definition blank (slider : Z) : page := mkPage initial None slider [] 0 [].

(** The steps refer to allocated array objects. *)
Definition refs_allocated (s : state) : Prop :=
  Forall (fun st => (Step.array st < length (heap s))%nat) (steps s).

(** What the handlers keep true of the page: the steps can be read, the
    cursor [currentStep] is an index of [steps] (or 0 when there is no
    step), at most one timer is active and it is the one [autoPlayInterval]
    names, and [autoPlayInterval] is [null] or a positive identifier. *)
Definition page_ok (p : page) : Prop :=
  refs_allocated (core p)
  /\ 0 <= currentStep (core p)
  /\ (currentStep (core p) < Z.of_nat (length (steps (core p)))
      \/ currentStep (core p) = 0)
  /\ (intervals p = []
      \/ exists id delay, intervals p = [(id, delay)] /\ autoPlayInterval p = Some id)
  /\ (forall id, autoPlayInterval p = Some id -> id <> 0%nat).

(** The highlight [h] points inside [low .. high]: its pivot index, when
    there is one, lies there, and so does its compare index, which is
    then below the pivot index. *)
Definition highlight_within (low high : Z) (h : Highlight) : Prop :=
  (forall p, pivot h = Some p -> low <= p <= high)
  /\ (forall j, compare h = Some j ->
        low <= j /\ exists p, pivot h = Some p /\ j < p).

(** What holds of the highlight of a snapshot recorded while
    [low .. high] is sorted: it points inside the subrange and does not
    say [sorted]. *)
Definition sorting_highlight (low high : Z) (sn : snapshot) : Prop :=
  highlight_within low high sn.2 /\ sorted sn.2 = None.

(** The array [9, 3, 1, 2, 0], alone in the heap. *)
Definition five : list number :=
  [number_of_Z 9; number_of_Z 3; number_of_Z 1; number_of_Z 2; number_of_Z 0].
Definition sorting_five : state := mkState [five] 0 [] 0 0 [].

(** The page after [Generate [3, 1, 2]] and one [Next], from the blank
    page. *)
Definition demo_page : page :=
  default (blank 500)
          (Page.play thirds [Generate (Some three_one_two); Next] (blank 500)).

(** The page after the animation of [3, 1, 2] has run to its end. *)
Definition finished_page : page :=
  default (blank 500)
          (Page.play thirds (Generate (Some three_one_two) :: Start :: repeat (Fire 1) 12)
                     (blank 500)).

(** ** Numbers: the order [<] on values that are not NaN *)

Ltac float_cases :=
  repeat match goal with
  | x : spec_float |- _ => destruct x as [[]|[]| |[] ? ?]
  end; simpl in *; try congruence;
  repeat match goal with
  | |- context [Z.compare ?a ?b] => destruct (Z.compare_spec a b)
  | H : context [Z.compare ?a ?b] |- _ => destruct (Z.compare_spec a b)
  end; simpl in *; try congruence; try lia; subst;
  rewrite ?Pos.compare_cont_spec in *; simpl in *;
  repeat match goal with
  | |- context [Pos.compare ?a ?b] => destruct (Pos.compare_spec a b)
  | H : context [Pos.compare ?a ?b] |- _ => destruct (Pos.compare_spec a b)
  end; simpl in *; try congruence; try lia.

Lemma SFltb_le x y : SFltb x y = true -> num_le x y.
Proof. unfold num_le, SFltb, SFleb. destruct (SFcompare x y) as [[]|]; congruence. Qed.

Lemma SFeqb_not_lt x y : SFeqb x y = true -> SFltb x y = false.
Proof. unfold SFeqb, SFltb. destruct (SFcompare x y) as [[]|]; congruence. Qed.

Lemma SFltb_not_nan x y : SFltb x y = true -> isNaN x = false /\ isNaN y = false.
Proof. unfold SFltb. destruct x, y; simpl; try discriminate; auto. Qed.

Lemma not_lt_le x y :
  isNaN x = false -> isNaN y = false -> SFltb y x = false -> num_le x y.
Proof. unfold num_le, SFltb, SFleb. intros. float_cases. Qed.

Lemma lt_le_trans x p y : SFltb x p = true -> num_le p y -> num_le x y.
Proof. unfold num_le, SFltb, SFleb. intros. float_cases. Qed.

(** The integers 1 to 100 are not NaN as numbers. *)
Lemma number_of_Z_not_nan z : 1 <= z <= 100 -> isNaN (number_of_Z z) = false.
Proof.
  intros Hz.
  assert (H : forallb (fun z => negb (isNaN (number_of_Z z))) (seqZ 1 100) = true)
    by (vm_compute; reflexivity).
  rewrite forallb_forall in H.
  apply negb_true_iff, H, list_elem_of_In, elem_of_seqZ. lia.
Qed.

(** ** Numbers: the binary64 product of [Math.random() * m]

    The rounding of [binary_round_aux]: halving the mantissa [k] times
    keeps its quotient by [2 ^ k] and the bit below it, rounding to nearest
    adds at most one to the quotient, and only above the midpoint.  From
    there: the product of a number below 1 and an integer [m] stays below
    [m], after rounding too. *)

(** The number of bits of a mantissa. *)
Lemma digits2_size p : digits2_pos p = Pos.size p.
Proof. induction p; simpl; congruence. Qed.

Lemma digits_bounds p :
  2 ^ (Zpos (digits2_pos p) - 1) <= Zpos p < 2 ^ Zpos (digits2_pos p).
Proof.
  rewrite digits2_size.
  pose proof (Pos.size_gt p) as Hgt. pose proof (Pos.size_le p) as Hle.
  apply Pos2Z.pos_lt_pos in Hgt. apply Pos2Z.pos_le_pos in Hle.
  rewrite Pos2Z.inj_pow in Hgt, Hle.
  replace (Zpos (Pos.size p)) with (Z.succ (Zpos (Pos.size p) - 1)) in Hle at 1 by lia.
  rewrite Z.pow_succ_r in Hle by lia. lia.
Qed.

Lemma digits_le p k : 0 <= k -> Zpos p < 2 ^ k -> Zpos (digits2_pos p) <= k.
Proof.
  intros Hk Hp. pose proof (digits_bounds p) as [Hd _].
  apply Z.nlt_ge. intros Hlt.
  assert (2 ^ k <= 2 ^ (Zpos (digits2_pos p) - 1)) by (apply Z.pow_le_mono_r; lia).
  lia.
Qed.

Lemma digits_ge p k : 2 ^ (k - 1) <= Zpos p -> k <= Zpos (digits2_pos p).
Proof.
  intros Hp. pose proof (digits_bounds p) as [_ Hd].
  apply Z.nlt_ge. intros Hlt.
  assert (2 ^ Zpos (digits2_pos p) <= 2 ^ (k - 1)) by (apply Z.pow_le_mono_r; lia).
  lia.
Qed.

(** One halving: the quotient by 2, and the bit that is lost. *)
Lemma shr_1_spec m r s :
  0 <= m ->
  shr_m (shr_1 (Build_shr_record m r s)) = m / 2
  /\ shr_r (shr_1 (Build_shr_record m r s)) = Z.odd m.
Proof.
  intros Hm. rewrite <- Z.div2_div.
  destruct m as [|[p|p|]|p]; try lia; split; reflexivity.
Qed.

Lemma shr_1_shifted P k mrs :
  0 <= P -> 0 <= k -> shifted P k mrs -> shifted P (k + 1) (shr_1 mrs).
Proof.
  intros HP Hk [Hm _]. destruct mrs as [m r s]. cbn [shr_m] in Hm.
  assert (H2 : 0 < 2 ^ k) by (apply Z.pow_pos_nonneg; lia).
  assert (H0 : 0 <= m) by (subst m; apply Z.div_pos; lia).
  destruct (shr_1_spec m r s H0) as [E1 E2].
  split.
  - rewrite E1, Hm, Z.pow_add_r, Z.pow_1_r, Z.div_div by lia. reflexivity.
  - rewrite E2. intros Hodd. split; [lia|].
    replace (k + 1 - 1) with k by lia.
    rewrite Z.pow_add_r, Z.pow_1_r, Z.rem_mul_r by lia.
    rewrite <- Hm, Zmod_odd, Hodd.
    pose proof (Z.mod_pos_bound P (2 ^ k) H2). lia.
Qed.

Lemma iter_pos_shifted P n : 0 <= P ->
  forall k mrs, 0 <= k -> shifted P k mrs ->
  shifted P (k + Zpos n) (SpecFloat.iter_pos shr_1 n mrs).
Proof.
  intros HP. induction n as [n IH|n IH|]; intros k mrs Hk H; cbn [SpecFloat.iter_pos].
  - replace (k + Zpos n~1) with (k + 1 + Zpos n + Zpos n) by lia.
    apply IH; [lia|]. apply IH; [lia|]. now apply shr_1_shifted.
  - replace (k + Zpos n~0) with (k + Zpos n + Zpos n) by lia.
    apply IH; [lia|]. now apply IH.
  - now apply shr_1_shifted.
Qed.

(** [shr] halves [n] times when [n] is positive, and not at all otherwise. *)
Lemma shr_spec P e n mrs e' :
  0 <= P ->
  shr (Build_shr_record P false false) e n = (mrs, e') ->
  e' = e + Z.max 0 n /\ shifted P (Z.max 0 n) mrs.
Proof.
  intros HP H.
  assert (H0 : shifted P 0 (Build_shr_record P false false)).
  { split; cbn; [now rewrite Z.div_1_r | discriminate]. }
  destruct n as [|n|n]; cbn [shr] in H; injection H as <- <-.
  - rewrite Z.max_l by lia. split; [lia | exact H0].
  - rewrite Z.max_r by lia. split; [reflexivity|].
    now apply (iter_pos_shifted P n HP 0).
  - rewrite Z.max_l by lia. split; [lia | exact H0].
Qed.

(** Rounding to nearest adds one at most, and only when the round bit is
    set. *)
Lemma round_nearest_even_spec mrs :
  let q' := round_nearest_even (shr_m mrs) (loc_of_shr_record mrs) in
  shr_m mrs <= q' <= shr_m mrs + 1 /\ (q' = shr_m mrs + 1 -> shr_r mrs = true).
Proof.
  destruct mrs as [m [] []]; cbn; try destruct (Z.even m); split; lia || auto.
Qed.

(** Rounding to nearest of [P * 2 ^ e]. *)
Lemma binary_round_aux_spec sx (P : positive) (e : Z) :
  let n := Z.max 0 (fexp 53 1024 (Zpos (digits2_pos P) + e) - e) in
  let q := Zpos P / 2 ^ n in
  exists q',
    q <= q' <= q + 1
    /\ (q' = q + 1 -> 1 <= n /\ 2 ^ (n - 1) <= Zpos P mod 2 ^ n)
    /\ rounded_to sx q' (e + n) (binary_round_aux 53 1024 sx (Zpos P) e loc_Exact).
Proof.
  intros n q.
  pose proof (digits_bounds P) as [Hd1 Hd2].
  set (d := Zpos (digits2_pos P)) in *.
  assert (Hn : 0 <= n) by (subst n; lia).
  assert (Hmin : -1074 <= e + n) by (subst n; unfold fexp, emin; lia).
  assert (Hdn : d <= n + 53) by (subst n; unfold fexp, emin; lia).
  assert (H2n : 0 < 2 ^ n) by (apply Z.pow_pos_nonneg; lia).
  assert (Hq : 0 <= q < 2 ^ 53).
  { split; [apply Z.div_pos; lia|].
    apply Z.div_lt_upper_bound; [lia|]. rewrite <- Z.pow_add_r by lia.
    eapply Z.lt_le_trans; [exact Hd2|]. apply Z.pow_le_mono_r; lia. }
  unfold binary_round_aux, shr_fexp.
  cbn [Zdigits2 shr_record_of_loc]. fold d.
  destruct (shr _ e _) as [mrs e'] eqn:E1.
  apply shr_spec in E1 as [-> [Hm Hr]]; [|lia]. fold n in Hm, Hr |- *. fold q in Hm.
  pose proof (round_nearest_even_spec mrs) as [Hq' Hup]. cbn zeta in Hq', Hup.
  set (q' := round_nearest_even _ _) in *. rewrite Hm in Hq', Hup.
  exists q'. split; [exact Hq'|]. split; [intros Hx; apply Hr, Hup, Hx|].
  destruct (shr _ (e + n) _) as [mrs2 e2] eqn:E2.
  destruct q' as [|p'|p'] eqn:Eq'; [| |lia].
  - apply shr_spec in E2 as [-> [Hm2 _]]; [|lia].
    rewrite Hm2, Z.div_0_l by (apply Z.pow_nonzero; lia). cbn. auto.
  - cbn [Zdigits2] in E2.
    destruct (Z.eq_dec (Zpos p') (2 ^ 53)) as [Ep|Np].
    + assert (p' = 9007199254740992%positive) as -> by (apply Pos2Z.inj; exact Ep).
      replace (fexp 53 1024 (Zpos (digits2_pos 9007199254740992) + (e + n)) - (e + n))
        with 1 in E2 by (cbn [digits2_pos Pos.succ]; unfold fexp, emin; lia).
      cbn in E2. injection E2 as <- <-. cbn [shr_m].
      destruct (Z.leb_spec (e + n + 1) (1024 - 53)); cbn.
      * split; [reflexivity|]. split; [lia|]. right.
        split; [reflexivity|]. split; [reflexivity | lia].
      * split; [reflexivity | lia].
    + assert (Hp : Zpos p' < 2 ^ 53) by lia.
      pose proof (digits_le p' 53 ltac:(lia) Hp) as Hd'.
      assert (Hs : fexp 53 1024 (Zpos (digits2_pos p') + (e + n)) - (e + n) <= 0)
        by (unfold fexp, emin; lia).
      destruct (fexp 53 1024 _ - (e + n)) as [|k|k] eqn:Ek in E2; try lia;
        cbn [shr] in E2; injection E2 as <- <-; cbn [shr_m];
        (destruct (Z.leb_spec (e + n) (1024 - 53)); cbn;
         [split; [reflexivity|]; split; [lia|]; left; auto
         |split; [reflexivity | lia]]).
Qed.

(** The alignment of [shl_align] multiplies by a power of two. *)
Lemma iter_xO p k : Zpos (Pos.iter xO p k) = Zpos p * 2 ^ Zpos k.
Proof.
  induction k as [|k IH] using Pos.peano_ind.
  - cbn. lia.
  - rewrite Pos.iter_succ, Pos2Z.inj_xO, IH, Pos2Z.inj_succ, Z.pow_succ_r by lia. lia.
Qed.

(** The binary64 value of a positive integer. *)
Lemma number_of_Z_shape m :
  0 < m ->
  (number_of_Z m = S754_infinity false /\ 2 ^ 1023 <= m)
  \/ exists my ey, number_of_Z m = S754_finite false my ey /\ integer_shape m my ey.
Proof.
  intros Hm. destruct m as [|p|p]; try lia. clear Hm.
  unfold number_of_Z, binary_normalize, binary_round, shl_align.
  pose proof (digits_bounds p) as [Hd1 Hd2].
  set (d := Zpos (digits2_pos p)) in *.
  assert (Hd : 1 <= d) by (subst d; lia).
  assert (Hf : fexp 53 1024 (d + 0) - 0 = d - 53) by (unfold fexp, emin; lia).
  rewrite Hf.
  destruct (d - 53) as [|k|k] eqn:Ek.
  - (* 53 digits *)
    destruct (binary_round_aux_spec false p 0) as (q' & Hq' & Hup & Hr).
    fold d in Hq', Hup, Hr. rewrite Hf in Hq', Hup, Hr. cbn in Hq', Hup, Hr.
    rewrite Z.div_1_r in Hq', Hup.
    assert (q' = Zpos p) as -> by lia.
    assert (d = 53) as Ed by lia. rewrite Ed in Hd1, Hd2.
    destruct (binary_round_aux 53 1024 false (Zpos p) 0 loc_Exact) as [s|s| |s mr er];
      cbn in Hr; try lia.
    destruct Hr as (-> & _ & [(E1 & -> & _) | (E1 & _)]); [|lia].
    right. exists mr, 0. split; [reflexivity|].
    split; [lia|]. split; [lia|]. right. left. cbn. lia.
  - (* more than 53 digits *)
    destruct (binary_round_aux_spec false p 0) as (q' & Hq' & Hup & Hr).
    fold d in Hq', Hup, Hr. rewrite Hf in Hq', Hup, Hr.
    rewrite Z.max_r in Hq', Hup, Hr by lia. rewrite Z.add_0_l in Hr.
    set (n := Zpos k) in *.
    assert (H2n : 0 < 2 ^ n) by (apply Z.pow_pos_nonneg; lia).
    set (q := Zpos p / 2 ^ n) in *.
    assert (Hq : 2 ^ 52 <= q).
    { apply Z.div_le_lower_bound; [lia|]. rewrite <- Z.pow_add_r by lia.
      eapply Z.le_trans; [|exact Hd1]. apply Z.pow_le_mono_r; lia. }
    assert (Hqn : q * 2 ^ n <= Zpos p).
    { rewrite Z.mul_comm. apply Z.mul_div_le. lia. }
    assert (Hq53 : q < 2 ^ 53).
    { apply Z.div_lt_upper_bound; [lia|]. rewrite <- Z.pow_add_r by lia.
      replace (n + 53) with d by lia. exact Hd2. }
    destruct (binary_round_aux 53 1024 false (Zpos p) 0 loc_Exact) as [s|s| |s mr er];
      cbn in Hr; [lia | left; destruct Hr as [-> Hr] | contradiction|].
    { split; [reflexivity|]. eapply Z.le_trans; [|exact Hd1].
      apply Z.pow_le_mono_r; lia. }
    destruct Hr as (-> & _ & Hr).
    right. exists mr, er. split; [reflexivity|].
    destruct (Z.eq_dec q' q) as [Eq|Nq].
    + destruct Hr as [(E1 & -> & _) | (E1 & _)]; [|lia].
      split; [lia|]. split; [lia|]. right. left. rewrite E1, Eq. lia.
    + assert (Eq : q' = q + 1) by lia. destruct (Hup Eq) as [_ Hrem].
      assert (H2n1 : 0 < 2 ^ (n - 1)) by (apply Z.pow_pos_nonneg; lia).
      assert (Hlt : q * 2 ^ n < Zpos p).
      { pose proof (Z.div_mod (Zpos p) (2 ^ n)). fold q in H. lia. }
      destruct Hr as [(E1 & -> & Hq'53) | (E1 & E2 & ->)].
      * split; [lia|]. split; [lia|]. right. right. exists q, n.
        rewrite Z.sub_diag. cbn. lia.
      * split; [lia|]. split; [lia|]. right. right. exists q, n.
        replace (n + 1 - n) with 1 by lia. rewrite E2. split; [lia|]. lia.
  - (* fewer than 53 digits *)
    replace (fexp 53 1024 (d + 0)) with (Zneg k) by lia.
    destruct (binary_round_aux_spec false (Pos.iter xO p k) (Zneg k))
      as (q' & Hq' & Hup & Hr).
    assert (Hk : 0 < 2 ^ Zpos k) by (apply Z.pow_pos_nonneg; lia).
    assert (Hmz : 2 ^ 52 <= Zpos (Pos.iter xO p k) < 2 ^ 53).
    { rewrite iter_xO.
      replace 52 with (d - 1 + Zpos k) by lia. replace 53 with (d + Zpos k) by lia.
      rewrite !Z.pow_add_r by lia. nia. }
    assert (Zpos (digits2_pos (Pos.iter xO p k)) = 53) as Edz.
    { apply Z.le_antisymm; [apply digits_le | apply digits_ge]; lia. }
    rewrite Edz in Hq', Hup, Hr.
    replace (Z.max 0 (fexp 53 1024 (53 + Zneg k) - Zneg k)) with 0
      in Hq', Hup, Hr by (unfold fexp, emin; lia).
    rewrite Z.pow_0_r, Z.div_1_r in Hq', Hup. rewrite Z.add_0_r in Hr.
    assert (q' = Zpos (Pos.iter xO p k)) as -> by lia.
    destruct (binary_round_aux 53 1024 false _ (Zneg k) loc_Exact) as [s|s| |s mr er];
      cbn in Hr; try lia.
    destruct Hr as (-> & _ & [(E1 & -> & _) | (E1 & _)]); [|lia].
    right. exists mr, (Zneg k). split; [reflexivity|].
    split; [lia|]. split; [lia|]. left. split; [lia|].
    rewrite E1, iter_xO. reflexivity.
Qed.

(** Changing the unit in which two dyadic numbers are compared. *)
Lemma dyadic_lt_unit a ea b eb c c' :
  c <= ea -> c <= eb -> c' <= ea -> c' <= eb ->
  a * 2 ^ (ea - c) < b * 2 ^ (eb - c) -> a * 2 ^ (ea - c') < b * 2 ^ (eb - c').
Proof.
  intros Ha Hb Ha' Hb' H.
  destruct (Z.le_gt_cases c' c) as [Hc|Hc].
  - replace (ea - c') with (ea - c + (c - c')) by lia.
    replace (eb - c') with (eb - c + (c - c')) by lia.
    rewrite !Z.pow_add_r, !Z.mul_assoc by lia.
    apply Z.mul_lt_mono_pos_r; [apply Z.pow_pos_nonneg; lia | exact H].
  - replace (ea - c) with (ea - c' + (c' - c)) in H by lia.
    replace (eb - c) with (eb - c' + (c' - c)) in H by lia.
    rewrite !Z.pow_add_r, !Z.mul_assoc in H by lia.
    apply Z.mul_lt_mono_pos_r in H; [exact H | apply Z.pow_pos_nonneg; lia].
Qed.

(** [Math.floor] of a positive number below the integer [B]. *)
Lemma Math_floor_lt mr er B c :
  c <= er -> c <= 0 -> Zpos mr * 2 ^ (er - c) < B * 2 ^ (0 - c) ->
  0 <= Z.shiftl (Zpos mr) er < B.
Proof.
  intros Hc Hc0 H. split; [apply Z.shiftl_nonneg; lia|].
  destruct (Z.le_gt_cases 0 er) as [He|He].
  - rewrite Z.shiftl_mul_pow2 by lia.
    apply (dyadic_lt_unit _ _ _ _ c 0) in H; try lia.
    rewrite Z.sub_0_r, Z.pow_0_r in H. lia.
  - replace er with (- - er) by lia.
    rewrite Z.shiftl_opp_r, Z.shiftr_div_pow2 by lia.
    apply (dyadic_lt_unit _ _ _ _ c er) in H; try lia.
    rewrite Z.sub_diag, Z.pow_0_r in H.
    apply Z.div_lt_upper_bound; [apply Z.pow_pos_nonneg; lia|].
    replace (- er) with (0 - er) by lia. lia.
Qed.

(** The rounded product of a number below 1 and a number [my * 2 ^ ey]
    of full precision stays below the latter. *)
Lemma product_below (mx my : positive) (ex ey : Z) :
  Zpos mx < 2 ^ 53 -> ex <= -53 -> 2 ^ 52 <= Zpos my < 2 ^ 53 -> -52 <= ey ->
  match binary_round_aux 53 1024 false (Zpos (mx * my)) (ex + ey) loc_Exact with
  | S754_zero _ => True
  | S754_infinity _ => 971 <= ey
  | S754_nan => False
  | S754_finite s mr er =>
      s = false /\ ex + ey <= er /\ Zpos mr < 2 ^ 53
      /\ Zpos mr * 2 ^ (er - (ex + ey)) < Zpos my * 2 ^ (ey - (ex + ey))
  end.
Proof.
  intros Hmx Hex Hmy Hey.
  destruct (binary_round_aux_spec false (mx * my) (ex + ey)) as (q' & Hq' & Hup & Hr).
  pose proof (digits_bounds (mx * my)) as [Hd1 Hd2].
  set (d := Zpos (digits2_pos (mx * my))) in *.
  set (e := ex + ey) in *.
  set (n := Z.max 0 (fexp 53 1024 (d + e) - e)) in *.
  rewrite Pos2Z.inj_mul in *.
  set (P := Zpos mx * Zpos my) in *.
  set (q := P / 2 ^ n) in *.
  assert (Hn : 0 <= n) by (subst n; lia).
  assert (H2n : 0 < 2 ^ n) by (apply Z.pow_pos_nonneg; lia).
  assert (Hd : d <= 106).
  { apply digits_le; [lia|]. change (2 ^ 106) with (2 ^ 53 * 2 ^ 53).
    rewrite Pos2Z.inj_mul. fold P. subst P. nia. }
  replace (ey - e) with (- ex) by (subst e; lia).
  set (T := 2 ^ (- ex - 53)).
  assert (HT : 1 <= T) by (subst T; apply (Z.pow_le_mono_r 2 0); lia).
  assert (E2 : 2 ^ (- ex) = 2 ^ 53 * T).
  { subst T. rewrite <- Z.pow_add_r by lia. f_equal. lia. }
  assert (Hlt : q' * 2 ^ n < Zpos my * 2 ^ (- ex)).
  { rewrite E2.
    destruct (Z.eq_dec n 0) as [En|Nn].
    - assert (q' = q) as -> by lia. subst q. rewrite En, Z.pow_0_r, Z.div_1_r, Z.mul_1_r.
      subst P. nia.
    - set (h := 2 ^ (n - 1)) in *.
      assert (Hh : 0 < h) by (subst h; apply Z.pow_pos_nonneg; lia).
      assert (E2n : 2 ^ n = 2 * h).
      { subst h. rewrite <- Z.pow_succ_r by lia. f_equal. lia. }
      assert (Hub : q' * 2 ^ n <= P + h).
      { pose proof (Z.div_mod P (2 ^ n) ltac:(lia)) as Hdm. fold q in Hdm.
        pose proof (Z.mod_pos_bound P (2 ^ n) H2n) as Hmb.
        destruct (Z.eq_dec q' q) as [->|Nq]; [nia|].
        assert (Eq : q' = q + 1) by lia. destruct (Hup Eq) as [_ Hrem]. nia. }
      destruct (Z.le_gt_cases (-1074) (d + e - 53)) as [Hnorm|Hsub].
      + assert (En : n = d - 53) by (subst n; unfold fexp, emin in *; lia).
        assert (HP : 2 ^ 53 * h <= P).
        { eapply Z.le_trans; [|exact Hd1]. subst h.
          rewrite <- Z.pow_add_r by lia. apply Z.pow_le_mono_r; lia. }
        assert (HP2 : P <= (2 ^ 53 - 1) * Zpos my) by (subst P; nia).
        assert (2 ^ 53 * (P + h) < 2 ^ 53 * (Zpos my * (2 ^ 53 * T))); [|lia].
        nia.
      + assert (En : e + n = -1074) by (subst n; unfold fexp, emin in *; lia).
        assert (HP : P < 2 ^ (n + 52)).
        { eapply Z.lt_le_trans; [exact Hd2|]. apply Z.pow_le_mono_r; lia. }
        assert (Hh2 : h <= 2 ^ (n + 52)) by (subst h; apply Z.pow_le_mono_r; lia).
        assert (H3 : 2 * 2 ^ (n + 52) <= 2 ^ 53 * T).
        { rewrite <- E2, <- Z.pow_succ_r by lia. apply Z.pow_le_mono_r; subst e; lia. }
        nia. }
  destruct (binary_round_aux 53 1024 false P e loc_Exact) as [s|s| |s mr er];
    cbn in Hr; auto.
  - destruct Hr as [_ Hr]. subst n e. unfold fexp, emin in Hr. lia.
  - destruct Hr as (-> & _ & [(E1 & -> & Hq53) | (-> & E1 & ->)]).
    + split; [reflexivity|]. split; [lia|]. split; [lia|].
      replace (e + n - e) with n by lia. rewrite E1. exact Hlt.
    + split; [reflexivity|]. split; [lia|]. split; [lia|].
      replace (e + n + 1 - e) with (Z.succ n) by lia.
      rewrite Z.pow_succ_r, E1 by lia. lia.
Qed.

Lemma number_of_Z_0 : number_of_Z 0 = S754_zero false.
Proof. reflexivity. Qed.

Lemma number_of_Z_1 : number_of_Z 1 = S754_finite false 4503599627370496 (-52).
Proof. vm_compute. reflexivity. Qed.

(** A number of the unit interval is a zero, or positive with an exponent
    of at most -53. *)
Lemma in_unit_interval_inv x :
  in_unit_interval x = true ->
  (exists s, x = S754_zero s)
  \/ exists mx ex, x = S754_finite false mx ex /\ Zpos mx < 2 ^ 53 /\ ex <= -53.
Proof.
  unfold in_unit_interval. rewrite number_of_Z_0, number_of_Z_1.
  intros [[Hv H0]%andb_true_iff H1]%andb_true_iff.
  destruct x as [s|s| |s mx ex]; [left; eauto | | discriminate|].
  - destruct s; discriminate.
  - destruct s; [discriminate|]. right. exists mx, ex. split; [reflexivity|].
    cbn [valid_binary] in Hv. unfold bounded, canonical_mantissa in Hv.
    apply andb_true_iff in Hv as [Hc%Z.eqb_eq _].
    pose proof (digits_bounds mx) as [Hd1 Hd2].
    set (d := Zpos (digits2_pos mx)) in *.
    assert (Hd : d <= 53) by (unfold fexp, emin in Hc; lia).
    split.
    + eapply Z.lt_le_trans; [exact Hd2|]. apply Z.pow_le_mono_r; lia.
    + unfold SFltb, SFcompare in H1.
      destruct (Z.compare_spec ex (-52)) as [->| |]; [|lia|discriminate].
      assert (d = 53) as Ed by (unfold fexp, emin in Hc; lia).
      rewrite Ed in Hd1.
      rewrite Pos.compare_cont_spec in H1. cbn [Pos.switch_Eq] in H1.
      destruct (Pos.compare_spec mx 4503599627370496) as [?|Hlt|?];
        try discriminate.
      apply Pos2Z.pos_lt_pos in Hlt.
      change (2 ^ (53 - 1)) with 4503599627370496 in Hd1. lia.
Qed.

(** [Math.floor(Math.random() * m)] is one of [0 .. m - 1]. *)
Lemma floor_scaled_range x m : 0 < m -> 0 <= floor_scaled x m < m.
Proof.
  intros Hm. unfold floor_scaled. destruct x as [x Hx]. cbn [ui_val].
  destruct (in_unit_interval_inv x Hx) as [[s ->] | (mx & ex & -> & Hmx & Hex)].
  - destruct (number_of_Z_shape m Hm) as [[-> _] | (my & ey & -> & _)]; cbn; lia.
  - destruct (number_of_Z_shape m Hm) as [[-> _] | (my & ey & -> & Hmy & Hey & Hs)];
      [cbn; lia|].
    cbn [SFmul xorb].
    pose proof (product_below mx my ex ey Hmx Hex Hmy Hey) as Hp.
    destruct (binary_round_aux 53 1024 false _ (ex + ey) loc_Exact)
      as [s|s| |s mr er]; cbn [Math_floor]; try lia.
    destruct Hp as (-> & He & Hmr & Hlt). cbn [cond_Zopp].
    destruct Hs as [[Hneg Emy] | [[Hpos Hle] | (q & nm & Hnm & Hq & Hqm & Eq)]].
    + (* the factor is [m] itself *)
      apply (Math_floor_lt mr er m (ex + ey)); [lia | lia |].
      rewrite Emy, <- Z.mul_assoc, <- Z.pow_add_r in Hlt by lia.
      replace (- ey + (ey - (ex + ey))) with (0 - (ex + ey)) in Hlt by lia.
      exact Hlt.
    + (* the factor is at most [m] *)
      enough (0 <= Z.shiftl (Zpos mr) er < Zpos my * 2 ^ ey) by lia.
      destruct (Z.le_gt_cases (ex + ey) 0) as [Hc|Hc].
      * apply (Math_floor_lt mr er _ (ex + ey)); [lia | lia |].
        rewrite <- Z.mul_assoc, <- Z.pow_add_r by lia.
        replace (ey + (0 - (ex + ey))) with (ey - (ex + ey)) by lia. exact Hlt.
      * apply (Math_floor_lt mr er _ 0); [lia | lia |].
        apply (dyadic_lt_unit _ _ _ _ (ex + ey) 0) in Hlt; try lia.
        rewrite Z.sub_diag, Z.pow_0_r. rewrite Z.sub_0_r in Hlt |- *.
        rewrite Z.sub_0_r in Hlt. lia.
    + (* the factor is the multiple of [2 ^ nm] above [m] *)
      enough (0 <= Z.shiftl (Zpos mr) er <= q * 2 ^ nm) by lia.
      assert (H2nm : 2 <= 2 ^ nm) by (apply (Z.pow_le_mono_r 2 1); lia).
      split; [apply Z.shiftl_nonneg; lia|].
      destruct (Z.le_gt_cases nm er) as [Hc|Hc].
      * rewrite Z.shiftl_mul_pow2 by lia.
        apply (dyadic_lt_unit _ _ _ _ (ex + ey) nm) in Hlt; try lia.
        rewrite Eq in Hlt.
        replace er with (er - nm + nm) at 1 by lia.
        rewrite Z.pow_add_r, Z.mul_assoc by lia.
        apply Z.mul_le_mono_nonneg_r; lia.
      * destruct (Z.le_gt_cases 0 er) as [H0|H0].
        -- rewrite Z.shiftl_mul_pow2 by lia.
           assert (2 * 2 ^ er <= 2 ^ nm).
           { rewrite <- Z.pow_succ_r by lia. apply Z.pow_le_mono_r; lia. }
           nia.
        -- replace er with (- - er) by lia.
           rewrite Z.shiftl_opp_r, Z.shiftr_div_pow2 by lia.
           assert (Zpos mr / 2 ^ (- er) <= Zpos mr).
           { apply Z.div_le_upper_bound; [apply Z.pow_pos_nonneg; lia|].
             assert (1 <= 2 ^ (- er)) by (apply (Z.pow_le_mono_r 2 0); lia). nia. }
           nia.
Qed.

(** For a factor that is an integer of at most 53 bits, as every array
    length is, the product is a finite number. *)
Lemma floor_scaled_finite x m :
  0 < m < 2 ^ 53 ->
  match SFmul 53 1024 (ui_val x) (number_of_Z m) with
  | S754_zero _ | S754_finite _ _ _ => True
  | _ => False
  end.
Proof.
  intros Hm. destruct x as [x Hx]. cbn [ui_val].
  assert (H1023 : 2 ^ 53 <= 2 ^ 1023) by (apply Z.pow_le_mono_r; lia).
  destruct (number_of_Z_shape m ltac:(lia)) as [[_ Hi] | (my & ey & -> & Hmy & Hey & Hs)];
    [lia|].
  assert (Hey' : ey < 971).
  { destruct Hs as [[Hneg _] | [[Hpos Hle] | (q & nm & Hnm & Hq & Hqm & _)]]; [lia | |].
    - apply Z.nle_gt. intros Hge.
      assert (2 ^ 1 <= 2 ^ ey) by (apply Z.pow_le_mono_r; lia). nia.
    - assert (2 ^ 1 <= 2 ^ nm) by (apply Z.pow_le_mono_r; lia). nia. }
  destruct (in_unit_interval_inv x Hx) as [[s ->] | (mx & ex & -> & Hmx & Hex)];
    [exact I|].
  cbn [SFmul xorb].
  pose proof (product_below mx my ex ey Hmx Hex Hmy Hey) as Hp.
  destruct (binary_round_aux 53 1024 false _ (ex + ey) loc_Exact); auto. lia.
Qed.

(** The product is the rounded one: [0.6666666666666666 * 3] is 2 and
    [0.03 * 100] is 3, where the products of the rationals are below. *)
Example product_rounds_up :
  ui_val (always_two_thirds 0) = S754_finite false 6004799503160661 (-53)
  /\ SFmul 53 1024 (ui_val (always_two_thirds 0)) (number_of_Z 3) = number_of_Z 2
  /\ floor_scaled (always_two_thirds 0) 3 = 2
  /\ ui_val three_hundredths = S754_finite false 8646911284551352 (-58)
  /\ SFmul 53 1024 (ui_val three_hundredths) (number_of_Z 100) = number_of_Z 3
  /\ floor_scaled three_hundredths 100 = 3.
Proof. repeat split; vm_compute; reflexivity. Qed.

(** ** Arrays as values: lookups, exchanges, permutations *)

Lemma lookupZ_Some (v : list number) k x :
  lookupZ v k = Some x -> 0 <= k < Z.of_nat (length v).
Proof.
  unfold lookupZ. destruct (Z.ltb_spec k 0) as [|Hk]; [discriminate|].
  intros Hx%lookup_lt_Some. lia.
Qed.

Lemma lookupZ_is_Some (v : list number) k :
  0 <= k < Z.of_nat (length v) -> exists x, lookupZ v k = Some x.
Proof.
  intros Hk. unfold lookupZ. destruct (Z.ltb_spec k 0); [lia|].
  destruct (lookup_lt_is_Some_2 v (Z.to_nat k)) as [x Hx]; [lia|]. eauto.
Qed.

Lemma lookupZ_insert (v : list number) i x k :
  0 <= i < Z.of_nat (length v) ->
  lookupZ (<[Z.to_nat i := x]> v) k = if k =? i then Some x else lookupZ v k.
Proof.
  intros Hi. unfold lookupZ.
  destruct (Z.eqb_spec k i) as [->|Hne].
  - destruct (Z.ltb_spec i 0); [lia|].
    apply list_lookup_insert_eq. lia.
  - destruct (Z.ltb_spec k 0); [reflexivity|].
    apply list_lookup_insert_ne. lia.
Qed.

Lemma swap_list_length v x y : length (swap_list v x y) = length v.
Proof.
  unfold swap_list. destruct (lookupZ v x), (lookupZ v y); trivial.
  now rewrite !length_insert.
Qed.

Lemma lookupZ_swap v x y k :
  0 <= x < Z.of_nat (length v) -> 0 <= y < Z.of_nat (length v) ->
  lookupZ (swap_list v x y) k =
    if k =? y then lookupZ v x else if k =? x then lookupZ v y else lookupZ v k.
Proof.
  intros Hx Hy. unfold swap_list.
  destruct (lookupZ_is_Some v x Hx) as [vx Ex], (lookupZ_is_Some v y Hy) as [vy Ey].
  rewrite Ex, Ey.
  rewrite lookupZ_insert by (rewrite length_insert; lia).
  destruct (Z.eqb_spec k y); [reflexivity|].
  rewrite lookupZ_insert by lia.
  destruct (Z.eqb_spec k x); reflexivity.
Qed.

Lemma insert_perm_cons (v : list number) j a y :
  v !! j = Some y -> Permutation (y :: <[j := a]> v) (a :: v).
Proof.
  revert j. induction v as [|b t IH]; intros [|j] H; simpl in H; try discriminate.
  - injection H as ->. apply perm_swap.
  - simpl. rewrite perm_swap. rewrite (IH j H). apply perm_swap.
Qed.

Lemma insert_insert_perm (v : list number) i j x y :
  v !! i = Some x -> v !! j = Some y ->
  Permutation (<[j := x]> (<[i := y]> v)) v.
Proof.
  revert i j. induction v as [|b t IH]; intros [|i] [|j] Hi Hj;
    simpl in Hi, Hj; try discriminate; simpl.
  - injection Hi as ->. reflexivity.
  - injection Hi as ->. now apply insert_perm_cons.
  - injection Hj as ->. now apply insert_perm_cons.
  - apply perm_skip. now apply IH.
Qed.

Lemma swap_list_perm v x y : Permutation (swap_list v x y) v.
Proof.
  unfold swap_list.
  destruct (lookupZ v x) as [vx|] eqn:Ex; [|reflexivity].
  destruct (lookupZ v y) as [vy|] eqn:Ey; [|reflexivity].
  unfold lookupZ in Ex, Ey.
  destruct (x <? 0); [discriminate|]. destruct (y <? 0); [discriminate|].
  now apply insert_insert_perm.
Qed.

Lemma range_all_swap P v low high x y :
  low <= x <= high -> low <= y <= high ->
  range_all P v low high -> range_all P (swap_list v x y) low high.
Proof.
  intros Hx Hy H k z Hk Hz. unfold swap_list in Hz.
  destruct (lookupZ v x) as [vx|] eqn:Ex; [|now apply (H k z)].
  destruct (lookupZ v y) as [vy|] eqn:Ey; [|now apply (H k z)].
  pose proof (lookupZ_Some _ _ _ Ex). pose proof (lookupZ_Some _ _ _ Ey).
  rewrite lookupZ_insert in Hz by (rewrite length_insert; lia).
  destruct (Z.eqb_spec k y); [injection Hz as <-; now apply (H x vx)|].
  rewrite lookupZ_insert in Hz by lia.
  destruct (Z.eqb_spec k x); [injection Hz as <-; now apply (H y vy)|].
  now apply (H k z).
Qed.

(** ** The states of a run *)

Lemma fresh_steps_app b ev ev' :
  fresh_steps b (ev ++ ev') = fresh_steps b ev ++ fresh_steps (b + length ev) ev'.
Proof.
  revert b. induction ev as [|sn ev IH]; intros b; simpl.
  - now rewrite Nat.add_0_r.
  - rewrite IH. now replace (b + S (length ev))%nat with (S b + length ev)%nat by lia.
Qed.

Lemma after_init s arr v : heap s !! arr = Some v -> after s arr v [] 0 [] = s.
Proof.
  intros H. destruct s as [h a st cs c ch]. unfold after. simpl in *.
  rewrite list_insert_id by exact H.
  now rewrite !app_nil_r, Nat.add_0_r.
Qed.

Lemma after_heap_arr s arr v ev c ch :
  (arr < length (heap s))%nat -> heap (after s arr v ev c ch) !! arr = Some v.
Proof.
  intros H. simpl. rewrite lookup_app_l by (rewrite length_insert; exact H).
  now apply list_lookup_insert_eq.
Qed.

Lemma after_load s arr v ev c ch :
  (arr < length (heap s))%nat ->
  load arr (after s arr v ev c ch) = Some (v, after s arr v ev c ch).
Proof. intros H. unfold load. now rewrite after_heap_arr. Qed.

Lemma after_saveStep s arr v ev c ch h :
  (arr < length (heap s))%nat ->
  saveStep arr h (after s arr v ev c ch)
  = Some (tt, after s arr v (ev ++ [(v, h)]) c ch).
Proof.
  intros H. unfold saveStep, bind. rewrite after_load by exact H.
  unfold alloc, after, set_steps, set_heap. simpl. do 2 f_equal. f_equal.
  - now rewrite map_app, app_assoc.
  - rewrite fresh_steps_app, <- app_assoc. simpl. do 3 f_equal.
    now rewrite length_app, length_insert, length_map.
Qed.

Lemma after_get s arr v ev c ch i x :
  (arr < length (heap s))%nat -> lookupZ v i = Some x ->
  get arr i (after s arr v ev c ch) = Some (x, after s arr v ev c ch).
Proof.
  intros H Hx. unfold get, bind. rewrite after_load by exact H.
  now rewrite Hx.
Qed.

Lemma after_store s arr v ev c ch v' :
  (arr < length (heap s))%nat ->
  store arr v' (after s arr v ev c ch) = Some (tt, after s arr v' ev c ch).
Proof.
  intros H. unfold store. rewrite after_heap_arr by exact H.
  unfold after, set_heap. simpl. do 2 f_equal. f_equal.
  rewrite insert_app_l by (rewrite length_insert; exact H).
  now rewrite list_insert_insert_eq.
Qed.

Lemma after_put s arr v ev c ch i x y :
  (arr < length (heap s))%nat -> lookupZ v i = Some y ->
  put arr i x (after s arr v ev c ch)
  = Some (tt, after s arr (<[Z.to_nat i := x]> v) ev c ch).
Proof.
  intros H Hy. unfold put, bind. rewrite after_load by exact H.
  rewrite Hy. now apply after_store.
Qed.

Lemma after_swap s arr v ev c ch x y :
  (arr < length (heap s))%nat ->
  0 <= x < Z.of_nat (length v) -> 0 <= y < Z.of_nat (length v) ->
  swap arr x y (after s arr v ev c ch)
  = Some (tt, after s arr (swap_list v x y) ev c ch).
Proof.
  intros H Hx Hy.
  destruct (lookupZ_is_Some v x Hx) as [vx Ex], (lookupZ_is_Some v y Hy) as [vy Ey].
  unfold swap, bind.
  rewrite (after_get _ _ _ _ _ _ _ _ H Ey), (after_get _ _ _ _ _ _ _ _ H Ex).
  rewrite (after_put _ _ _ _ _ _ _ vy _ H Ex).
  assert (Ey' : exists z, lookupZ (<[Z.to_nat x := vy]> v) y = Some z)
    by (apply lookupZ_is_Some; rewrite length_insert; lia).
  destruct Ey' as [z Ez].
  rewrite (after_put _ _ _ _ _ _ _ vx _ H Ez).
  unfold swap_list. now rewrite Ex, Ey.
Qed.

Lemma lookup_map {A B} (f : A -> B) (l : list A) i :
  map f l !! i = option_map f (l !! i).
Proof.
  revert i. induction l as [|a l IH]; intros [|i]; simpl; auto.
Qed.

(** What a reader sees of the steps that record [ev]. *)
Lemma fresh_steps_view h b ev tl :
  map (view (h ++ map fst ev ++ tl)) (fresh_steps (length h + b) (drop b ev))
  = map seen (drop b ev).
Proof.
  remember (length ev - b)%nat as n eqn:Hn. revert b Hn.
  induction n as [|n IH]; intros b Hn.
  - rewrite drop_ge by lia. reflexivity.
  - destruct (lookup_lt_is_Some_2 ev b) as [sn Hsn]; [lia|].
    rewrite (drop_S _ _ _ Hsn). simpl. f_equal.
    + unfold view, seen. simpl. f_equal.
      rewrite lookup_app_r by lia.
      replace (length h + b - length h)%nat with b by lia.
      rewrite lookup_app_l by (rewrite length_map; lia).
      now rewrite lookup_map, Hsn.
    + replace (S (length h + b)) with (length h + S b)%nat by lia.
      apply IH. lia.
Qed.

Lemma trace_after s arr v ev c ch :
  (arr < length (heap s))%nat -> refs_ok arr s ->
  trace (after s arr v ev c ch) = trace s ++ map seen ev.
Proof.
  intros Harr Hrefs. unfold trace. simpl. rewrite map_app. f_equal.
  - apply map_ext_in. intros st Hst.
    unfold refs_ok in Hrefs. rewrite List.Forall_forall in Hrefs.
    destruct (Hrefs st Hst) as [Hlt Hne]. unfold view. f_equal.
    rewrite lookup_app_l by (rewrite length_insert; exact Hlt).
    apply list_lookup_insert_ne. congruence.
  - pose proof (fresh_steps_view (<[arr := v]> (heap s)) 0 ev []) as H.
    rewrite length_insert, Nat.add_0_r, drop_0, app_nil_r in H. exact H.
Qed.

Lemma fresh_steps_refs b ev :
  Forall (fun st => (b <= Step.array st < b + length ev)%nat) (fresh_steps b ev).
Proof.
  revert b. induction ev as [|sn ev IH]; intros b; simpl; constructor.
  - simpl. lia.
  - eapply Forall_impl; [apply IH|]. simpl. intros st Hst. lia.
Qed.

Lemma refs_ok_after s arr v ev c ch :
  (arr < length (heap s))%nat -> refs_ok arr s ->
  refs_ok arr (after s arr v ev c ch).
Proof.
  intros Harr Hrefs. unfold refs_ok. simpl. apply Forall_app. split.
  - eapply Forall_impl; [exact Hrefs|]. simpl. intros st [Hlt Hne].
    rewrite length_app, length_insert. split; [lia|exact Hne].
  - eapply Forall_impl; [apply fresh_steps_refs|]. simpl. intros st Hst.
    rewrite length_app, length_insert, length_map. lia.
Qed.

(** ** The scan and the partition on array values *)

Lemma spec_scan_bounds high p js :
  forall i v, let r := spec_scan high p js i v in
    i <= r.1.2 <= i + Z.of_nat (length js).
Proof.
  induction js as [|j js IH]; intros i v; simpl.
  - lia.
  - destruct (lt_at v j p); simpl.
    + specialize (IH (i + 1) (swap_list v (i + 1) j)). simpl in IH. lia.
    + specialize (IH i v). simpl in IH. lia.
Qed.

Lemma spec_scan_length high p js :
  forall i v, length (spec_scan high p js i v).2 = length v.
Proof.
  induction js as [|j js IH]; intros i v; simpl.
  - reflexivity.
  - destruct (lt_at v j p); simpl; rewrite IH; [apply swap_list_length|reflexivity].
Qed.

Lemma spec_partition_length v low high r :
  length (spec_partition v low high r).2 = length v.
Proof.
  unfold spec_partition. simpl.
  now rewrite swap_list_length, spec_scan_length, swap_list_length.
Qed.

Lemma spec_partition_bounds v low high r :
  low <= high ->
  low <= (spec_partition v low high r).1.2 <= high.
Proof.
  intros H. unfold spec_partition. simpl.
  pose proof (spec_scan_bounds high
    (default S754_nan (lookupZ (swap_list v r high) high))
    (seqZ low (high - low)) (low - 1) (swap_list v r high)) as B.
  simpl in B. rewrite length_seqZ in B. lia.
Qed.

Section Refinement.

Variable rnd : nat -> unit_interval.

(** The scan of the source computes what [spec_scan] describes. *)
Lemma after_scan s arr high p n :
  (arr < length (heap s))%nat ->
  forall j0 i v ev c ch,
    0 <= i + 1 <= j0 -> j0 + Z.of_nat n <= Z.of_nat (length v) ->
    let r := spec_scan high p (seqZ j0 (Z.of_nat n)) i v in
    scan arr high p (seqZ j0 (Z.of_nat n)) i (after s arr v ev c ch)
    = Some (r.1.2, after s arr r.2 (ev ++ r.1.1) c ch).
Proof.
  intros Harr. induction n as [|n IH]; intros j0 i v ev c ch Hi Hn.
  - simpl. unfold ret. now rewrite app_nil_r.
  - rewrite seqZ_cons by lia.
    replace (Z.pred (Z.of_nat (S n))) with (Z.of_nat n) by lia.
    cbn [scan spec_scan]. unfold bind at 1.
    rewrite after_saveStep by exact Harr.
    destruct (lookupZ_is_Some v j0) as [aj Haj]; [lia|].
    unfold bind at 1. rewrite (after_get _ _ _ _ _ _ _ _ Harr Haj).
    unfold lt_at. rewrite Haj. unfold bind at 1.
    destruct (SFltb aj p).
    + unfold bind at 1. rewrite after_swap by (exact Harr || lia).
      unfold bind at 1. rewrite after_saveStep by exact Harr.
      unfold ret at 1.
      rewrite IH by (rewrite ?swap_list_length; lia).
      cbn [fst snd]. now rewrite <- !app_assoc.
    + unfold ret at 1. rewrite IH by lia.
      cbn [fst snd]. now rewrite <- !app_assoc.
Qed.

Lemma drawn_range s low high :
  low <= high -> low <= drawn rnd s low high <= high.
Proof.
  intros H. unfold drawn.
  pose proof (floor_scaled_range (rnd (calls s)) (high - low + 1)). lia.
Qed.

(** [randomizedPartition] computes what [spec_partition] describes. *)
Lemma after_partition s arr low high v ev c ch :
  (arr < length (heap s))%nat ->
  0 <= low -> low < high -> high < Z.of_nat (length v) ->
  let r := drawn rnd (after s arr v ev c ch) low high in
  let p := spec_partition v low high r in
  randomizedPartition rnd arr low high (after s arr v ev c ch)
  = Some (p.1.2, after s arr p.2 (ev ++ p.1.1) (c + 1) (ch ++ [r])).
Proof.
  intros Harr Hlow Hlt Hhigh r p.
  assert (Hr : low <= r <= high) by (apply drawn_range; lia).
  unfold randomizedPartition. unfold bind at 1. unfold random_below.
  fold (drawn rnd (after s arr v ev c ch) low high). fold r.
  unfold bind at 1. unfold note_choice.
  replace (set_chosen _ _) with (after s arr v ev (c + 1) (ch ++ [r])).
  2:{ unfold after, set_chosen, set_calls. simpl. f_equal; [lia|].
      now rewrite app_assoc. }
  unfold bind at 1. rewrite after_saveStep by exact Harr.
  unfold bind at 1. rewrite after_swap by (exact Harr || lia).
  set (v1 := swap_list v r high).
  assert (Hl1 : length v1 = length v) by apply swap_list_length.
  destruct (lookupZ_is_Some v1 high) as [pv Hpv]; [lia|].
  unfold bind at 1. rewrite (after_get _ _ _ _ _ _ _ _ Harr Hpv).
  unfold bind at 1.
  replace (high - low) with (Z.of_nat (Z.to_nat (high - low))) by lia.
  rewrite after_scan by (exact Harr || lia).
  replace (Z.of_nat (Z.to_nat (high - low))) with (high - low) by lia.
  set (sc := spec_scan high pv (seqZ low (high - low)) (low - 1) v1).
  pose proof (spec_scan_bounds high pv (seqZ low (high - low)) (low - 1) v1) as B.
  pose proof (spec_scan_length high pv (seqZ low (high - low)) (low - 1) v1) as L.
  fold sc in B, L. simpl in B. rewrite length_seqZ in B.
  unfold bind at 1. rewrite after_swap by (exact Harr || lia).
  unfold bind at 1. rewrite after_saveStep by exact Harr.
  unfold ret. subst p. unfold spec_partition. fold v1. rewrite Hpv. simpl.
  fold sc. now rewrite <- !app_assoc.
Qed.

End Refinement.

(** ** What the scan and the partition establish *)

Lemma spec_scan_perm high p js :
  forall i v, let r := spec_scan high p js i v in
    Permutation r.2 v /\ Forall (fun sn => Permutation sn.1 v) r.1.1.
Proof.
  induction js as [|j js IH]; intros i v; simpl.
  - split; [reflexivity|constructor].
  - destruct (lt_at v j p); simpl.
    + destruct (IH (i + 1) (swap_list v (i + 1) j)) as [H1 H2].
      pose proof (swap_list_perm v (i + 1) j) as Hs.
      split; [now rewrite H1|].
      constructor; [reflexivity|]. constructor; [exact Hs|].
      eapply Forall_impl; [exact H2|]. simpl. intros sn Hsn. now rewrite Hsn.
    + destruct (IH i v) as [H1 H2].
      split; [exact H1|]. constructor; [reflexivity|exact H2].
Qed.

Lemma spec_scan_range_all P low high hi p n :
  forall j0 i v,
    low <= i + 1 <= j0 -> j0 + Z.of_nat n <= hi + 1 ->
    range_all P v low hi ->
    range_all P (spec_scan high p (seqZ j0 (Z.of_nat n)) i v).2 low hi.
Proof.
  induction n as [|n IH]; intros j0 i v Hi Hn H.
  - exact H.
  - rewrite seqZ_cons by lia.
    replace (Z.pred (Z.of_nat (S n))) with (Z.of_nat n) by lia.
    cbn [spec_scan]. destruct (lt_at v j0 p); cbn [snd].
    + apply IH; [lia|lia|]. apply range_all_swap; [lia|lia|exact H].
    + apply IH; [lia|lia|exact H].
Qed.

(** The invariant of the loop: the elements of [low .. i] are smaller than
    the pivot, those of [i + 1 .. j - 1] are not, and nothing outside the
    scanned indices has moved. *)
Lemma spec_scan_inv low high p n :
  forall j0 i v,
    let r := spec_scan high p (seqZ j0 (Z.of_nat n)) i v in
    0 <= low -> low <= i + 1 <= j0 -> j0 + Z.of_nat n <= Z.of_nat (length v) ->
    (forall k x, low <= k <= i -> lookupZ v k = Some x -> SFltb x p = true) ->
    (forall k x, i < k < j0 -> lookupZ v k = Some x -> SFltb x p = false) ->
    (forall k x, low <= k <= r.1.2 -> lookupZ r.2 k = Some x -> SFltb x p = true) /\
    (forall k x, r.1.2 < k < j0 + Z.of_nat n -> lookupZ r.2 k = Some x -> SFltb x p = false) /\
    (forall k, k < low \/ j0 + Z.of_nat n <= k -> lookupZ r.2 k = lookupZ v k).
Proof.
  induction n as [|n IH]; intros j0 i v r Hlow Hi Hn Hsmall Hlarge.
  - subst r. simpl. repeat split; intros.
    + eapply Hsmall; eauto.
    + eapply Hlarge; eauto. lia.
  - subst r. rewrite seqZ_cons by lia.
    replace (Z.pred (Z.of_nat (S n))) with (Z.of_nat n) by lia.
    cbn [spec_scan]. unfold lt_at.
    destruct (lookupZ_is_Some v j0) as [aj Haj]; [lia|]. rewrite Haj.
    destruct (SFltb aj p) eqn:Hcmp; cbn [fst snd].
    + assert (Hsw : forall k, lookupZ (swap_list v (i + 1) j0) k =
                 if k =? j0 then lookupZ v (i + 1)
                 else if k =? i + 1 then lookupZ v j0 else lookupZ v k)
        by (intros k; apply lookupZ_swap; lia).
      destruct (IH (Z.succ j0) (i + 1) (swap_list v (i + 1) j0)) as (A & B & C).
      * exact Hlow.
      * lia.
      * rewrite swap_list_length. lia.
      * intros k x Hk. rewrite Hsw.
        destruct (Z.eqb_spec k j0) as [->|].
        { replace (i + 1) with j0 by lia. congruence. }
        destruct (Z.eqb_spec k (i + 1)); [congruence|].
        apply Hsmall. lia.
      * intros k x Hk. rewrite Hsw.
        destruct (Z.eqb_spec k j0) as [->|]; [apply Hlarge; lia|].
        destruct (Z.eqb_spec k (i + 1)); [lia|].
        apply Hlarge. lia.
      * repeat split.
        { exact A. }
        { intros k x Hk. apply B. lia. }
        { intros k Hk. rewrite C by lia. rewrite Hsw.
          destruct (Z.eqb_spec k j0); [lia|].
          destruct (Z.eqb_spec k (i + 1)); [lia|reflexivity]. }
    + destruct (IH (Z.succ j0) i v) as (A & B & C).
      * exact Hlow.
      * lia.
      * lia.
      * exact Hsmall.
      * intros k x Hk Hx.
        destruct (Z.eq_dec k j0) as [->|]; [congruence|].
        apply (Hlarge k x); [lia|exact Hx].
      * repeat split.
        { exact A. }
        { intros k x Hk. apply B. lia. }
        { intros k Hk. apply C. lia. }
Qed.

(** The comparison made at index [j] reads the element that was at [j]
    when the scan started: the highlights of the scan are determined by
    the array the scan starts from. *)
Lemma spec_scan_highlights high p v0 n :
  forall j0 i v,
    0 <= i + 1 <= j0 -> j0 + Z.of_nat n <= Z.of_nat (length v) ->
    (forall k, j0 <= k -> lookupZ v k = lookupZ v0 k) ->
    map snd (spec_scan high p (seqZ j0 (Z.of_nat n)) i v).1.1
    = flat_map (fun j => hl_compare high j ::
                         if lt_at v0 j p then [hl_pivot high] else [])
               (seqZ j0 (Z.of_nat n)).
Proof.
  induction n as [|n IH]; intros j0 i v Hi Hn Hsame.
  - reflexivity.
  - rewrite seqZ_cons by lia.
    replace (Z.pred (Z.of_nat (S n))) with (Z.of_nat n) by lia.
    cbn [spec_scan flat_map].
    assert (Hj : lt_at v j0 p = lt_at v0 j0 p)
      by (unfold lt_at; rewrite Hsame by lia; reflexivity).
    rewrite <- Hj. destruct (lt_at v j0 p); cbn [fst snd map app].
    + do 2 f_equal. apply IH; [lia|rewrite swap_list_length; lia|].
      intros k Hk. rewrite lookupZ_swap by lia.
      destruct (Z.eqb_spec k j0); [lia|].
      destruct (Z.eqb_spec k (i + 1)); [lia|]. apply Hsame. lia.
    + f_equal. apply IH; [lia|lia|]. intros k Hk. apply Hsame. lia.
Qed.

(** The partition: the pivot lands at the returned index, smaller elements
    before it, the others after it, and nothing outside [low .. high]
    moves. *)
Lemma spec_partition_inv v low high r pv :
  0 <= low -> low <= high -> high < Z.of_nat (length v) -> low <= r <= high ->
  lookupZ v r = Some pv ->
  let p := spec_partition v low high r in
  lookupZ p.2 p.1.2 = Some pv /\
  (forall k x, low <= k < p.1.2 -> lookupZ p.2 k = Some x -> SFltb x pv = true) /\
  (forall k x, p.1.2 < k <= high -> lookupZ p.2 k = Some x -> SFltb x pv = false) /\
  (forall k, k < low \/ high < k -> lookupZ p.2 k = lookupZ v k).
Proof.
  intros Hlow Hlh Hhigh Hr Hpv p. subst p. unfold spec_partition.
  set (v1 := swap_list v r high).
  assert (Hl1 : length v1 = length v) by apply swap_list_length.
  assert (Hv1 : forall k, lookupZ v1 k =
            if k =? high then lookupZ v r
            else if k =? r then lookupZ v high else lookupZ v k)
    by (intros k; apply lookupZ_swap; lia).
  assert (Hp1 : lookupZ v1 high = Some pv) by (rewrite Hv1, Z.eqb_refl; exact Hpv).
  rewrite Hp1. change (default S754_nan (Some pv)) with pv.
  set (sc := spec_scan high pv (seqZ low (high - low)) (low - 1) v1).
  pose proof (spec_scan_bounds high pv (seqZ low (high - low)) (low - 1) v1) as B.
  pose proof (spec_scan_length high pv (seqZ low (high - low)) (low - 1) v1) as L.
  pose proof (spec_scan_inv low high pv (Z.to_nat (high - low)) low (low - 1) v1) as I.
  replace (Z.of_nat (Z.to_nat (high - low))) with (high - low) in I by lia.
  fold sc in B, L, I. simpl in B. rewrite length_seqZ in B.
  destruct I as (A & C & D); [lia|lia|lia|intros; lia|intros; lia|].
  cbn [fst snd].
  assert (Hv3 : forall k, lookupZ (swap_list sc.2 (sc.1.2 + 1) high) k =
            if k =? high then lookupZ sc.2 (sc.1.2 + 1)
            else if k =? sc.1.2 + 1 then lookupZ sc.2 high else lookupZ sc.2 k)
    by (intros k; apply lookupZ_swap; lia).
  assert (Hhi : lookupZ sc.2 high = Some pv) by (rewrite D by lia; exact Hp1).
  repeat split.
  - rewrite Hv3. destruct (Z.eqb_spec (sc.1.2 + 1) high) as [E|E].
    + rewrite E. exact Hhi.
    + rewrite Z.eqb_refl. exact Hhi.
  - intros k x Hk. rewrite Hv3.
    destruct (Z.eqb_spec k high); [lia|].
    destruct (Z.eqb_spec k (sc.1.2 + 1)); [lia|].
    apply A. lia.
  - intros k x Hk. rewrite Hv3.
    destruct (Z.eqb_spec k high) as [->|]; [apply C; lia|].
    destruct (Z.eqb_spec k (sc.1.2 + 1)); [lia|].
    apply C. lia.
  - intros k Hk. rewrite Hv3.
    destruct (Z.eqb_spec k high); [lia|].
    destruct (Z.eqb_spec k (sc.1.2 + 1)); [lia|].
    rewrite D by lia. rewrite Hv1.
    destruct (Z.eqb_spec k high); [lia|].
    destruct (Z.eqb_spec k r); [lia|reflexivity].
Qed.

Lemma spec_partition_perm v low high r :
  let p := spec_partition v low high r in
  Permutation p.2 v /\ Forall (fun sn => Permutation sn.1 v) p.1.1.
Proof.
  unfold spec_partition. cbn [fst snd].
  set (v1 := swap_list v r high).
  set (pv := default S754_nan (lookupZ v1 high)).
  destruct (spec_scan_perm high pv (seqZ low (high - low)) (low - 1) v1) as [H1 H2].
  pose proof (swap_list_perm v r high) as Hs. fold v1 in Hs.
  assert (H3 : Permutation
     (swap_list (spec_scan high pv (seqZ low (high - low)) (low - 1) v1).2
        ((spec_scan high pv (seqZ low (high - low)) (low - 1) v1).1.2 + 1) high) v)
    by (rewrite swap_list_perm, H1; exact Hs).
  split; [exact H3|].
  constructor; [reflexivity|]. apply Forall_app. split.
  - eapply Forall_impl; [exact H2|]. simpl. intros sn Hsn. now rewrite Hsn.
  - constructor; [exact H3|constructor].
Qed.

Lemma spec_partition_range_all P v low high r :
  low <= high -> low <= r <= high ->
  range_all P v low high ->
  range_all P (spec_partition v low high r).2 low high.
Proof.
  intros Hlh Hr H. unfold spec_partition. cbn [snd].
  set (v1 := swap_list v r high).
  set (pv := default S754_nan (lookupZ v1 high)).
  pose proof (spec_scan_bounds high pv (seqZ low (high - low)) (low - 1) v1) as B.
  simpl in B. rewrite length_seqZ in B.
  apply range_all_swap; [lia|lia|].
  pose proof (spec_scan_range_all P low high high pv (Z.to_nat (high - low))
                low (low - 1) v1) as R.
  replace (Z.of_nat (Z.to_nat (high - low))) with (high - low) in R by lia.
  apply R; [lia|lia|]. apply range_all_swap; [lia|lia|exact H].
Qed.

(** The first snapshot of a partition shows the pivot chosen, the last one
    the array the partition leaves, without highlight. *)
Lemma spec_partition_events v low high r :
  let p := spec_partition v low high r in
  exists mid, p.1.1 = (v, hl_pivot r) :: mid ++ [(p.2, hl_none)].
Proof. unfold spec_partition. cbn [fst snd]. eauto. Qed.

(** ** What the quicksort establishes *)

Lemma sq_length v low high cs ev v' :
  spec_quicksort v low high cs ev v' -> length v' = length v.
Proof.
  induction 1 as [v low high Hle|v low high r cl cr evl evr v2 v3 Hlt Hr p _ IH1 _ IH2].
  - reflexivity.
  - rewrite IH2, IH1. apply spec_partition_length.
Qed.

Lemma sq_perm v low high cs ev v' :
  spec_quicksort v low high cs ev v' ->
  Permutation v' v /\ Forall (fun sn => Permutation sn.1 v) ev.
Proof.
  induction 1 as [v low high Hle|v low high r cl cr evl evr v2 v3 Hlt Hr p _ [P1 F1] _ [P2 F2]].
  - split; [reflexivity|constructor].
  - destruct (spec_partition_perm v low high r) as [P0 F0]. fold p in P0, F0.
    split; [now rewrite P2, P1|].
    repeat (apply Forall_app; split).
    + exact F0.
    + eapply Forall_impl; [exact F1|]. simpl. intros sn Hsn. now rewrite Hsn.
    + eapply Forall_impl; [exact F2|]. simpl. intros sn Hsn.
      now rewrite Hsn, P1.
Qed.

Lemma sq_outside v low high cs ev v' :
  spec_quicksort v low high cs ev v' ->
  0 <= low -> high < Z.of_nat (length v) ->
  forall k, k < low \/ high < k -> lookupZ v' k = lookupZ v k.
Proof.
  induction 1 as [v low high Hle|v low high r cl cr evl evr v2 v3 Hlt Hr p H1 IH1 H2 IH2];
    intros Hlow Hhigh k Hk.
  - reflexivity.
  - pose proof (spec_partition_bounds v low high r ltac:(lia)) as B. fold p in B.
    pose proof (spec_partition_length v low high r) as L. fold p in L.
    pose proof (sq_length _ _ _ _ _ _ H1) as L1.
    destruct (lookupZ_is_Some v r ltac:(lia)) as [pv Hpv].
    destruct (spec_partition_inv v low high r pv) as (_ & _ & _ & O);
      [lia|lia|lia|lia|exact Hpv|]. fold p in O.
    rewrite IH2 by lia. rewrite IH1 by lia. apply O. lia.
Qed.

Lemma sq_range_all P v low high cs ev v' :
  spec_quicksort v low high cs ev v' ->
  0 <= low -> high < Z.of_nat (length v) ->
  range_all P v low high -> range_all P v' low high.
Proof.
  induction 1 as [v low high Hle|v low high r cl cr evl evr v2 v3 Hlt Hr p H1 IH1 H2 IH2];
    intros Hlow Hhigh H.
  - exact H.
  - pose proof (spec_partition_bounds v low high r ltac:(lia)) as B. fold p in B.
    pose proof (spec_partition_length v low high r) as L. fold p in L.
    pose proof (sq_length _ _ _ _ _ _ H1) as L1.
    pose proof (spec_partition_range_all P v low high r ltac:(lia) Hr H) as R0.
    fold p in R0.
    assert (R1 : range_all P v2 low high).
    { intros k x Hk Hx.
      destruct (Z.le_gt_cases k (p.1.2 - 1)).
      - apply (IH1 ltac:(lia) ltac:(lia)) with (k := k); [|lia|exact Hx].
        intros k' x' Hk' Hx'. apply (R0 k' x'); [lia|exact Hx'].
      - rewrite (sq_outside _ _ _ _ _ _ H1) in Hx by lia.
        apply (R0 k x); [lia|exact Hx]. }
    intros k x Hk Hx.
    destruct (Z.le_gt_cases (p.1.2 + 1) k).
    + apply (IH2 ltac:(lia) ltac:(lia)) with (k := k); [|lia|exact Hx].
      intros k' x' Hk' Hx'. apply (R1 k' x'); [lia|exact Hx'].
    + rewrite (sq_outside _ _ _ _ _ _ H2) in Hx by lia.
      apply (R1 k x); [lia|exact Hx].
Qed.

Lemma sq_sorted v low high cs ev v' :
  spec_quicksort v low high cs ev v' ->
  0 <= low -> high < Z.of_nat (length v) ->
  range_all (fun x => isNaN x = false) v low high ->
  sorted_range v' low high.
Proof.
  induction 1 as [v low high Hle|v low high r cl cr evl evr v2 v3 Hlt Hr p H1 IH1 H2 IH2];
    intros Hlow Hhigh Hnan.
  - intros i j x y Hi Hij Hj. lia.
  - pose proof (spec_partition_bounds v low high r ltac:(lia)) as B. fold p in B.
    pose proof (spec_partition_length v low high r) as L. fold p in L.
    pose proof (sq_length _ _ _ _ _ _ H1) as L1.
    destruct (lookupZ_is_Some v r ltac:(lia)) as [pv Hpv].
    destruct (spec_partition_inv v low high r pv) as (Hpiv & Hsmall & Hlarge & _);
      [lia|lia|lia|lia|exact Hpv|]. fold p in Hpiv, Hsmall, Hlarge.
    assert (N3 : range_all (fun x => isNaN x = false) v3 low high).
    { apply (sq_range_all _ _ _ _ _ _ _
               (sq_step _ _ _ _ _ _ _ _ _ _ Hlt Hr H1 H2)); [lia|lia|exact Hnan]. }
    assert (N0 : range_all (fun x => isNaN x = false) p.2 low high)
      by (apply spec_partition_range_all; [lia|exact Hr|exact Hnan]).
    assert (N2 : range_all (fun x => isNaN x = false) v2 (p.1.2 + 1) high).
    { intros k x Hk Hx. rewrite (sq_outside _ _ _ _ _ _ H1) in Hx by lia.
      apply (N0 k x); [lia|exact Hx]. }
    (* the elements the left call leaves in its subrange are smaller than the pivot *)
    assert (S2 : range_all (fun x => SFltb x pv = true) v2 low (p.1.2 - 1)).
    { eapply sq_range_all; [exact H1|lia|lia|].
      intros k x Hk Hx. apply (Hsmall k x); [lia|exact Hx]. }
    (* those the right call leaves in its subrange are not *)
    assert (G3 : range_all (fun x => SFltb x pv = false) v3 (p.1.2 + 1) high).
    { eapply sq_range_all; [exact H2|lia|lia|].
      intros k x Hk Hx. rewrite (sq_outside _ _ _ _ _ _ H1) in Hx by lia.
      apply (Hlarge k x); [lia|exact Hx]. }
    assert (O3 : forall k, k < p.1.2 + 1 -> lookupZ v3 k = lookupZ v2 k)
      by (intros k Hk; apply (sq_outside _ _ _ _ _ _ H2); lia).
    assert (P3 : lookupZ v3 p.1.2 = Some pv).
    { rewrite O3 by lia. rewrite (sq_outside _ _ _ _ _ _ H1) by lia. exact Hpiv. }
    specialize (IH1 ltac:(lia) ltac:(lia)).
    specialize (IH2 ltac:(lia) ltac:(lia) N2).
    intros i j x y Hi Hij Hj Hx Hy.
    destruct (Z.lt_trichotomy j p.1.2) as [Hjp|[Hjp|Hjp]].
    + (* both on the left *)
      rewrite O3 in Hx, Hy by lia.
      apply (IH1 ltac:(intros k z Hk Hz; apply (N0 k z); [lia|exact Hz])
               i j x y); (lia || assumption).
    + (* left of the pivot, and the pivot *)
      subst j. rewrite P3 in Hy. injection Hy as <-.
      rewrite O3 in Hx by lia. apply SFltb_le.
      apply (S2 i x); [lia|exact Hx].
    + destruct (Z.lt_trichotomy i p.1.2) as [Hip|[Hip|Hip]].
      * (* one on each side *)
        rewrite O3 in Hx by lia.
        pose proof (S2 i x ltac:(lia) Hx) as Hxp.
        pose proof (G3 j y ltac:(lia) Hy) as Hyp.
        apply lt_le_trans with (p := pv); [exact Hxp|].
        apply not_lt_le; [apply (SFltb_not_nan _ _ Hxp)| |exact Hyp].
        apply (N3 j y); [lia|exact Hy].
      * (* the pivot, and right of it *)
        subst i. rewrite P3 in Hx. injection Hx as <-.
        apply not_lt_le.
        -- apply (N3 p.1.2 pv); [lia|exact P3].
        -- apply (N3 j y); [lia|exact Hy].
        -- apply (G3 j y); [lia|exact Hy].
      * (* both on the right *)
        apply (IH2 i j x y); (lia || assumption).
Qed.

Lemma lookupZ_cons_succ (a : number) t k :
  0 <= k -> lookupZ (a :: t) (k + 1) = lookupZ t k.
Proof.
  intros Hk. unfold lookupZ.
  destruct (Z.ltb_spec (k + 1) 0); [lia|]. destruct (Z.ltb_spec k 0); [lia|].
  replace (Z.to_nat (k + 1)) with (S (Z.to_nat k)) by lia. reflexivity.
Qed.

Lemma lookupZ_of_nat (v : list number) n : lookupZ v (Z.of_nat n) = v !! n.
Proof.
  unfold lookupZ. destruct (Z.ltb_spec (Z.of_nat n) 0); [lia|].
  now rewrite Nat2Z.id.
Qed.

(** A whole array in non-descending order, pair by pair. *)
Lemma sorted_range_StronglySorted v :
  sorted_range v 0 (Z.of_nat (length v) - 1) -> StronglySorted num_le v.
Proof.
  induction v as [|a t IH]; intros H; constructor.
  - apply IH. intros i j x y Hi Hij Hj Hx Hy.
    apply (H (i + 1) (j + 1) x y); try lia.
    + simpl length in *. lia.
    + rewrite lookupZ_cons_succ by lia. exact Hx.
    + rewrite lookupZ_cons_succ by lia. exact Hy.
  - apply List.Forall_forall. intros y Hy.
    apply list_elem_of_In, list_elem_of_lookup in Hy as [n Hn].
    pose proof (lookup_lt_Some _ _ _ Hn) as Hlt.
    apply (H 0 (Z.of_nat n + 1) a y); try lia.
    + simpl length. lia.
    + reflexivity.
    + rewrite lookupZ_cons_succ by lia. now rewrite lookupZ_of_nat.
Qed.

(** The last snapshot of a sort shows the array the sort leaves. *)
Lemma sq_last v low high cs ev v' :
  spec_quicksort v low high cs ev v' ->
  (ev = [] /\ v' = v) \/ (exists ev0, ev = ev0 ++ [(v', hl_none)]).
Proof.
  induction 1 as [v low high Hle|v low high r cl cr evl evr v2 v3 Hlt Hr p H1 IH1 H2 IH2].
  - left. split; reflexivity.
  - right. destruct IH2 as [[-> ->]|[ev0 ->]].
    + destruct IH1 as [[-> ->]|[ev0 ->]].
      * destruct (spec_partition_events v low high r) as [mid Hmid].
        fold p in Hmid. rewrite Hmid, !app_nil_r.
        exists ((v, hl_pivot r) :: mid). reflexivity.
      * exists (p.1.1 ++ ev0). now rewrite app_nil_r, app_assoc.
    + exists (p.1.1 ++ evl ++ ev0). now rewrite !app_assoc.
Qed.

Lemma sq_nonempty v low high cs ev v' :
  spec_quicksort v low high cs ev v' -> low < high -> ev <> [].
Proof.
  induction 1 as [v low high Hle|v low high r cl cr evl evr v2 v3 Hlt Hr p H1 IH1 H2 IH2];
    intros Hlh.
  - lia.
  - destruct (spec_partition_events v low high r) as [mid Hmid].
    fold p in Hmid. rewrite Hmid. discriminate.
Qed.

Lemma sq_empty v low high cs ev v' :
  spec_quicksort v low high cs ev v' -> high <= low -> cs = [] /\ ev = [] /\ v' = v.
Proof. destruct 1; [auto|lia]. Qed.

(** The snapshots and the result of a sort are determined by the array and
    the pivot choices, read from the front of a longer list of choices. *)
Lemma sq_deterministic v low high cs1 ev1 v1 :
  spec_quicksort v low high cs1 ev1 v1 ->
  forall cs2 ev2 v2 rest1 rest2,
    spec_quicksort v low high cs2 ev2 v2 ->
    cs1 ++ rest1 = cs2 ++ rest2 ->
    cs1 = cs2 /\ ev1 = ev2 /\ v1 = v2.
Proof.
  induction 1 as [v low high Hle|v low high r cl cr evl evr va vb Hlt Hr p H1 IH1 H2 IH2];
    intros cs2 ev2 v2 rest1 rest2 Hq Heq.
  - destruct (sq_empty _ _ _ _ _ _ Hq Hle) as (-> & -> & ->). auto.
  - inversion Hq as [? ? ? Hle|? ? ? r' cl' cr' evl' evr' va' vb' _ _ p' H1' H2']; subst.
    + lia.
    + simpl in Heq. injection Heq as <- Heq. subst p'. fold p in H1', H2'.
      rewrite <- !app_assoc in Heq.
      destruct (IH1 _ _ _ _ _ H1' Heq) as (<- & <- & <-).
      apply app_inv_head in Heq.
      destruct (IH2 _ _ _ _ _ H2' Heq) as (<- & <- & <-).
      auto.
Qed.

(** ** The run of the sorter *)

Section Run.

Variable rnd : nat -> unit_interval.

(** The recursion equation of [randomizedQuickSort], as the source has it. *)
Lemma randomizedQuickSort_eq arr low high s :
  randomizedQuickSort rnd arr low high s =
  if low <? high then
    match randomizedPartition rnd arr low high s with
    | None => None
    | Some (pi, s1) =>
        match randomizedQuickSort rnd arr low (pi - 1) s1 with
        | None => None
        | Some (_, s2) => randomizedQuickSort rnd arr (pi + 1) high s2
        end
    end
  else Some (tt, s).
Proof.
  rewrite randomizedQuickSort_equation_1.
  generalize (inspect (low <? high)). intros [[] Hb].
  - rewrite randomizedQuickSort_clause_1_equation_1.
    generalize (inspect (randomizedPartition rnd arr low high s)).
    intros [[[pi s1]|] Hp].
    + rewrite randomizedQuickSort_clause_1_clause_2_equation_1.
      generalize (inspect (randomizedQuickSort rnd arr low (pi - 1) s1)).
      intros [[[[] s2]|] Hl].
      * rewrite randomizedQuickSort_clause_1_clause_2_clause_2_equation_1.
        rewrite Hb, Hp, Hl. reflexivity.
      * rewrite randomizedQuickSort_clause_1_clause_2_clause_2_equation_2.
        rewrite Hb, Hp, Hl. reflexivity.
    + rewrite randomizedQuickSort_clause_1_clause_2_equation_2.
      rewrite Hb, Hp. reflexivity.
  - rewrite randomizedQuickSort_clause_1_equation_2. rewrite Hb. reflexivity.
Qed.

(** [randomizedQuickSort] returns, and does what [spec_quicksort]
    describes, on every subrange that lies inside the array. *)
Lemma after_quicksort s arr :
  (arr < length (heap s))%nat ->
  forall n low high v ev c ch,
    (Z.to_nat (high - low) <= n)%nat ->
    0 <= low -> high < Z.of_nat (length v) ->
    exists cs ev' v',
      randomizedQuickSort rnd arr low high (after s arr v ev c ch)
      = Some (tt, after s arr v' (ev ++ ev') (c + length cs) (ch ++ cs))
      /\ spec_quicksort v low high cs ev' v'.
Proof.
  intros Harr. induction n as [|n IH]; intros low high v ev c ch Hn Hlow Hhigh;
    rewrite randomizedQuickSort_eq; destruct (Z.ltb_spec low high) as [Hlt|Hge];
    try lia.
  - exists [], [], v. rewrite !app_nil_r, Nat.add_0_r.
    split; [reflexivity|now constructor].
  - rewrite after_partition by (exact Harr || lia).
    set (r := drawn rnd (after s arr v ev c ch) low high).
    assert (Hr : low <= r <= high) by (apply drawn_range; lia).
    set (p := spec_partition v low high r).
    pose proof (spec_partition_bounds v low high r ltac:(lia)) as B. fold p in B.
    pose proof (spec_partition_length v low high r) as L. fold p in L.
    destruct (IH low (p.1.2 - 1) p.2 (ev ++ p.1.1) (c + 1)%nat (ch ++ [r]))
      as (cl & evl & v2 & El & Sl); [lia|lia|lia|].
    rewrite El.
    pose proof (sq_length _ _ _ _ _ _ Sl) as L2.
    destruct (IH (p.1.2 + 1) high v2 ((ev ++ p.1.1) ++ evl)
                 (c + 1 + length cl)%nat ((ch ++ [r]) ++ cl))
      as (cr & evr & v3 & Er & Sr); [lia|lia|lia|].
    rewrite Er.
    exists (r :: cl ++ cr), (p.1.1 ++ evl ++ evr), v3. split.
    + do 2 f_equal. rewrite <- !app_assoc. simpl. rewrite length_app.
      f_equal. lia.
    + exact (sq_step _ _ _ _ _ _ _ _ _ _ Hlt Hr Sl Sr).
  - exists [], [], v. rewrite !app_nil_r, Nat.add_0_r.
    split; [reflexivity|now constructor].
Qed.

Lemma saveStep_run a h s v :
  heap s !! a = Some v ->
  saveStep a h s
  = Some (tt, set_steps (steps s ++ [Step.mk (length (heap s)) h])
                (set_heap (heap s ++ [v]) s)).
Proof. intros H. unfold saveStep, bind, load. now rewrite H. Qed.

Lemma sort_and_record_run s0 input :
  heap s0 !! array s0 = Some input -> steps s0 = [] ->
  exists cs ev v',
    sort_and_record rnd s0 = Some (Rendered 0, recorded s0 input v' ev cs)
    /\ spec_quicksort input 0 (Z.of_nat (length input) - 1) cs ev v'.
Proof.
  intros Hin Hsteps.
  pose proof (lookup_lt_Some _ _ _ Hin) as Hlt.
  unfold sort_and_record. unfold bind at 1. unfold bind at 1.
  rewrite (saveStep_run _ _ _ _ Hin). rewrite Hsteps. cbn [app].
  unfold bind at 1.
  set (s1 := set_steps _ _).
  assert (H1 : heap s1 !! array s0 = Some input)
    by (simpl; rewrite lookup_app_l by exact Hlt; exact Hin).
  unfold load at 1. rewrite H1.
  unfold bind at 1. unfold alloc at 1.
  set (B := set_heap _ s1).
  set (work := length (heap s1)).
  assert (Hw : work = S (length (heap s0)))
    by (subst work s1; simpl; rewrite length_app; simpl; lia).
  assert (HB : heap B = heap s0 ++ [input; input])
    by (subst B s1; simpl; now rewrite <- app_assoc).
  assert (HwB : heap B !! work = Some input).
  { rewrite HB, Hw. rewrite lookup_app_r by lia.
    replace (S (length (heap s0)) - length (heap s0))%nat with 1%nat by lia.
    reflexivity. }
  assert (HwL : (work < length (heap B))%nat) by (eapply lookup_lt_Some; exact HwB).
  destruct (after_quicksort B work HwL (Z.to_nat (Z.of_nat (length input) - 1 - 0))
              0 (Z.of_nat (length input) - 1) input [] 0%nat [])
    as (cs & ev & v' & Eq & Sq); [lia|lia|lia|].
  rewrite (after_init B work input HwB) in Eq.
  unfold bind at 1. rewrite Eq. cbn [app Nat.add].
  exists cs, ev, v'. split; [|exact Sq].
  set (A := after B work v' ev (length cs) cs).
  assert (HA : heap A = heap s0 ++ [input; v'] ++ map fst ev).
  { subst A. unfold after. cbn [heap]. rewrite HB, Hw.
    replace (S (length (heap s0))) with (length (heap s0) + 1)%nat by lia.
    rewrite insert_app_r. simpl. now rewrite <- app_assoc. }
  assert (HsA : steps A = Step.mk (length (heap s0)) hl_none
                           :: fresh_steps (length (heap s0) + 2) ev).
  { subst A. unfold after. cbn [steps]. rewrite HB, length_app.
    subst B s1. cbn [steps set_heap set_steps length]. reflexivity. }
  assert (Hlast : exists st, last (steps A) = Some st
                             /\ heap A !! Step.array st = Some v').
  { rewrite HsA, HA. destruct (sq_last _ _ _ _ _ _ Sq) as [[-> ->]|[ev0 ->]].
    - eexists. split; [reflexivity|]. simpl.
      rewrite lookup_app_r by lia. now rewrite Nat.sub_diag.
    - rewrite fresh_steps_app. simpl fresh_steps.
      eexists. split.
      + rewrite app_comm_cons. apply last_snoc.
      + simpl. rewrite lookup_app_r by lia.
        replace (length (heap s0) + 2 + length ev0 - length (heap s0))%nat
          with (2 + length ev0)%nat by lia.
        simpl. rewrite map_app. rewrite lookup_app_r by (rewrite length_map; lia).
        rewrite length_map, Nat.sub_diag. reflexivity. }
  destruct Hlast as (st & Hst & Hv).
  unfold bind at 1. unfold last_step at 1. rewrite Hst.
  unfold bind at 1. rewrite (saveStep_run _ _ _ _ Hv).
  unfold ret. do 2 f_equal.
  unfold recorded, set_steps, set_heap. cbn [heap steps array currentStep calls chosen].
  rewrite HsA, HA. subst A B s1. simpl. f_equal.
  - now rewrite <- !app_assoc.
  - do 4 f_equal. rewrite length_app. simpl. rewrite length_map. lia.
Qed.

End Run.

Lemma trace_recorded s0 input v' ev cs :
  trace (recorded s0 input v' ev cs)
  = (Some input, hl_none) :: map seen ev ++ [(Some v', hl_sorted)].
Proof.
  unfold trace, recorded. cbn [heap steps map]. f_equal.
  - unfold view. cbn [Step.array Step.highlight]. f_equal.
    rewrite lookup_app_r by lia. now rewrite Nat.sub_diag.
  - rewrite map_app. f_equal.
    + pose proof (fresh_steps_view (heap s0 ++ [input; v']) 0 ev [v']) as H.
      rewrite length_app, Nat.add_0_r, drop_0, <- app_assoc in H. exact H.
    + cbn [map]. unfold view. cbn [Step.array Step.highlight]. do 2 f_equal.
      replace (heap s0 ++ [input; v'] ++ map fst ev ++ [v'])
        with ((heap s0 ++ [input; v'] ++ map fst ev) ++ [v'])
        by (now rewrite <- !app_assoc).
      apply list_lookup_middle. rewrite !length_app, length_map. simpl. lia.
Qed.

Lemma recorded_refs s0 input v' ev cs :
  map Step.array (steps (recorded s0 input v' ev cs))
  = length (heap s0) :: seq (length (heap s0) + 2) (length ev)
    ++ [(length (heap s0) + 2 + length ev)%nat].
Proof.
  unfold recorded. cbn [steps map]. f_equal. rewrite map_app. f_equal.
  generalize (length (heap s0) + 2)%nat as b.
  induction ev as [|sn ev IH]; intros b; simpl; [reflexivity|].
  f_equal. apply IH.
Qed.

Section Top.

Variable rnd : nat -> unit_interval.

Lemma generated_S c n :
  generated rnd c (S n)
  = number_of_Z (floor_scaled (rnd c) 100 + 1) :: generated rnd (S c) n.
Proof.
  unfold generated. cbn [seq map]. rewrite Nat.add_0_r. f_equal.
  rewrite <- seq_shift, map_map. apply map_ext. intros k.
  now replace (c + S k)%nat with (S c + k)%nat by lia.
Qed.

Lemma fill_random_run a n :
  forall s v, heap s !! a = Some v ->
    fill_random rnd a n s
    = Some (tt, set_calls (calls s + n)
                  (set_heap (<[a := v ++ generated rnd (calls s) n]> (heap s)) s)).
Proof.
  induction n as [|n IH]; intros s v H.
  - simpl. unfold ret. do 2 f_equal. destruct s as [h ar st cu c ch].
    unfold set_calls, set_heap, generated. simpl in *.
    rewrite app_nil_r, list_insert_id by exact H. now rewrite Nat.add_0_r.
  - cbn [fill_random]. unfold bind at 1. unfold random_below.
    unfold bind at 1. unfold push, bind, load.
    cbn [heap set_calls]. rewrite H. unfold store. cbn [heap set_calls]. rewrite H.
    rewrite (IH _ (v ++ [number_of_Z (floor_scaled (rnd (calls s)) 100 + 1)])).
    2:{ cbn [heap set_heap]. apply list_lookup_insert_eq.
        eapply lookup_lt_Some. exact H. }
    do 2 f_equal. unfold set_calls, set_heap.
    cbn [heap array steps currentStep calls chosen].
    rewrite list_insert_insert_eq, generated_S, <- app_assoc.
    f_equal. lia.
Qed.

Lemma input_not_nan input s :
  accepted input = true ->
  Forall (fun x => isNaN x = false) (input_of rnd input s).
Proof.
  destruct input as [numbers|]; unfold input_of, accepted; intros H.
  - apply negb_true_iff in H. apply List.Forall_forall. intros x Hx.
    destruct (isNaN x) eqn:E; [|reflexivity].
    assert (existsb isNaN numbers = true)
      by (apply existsb_exists; eauto).
    congruence.
  - apply List.Forall_forall. intros x Hx.
    apply in_map_iff in Hx as (k & <- & _).
    apply number_of_Z_not_nan.
    pose proof (floor_scaled_range (rnd (calls s + k)) 100). lia.
Qed.

(** An accepted input is recorded and sorted: the run of [generateArray]
    returns, in the state [recorded] describes. *)
Lemma generateArray_run input s :
  accepted input = true ->
  exists cs ev v',
    generateArray rnd input s
    = Some (Rendered 0,
            recorded (prepared rnd input s) (input_of rnd input s) v' ev cs)
    /\ spec_quicksort (input_of rnd input s) 0
         (Z.of_nat (length (input_of rnd input s)) - 1) cs ev v'.
Proof.
  intros Hacc.
  destruct (sort_and_record_run rnd (prepared rnd input s) (input_of rnd input s))
    as (cs & ev & v' & E & Sq).
  { unfold prepared. cbn [heap array]. rewrite lookup_app_r by lia.
    now rewrite Nat.sub_diag. }
  { reflexivity. }
  exists cs, ev, v'. split; [|exact Sq]. rewrite <- E.
  unfold generateArray. unfold bind at 1. unfold bind at 1.
  destruct input as [numbers|].
  - unfold bind at 1. unfold alloc at 1. unfold bind at 1. unfold load at 1.
    cbn [heap set_heap set_steps set_currentStep length].
    rewrite lookup_app_r by lia. rewrite Nat.sub_diag. cbn [lookup list_lookup].
    simpl in Hacc. apply negb_true_iff in Hacc. rewrite Hacc.
    unfold bind at 1. f_equal.
    unfold prepared, set_array, set_heap, set_currentStep, set_steps. simpl.
    now rewrite Nat.add_0_r.
  - unfold bind at 1. unfold alloc at 1. unfold bind at 1. unfold bind at 1.
    rewrite (fill_random_run _ _ _ []).
    2:{ cbn [heap set_array set_heap set_steps set_currentStep].
        rewrite lookup_app_r by lia. now rewrite Nat.sub_diag. }
    f_equal.
    unfold prepared, set_calls, set_array, set_heap, set_currentStep, set_steps.
    cbn [heap array steps currentStep calls chosen input_of app].
    f_equal.
    replace (length (heap s)) with (length (heap s) + 0)%nat at 1 by lia.
    rewrite insert_app_r. reflexivity.
Qed.

(** An input with a NaN entry is refused before anything is recorded. *)
Lemma generateArray_alert numbers s :
  existsb isNaN numbers = true ->
  generateArray rnd (Some numbers) s
  = Some (Alerted "Enter valid numbers separated by commas.",
          mkState (heap s ++ [numbers]) (array s) [] 0 (calls s) (chosen s)).
Proof.
  intros H. unfold generateArray. unfold bind at 1. unfold bind at 1.
  unfold bind at 1. unfold alloc at 1. unfold bind at 1. unfold load at 1.
  cbn [heap set_heap set_steps set_currentStep length].
  rewrite lookup_app_r by lia. rewrite Nat.sub_diag. cbn [lookup list_lookup].
  rewrite H. reflexivity.
Qed.

End Top.

(** ** The scenarios of the specification, run on the embedding *)

(** Scenario 1: the empty array. *)
Example scenario_empty :
  exists s',
    generateArray always_half (Some []) initial = Some (Rendered 0, s')
    /\ trace s' = [(Some [], hl_none); (Some [], hl_sorted)].
Proof. eexists. split; vm_compute; reflexivity. Qed.

(** Scenario 2: one element. *)
Example scenario_single :
  exists s',
    generateArray always_half (Some [number_of_Z 5]) initial = Some (Rendered 0, s')
    /\ trace s' = [(Some [number_of_Z 5], hl_none);
                   (Some [number_of_Z 5], hl_sorted)].
Proof. eexists. split; vm_compute; reflexivity. Qed.

(** Scenario 3: [3, 1, 2], the pivot being each time the middle of the
    subrange: the first partition moves 1 to the front, the second one
    keeps 2 and 3 in place. *)
Example scenario_312 :
  exists s',
    generateArray always_half (Some three_one_two) initial = Some (Rendered 0, s')
    /\ map snd (trace s')
       = [hl_none;
          hl_pivot 1; hl_compare 2 0; hl_compare 2 1; hl_none;
          hl_pivot 2; hl_compare 2 1; hl_pivot 2; hl_none;
          hl_sorted]
    /\ last (trace s')
       = Some (Some [number_of_Z 1; number_of_Z 2; number_of_Z 3], hl_sorted).
Proof.
  eexists. split; [vm_compute; reflexivity|].
  split; vm_compute; reflexivity.
Qed.

(** Scenario 4: duplicates only; no comparison succeeds, no exchange is
    recorded. *)
Example scenario_222 :
  exists s',
    generateArray always_half (Some twos) initial = Some (Rendered 0, s')
    /\ map snd (trace s')
       = [hl_none;
          hl_pivot 1; hl_compare 2 0; hl_compare 2 1; hl_none;
          hl_pivot 2; hl_compare 2 1; hl_none;
          hl_sorted]
    /\ last (trace s') = Some (Some twos, hl_sorted).
Proof.
  eexists. split; [vm_compute; reflexivity|].
  split; vm_compute; reflexivity.
Qed.

(** The partition of [3, 1, 2] when [Math.random] returns
    0.6666666666666666: [randomIndex] is 2, the pivot is the value 2 and
    the index returned is 1. *)
Example scenario_two_thirds :
  exists s',
    randomizedPartition always_two_thirds 0%nat 0 2 sorting_312 = Some (1, s')
    /\ drawn always_two_thirds sorting_312 0 2 = 2
    /\ trace s'
       = [(Some three_one_two, hl_pivot 2);
          (Some three_one_two, hl_compare 2 0);
          (Some three_one_two, hl_compare 2 1);
          (Some [number_of_Z 1; number_of_Z 3; number_of_Z 2], hl_pivot 2);
          (Some [number_of_Z 1; number_of_Z 2; number_of_Z 3], hl_none)].
Proof.
  eexists. split; [vm_compute; reflexivity|].
  split; vm_compute; reflexivity.
Qed.

(** With an empty input box and [Math.random] returning 0.03 the array is
    ten times the value 4. *)
Example scenario_three_hundredths :
  input_of (fun _ => three_hundredths) None initial = repeat (number_of_Z 4) 10.
Proof. vm_compute. reflexivity. Qed.

(** The runs on [3, 1, 2] of two sources that differ, from two states that
    differ, choose the same pivot indices. *)
Lemma half_and_five_eighths_choose_alike :
  exists s1 s2,
    generateArray always_half (Some three_one_two) initial = Some (Rendered 0, s1)
    /\ generateArray always_five_eighths (Some three_one_two) sorting_312
       = Some (Rendered 0, s2)
    /\ chosen s1 = [1; 2]
    /\ chosen s2 = [1; 2].
Proof.
  eexists. eexists. split; [vm_compute; reflexivity|].
  split; [vm_compute; reflexivity|].
  split; vm_compute; reflexivity.
Qed.

(** ** The properties of the specification *)

(** C1. For every accepted input (empty, or with duplicates, too) the run
    of [generateArray] returns; the last snapshot of the trace it leaves
    has [sorted = true] as highlight, and its values are a permutation of
    the input in non-descending order. *)
Theorem final_snapshot_sorted rnd input s :
  accepted input = true ->
  exists s' vals hl,
    generateArray rnd input s = Some (Rendered 0, s')
    /\ last (trace s') = Some (Some vals, hl)
    /\ sorted hl = Some true
    /\ Permutation vals (input_of rnd input s)
    /\ StronglySorted num_le vals.
Proof.
  intros Hacc.
  destruct (generateArray_run rnd input s Hacc) as (cs & ev & v' & E & Sq).
  eexists. exists v', hl_sorted. split; [exact E|].
  rewrite trace_recorded. split; [|split; [reflexivity|split]].
  - rewrite app_comm_cons. apply last_snoc.
  - apply (sq_perm _ _ _ _ _ _ Sq).
  - apply sorted_range_StronglySorted.
    rewrite (sq_length _ _ _ _ _ _ Sq).
    apply (sq_sorted _ _ _ _ _ _ Sq); [lia|lia|].
    intros k x Hk Hx. pose proof (input_not_nan rnd input s Hacc) as Hn.
    rewrite List.Forall_forall in Hn. apply Hn.
    unfold lookupZ in Hx. destruct (k <? 0); [discriminate|].
    apply list_elem_of_In. eapply list_elem_of_lookup_2. exact Hx.
Qed.

Lemma final_snapshot_sorted_witness :
  accepted (Some three_one_two) = true /\
  exists s' vals hl,
    generateArray always_half (Some three_one_two) initial = Some (Rendered 0, s')
    /\ last (trace s') = Some (Some vals, hl)
    /\ sorted hl = Some true
    /\ Permutation vals (input_of always_half (Some three_one_two) initial)
    /\ StronglySorted num_le vals.
Proof.
  split; [reflexivity|].
  apply (final_snapshot_sorted always_half (Some three_one_two) initial).
  reflexivity.
Defined.

(** C2, as stated, fails: the array [[Infinity]] has a non-finite entry,
    and [generateArray] does not refuse it but records two snapshots. *)
Lemma infinity_is_accepted :
  existsb not_finite [S754_infinity false] = true
  /\ (exists s',
        generateArray always_half (Some [S754_infinity false]) initial
        = Some (Rendered 0, s')
        /\ trace s' = [(Some [S754_infinity false], hl_none);
                       (Some [S754_infinity false], hl_sorted)])
  /\ ~ refuses always_half [S754_infinity false] initial.
Proof.
  split; [reflexivity|]. split.
  - eexists. split; vm_compute; reflexivity.
  - intros (message & s' & E & _). vm_compute in E. discriminate E.
Qed.

(** C2, amended. For every input array with at least one NaN entry (what
    a non-numeric text is read as), [generateArray] alerts and returns
    before any snapshot is recorded: [steps] is empty, and so is the
    trace. *)
Theorem nan_input_refused rnd numbers s :
  existsb isNaN numbers = true -> refuses rnd numbers s.
Proof.
  intros H. unfold refuses. rewrite (generateArray_alert rnd numbers s H).
  eexists. eexists. split; [reflexivity|]. split; reflexivity.
Qed.

Lemma nan_input_refused_witness :
  existsb isNaN [number_of_Z 1; S754_nan] = true /\
  refuses always_half [number_of_Z 1; S754_nan] initial.
Proof.
  split; [reflexivity|].
  apply (nan_input_refused always_half [number_of_Z 1; S754_nan] initial).
  reflexivity.
Defined.

(** C3. A call of [randomizedPartition] on [low .. high] with [low < high]
    appends, in this order: one snapshot of the array as it was, with
    [pivot = randomIndex]; the snapshots [spec_scan] lists, whose
    highlights are, for each [j] from [low] to [high - 1], [pivot = high,
    compare = j], followed exactly when [arr[j] < pivotValue] by
    [pivot = high]; and one snapshot without highlight of the array after
    the pivot has been exchanged into position [i + 1], the index
    returned. *)
Theorem partition_snapshot_order rnd arr low high s v :
  heap s !! arr = Some v -> refs_ok arr s ->
  0 <= low -> low < high -> high < Z.of_nat (length v) ->
  let randomIndex := drawn rnd s low high in
  let v1 := swap_list v randomIndex high in
  let pivotValue := default S754_nan (lookupZ v1 high) in
  let sc := spec_scan high pivotValue (seqZ low (high - low)) (low - 1) v1 in
  let i := sc.1.2 in
  let v3 := swap_list sc.2 (i + 1) high in
  exists s',
    randomizedPartition rnd arr low high s = Some (i + 1, s')
    /\ heap s' !! arr = Some v3
    /\ trace s' = trace s ++ (Some v, hl_pivot randomIndex)
                          :: map seen sc.1.1 ++ [(Some v3, hl_none)]
    /\ map snd sc.1.1
       = flat_map (fun j => hl_compare high j ::
                            if lt_at v1 j pivotValue then [hl_pivot high] else [])
                  (seqZ low (high - low))
    /\ low <= randomIndex <= high.
Proof.
  intros Hv Hrefs Hlow Hlt Hhigh randomIndex v1 pivotValue sc i v3.
  pose proof (lookup_lt_Some _ _ _ Hv) as Harr.
  pose proof (after_partition rnd s arr low high v [] 0%nat [] Harr Hlow Hlt Hhigh) as E.
  rewrite (after_init s arr v Hv) in E. cbn zeta in E.
  fold randomIndex in E. unfold spec_partition in E. cbn [fst snd] in E.
  fold v1 pivotValue sc i v3 in E. cbn [app] in E.
  eexists. split; [exact E|]. split; [|split; [|split]].
  - now apply after_heap_arr.
  - rewrite trace_after by assumption. cbn [map]. now rewrite map_app.
  - pose proof (spec_scan_highlights high pivotValue v1 (Z.to_nat (high - low))
                  low (low - 1) v1) as H.
    replace (Z.of_nat (Z.to_nat (high - low))) with (high - low) in H by lia.
    apply H; [lia| |reflexivity].
    unfold v1. rewrite swap_list_length. lia.
  - apply drawn_range. lia.
Qed.

Lemma partition_snapshot_order_witness :
  heap sorting_312 !! 0%nat = Some three_one_two
  /\ refs_ok 0 sorting_312
  /\ 0 <= 0 /\ 0 < 2 /\ 2 < Z.of_nat (length three_one_two)
  /\ exists s',
       randomizedPartition always_two_thirds 0%nat 0 2 sorting_312 = Some (1, s')
       /\ map snd (trace s')
          = [hl_pivot 2; hl_compare 2 0; hl_compare 2 1; hl_pivot 2; hl_none].
Proof.
  assert (H1 : heap sorting_312 !! 0%nat = Some three_one_two) by reflexivity.
  assert (H2 : refs_ok 0 sorting_312) by constructor.
  assert (H3 : 0 <= 0) by lia.
  assert (H4 : 0 < 2) by lia.
  assert (H5 : 2 < Z.of_nat (length three_one_two)) by (simpl; lia).
  repeat (split; [assumption|]).
  destruct (partition_snapshot_order always_two_thirds 0%nat 0 2 sorting_312 three_one_two
              H1 H2 H3 H4 H5) as (s' & E & _ & T & _).
  exists s'. split; [exact E|]. rewrite T. reflexivity.
Defined.

(** C4. The trace of an accepted input of length [n] has exactly two
    snapshots when [n <= 1] and more than two when [n >= 2]. *)
Theorem trace_length rnd input s :
  accepted input = true ->
  exists s',
    generateArray rnd input s = Some (Rendered 0, s')
    /\ ((length (input_of rnd input s) <= 1)%nat -> length (trace s') = 2%nat)
    /\ ((2 <= length (input_of rnd input s))%nat -> (2 < length (trace s'))%nat).
Proof.
  intros Hacc.
  destruct (generateArray_run rnd input s Hacc) as (cs & ev & v' & E & Sq).
  eexists. split; [exact E|]. rewrite trace_recorded.
  cbn [length]. rewrite length_app, length_map. cbn [length]. split; intros Hn.
  - destruct (sq_empty _ _ _ _ _ _ Sq ltac:(lia)) as (_ & -> & _). reflexivity.
  - pose proof (sq_nonempty _ _ _ _ _ _ Sq ltac:(lia)) as Hne.
    destruct ev; [congruence|]. simpl. lia.
Qed.

Lemma trace_length_witness :
  accepted (Some three_one_two) = true /\
  exists s',
    generateArray thirds (Some three_one_two) initial = Some (Rendered 0, s')
    /\ ((length (input_of thirds (Some three_one_two) initial) <= 1)%nat ->
        length (trace s') = 2%nat)
    /\ ((2 <= length (input_of thirds (Some three_one_two) initial))%nat ->
        (2 < length (trace s'))%nat).
Proof.
  split; [reflexivity|].
  apply (trace_length thirds (Some three_one_two) initial). reflexivity.
Defined.

(** C5. The first snapshot of the trace of an accepted input holds the
    input itself, element by element, and the empty highlight. *)
Theorem first_snapshot_is_input rnd input s :
  accepted input = true ->
  exists s',
    generateArray rnd input s = Some (Rendered 0, s')
    /\ head (trace s') = Some (Some (input_of rnd input s), hl_none).
Proof.
  intros Hacc.
  destruct (generateArray_run rnd input s Hacc) as (cs & ev & v' & E & Sq).
  eexists. split; [exact E|]. now rewrite trace_recorded.
Qed.

Lemma first_snapshot_is_input_witness :
  accepted (Some three_one_two) = true /\
  exists s',
    generateArray thirds (Some three_one_two) initial = Some (Rendered 0, s')
    /\ head (trace s') = Some (Some three_one_two, hl_none).
Proof.
  split; [reflexivity|].
  apply (first_snapshot_is_input thirds (Some three_one_two) initial). reflexivity.
Defined.

(** C6. The comparison of the scan is strict.  An iteration whose
    [arr[j]] is equal to the pivot records the snapshot of the comparison
    and nothing else: no exchange, no second snapshot, [i] unchanged.  And
    when the partition returns, every element of [low .. high] equal to the
    pivot is at the returned index or to its right, the elements to the
    left being smaller than the pivot. *)
Theorem equal_to_pivot_not_swapped rnd arr low high s v :
  heap s !! arr = Some v ->
  0 <= low -> low < high -> high < Z.of_nat (length v) ->
  (forall hi pivot j js i aj,
      lookupZ v j = Some aj -> SFeqb aj pivot = true ->
      scan arr hi pivot (j :: js) i s
      = (saveStep arr (hl_compare hi j) ;; scan arr hi pivot js i) s)
  /\ exists pi s' v' pivot,
       randomizedPartition rnd arr low high s = Some (pi, s')
       /\ heap s' !! arr = Some v'
       /\ lookupZ v (drawn rnd s low high) = Some pivot
       /\ lookupZ v' pi = Some pivot
       /\ (forall k x, low <= k < pi -> lookupZ v' k = Some x -> SFltb x pivot = true)
       /\ (forall k x, low <= k <= high -> lookupZ v' k = Some x ->
                       SFeqb x pivot = true -> pi <= k).
Proof.
  intros Hv Hlow Hlt Hhigh.
  pose proof (lookup_lt_Some _ _ _ Hv) as Harr. split.
  - intros hi pivot j js i aj Haj Heq.
    pose proof (saveStep_run arr (hl_compare hi j) s v Hv) as Es.
    set (s1 := set_steps _ _) in Es.
    assert (Hv1 : heap s1 !! arr = Some v)
      by (subst s1; simpl; rewrite lookup_app_l by exact Harr; exact Hv).
    transitivity (scan arr hi pivot js i s1).
    + cbn [scan]. unfold bind at 1. rewrite Es.
      unfold bind at 1. unfold get, bind, load. rewrite Hv1, Haj.
      unfold ret at 1. rewrite (SFeqb_not_lt _ _ Heq). reflexivity.
    + unfold bind. rewrite Es. reflexivity.
  - pose proof (after_partition rnd s arr low high v [] 0%nat [] Harr Hlow Hlt Hhigh) as E.
    rewrite (after_init s arr v Hv) in E. cbn zeta in E.
    set (r := drawn rnd s low high) in *.
    assert (Hr : low <= r <= high) by (apply drawn_range; lia).
    destruct (lookupZ_is_Some v r ltac:(lia)) as [pv Hpv].
    destruct (spec_partition_inv v low high r pv) as (Hpiv & Hsmall & _ & _);
      [lia|lia|lia|lia|exact Hpv|].
    eexists. eexists. eexists. exists pv.
    split; [exact E|]. split; [now apply after_heap_arr|].
    split; [exact Hpv|]. split; [exact Hpiv|]. split; [exact Hsmall|].
    intros k x Hk Hx Heq.
    destruct (Z.le_gt_cases (spec_partition v low high r).1.2 k) as [|Hlt']; [assumption|].
    pose proof (Hsmall k x ltac:(lia) Hx) as Hc.
    rewrite (SFeqb_not_lt _ _ Heq) in Hc. discriminate.
Qed.

Lemma equal_to_pivot_not_swapped_witness :
  heap sorting_222 !! 0%nat = Some twos
  /\ 0 <= 0 /\ 0 < 2 /\ 2 < Z.of_nat (length twos)
  /\ scan 0%nat 2 (number_of_Z 2) [0; 1] (-1) sorting_222
     = (saveStep 0%nat (hl_compare 2 0) ;; scan 0%nat 2 (number_of_Z 2) [1] (-1))
         sorting_222
  /\ exists pi s' v' pivot,
       randomizedPartition always_half 0%nat 0 2 sorting_222 = Some (pi, s')
       /\ heap s' !! 0%nat = Some v'
       /\ lookupZ v' pi = Some pivot
       /\ (forall k x, 0 <= k <= 2 -> lookupZ v' k = Some x ->
                       SFeqb x pivot = true -> pi <= k).
Proof.
  assert (H1 : heap sorting_222 !! 0%nat = Some twos) by reflexivity.
  assert (H2 : 0 <= 0) by lia.
  assert (H3 : 0 < 2) by lia.
  assert (H4 : 2 < Z.of_nat (length twos)) by (simpl; lia).
  repeat (split; [assumption|]).
  destruct (equal_to_pivot_not_swapped always_half 0%nat 0 2 sorting_222 twos
              H1 H2 H3 H4) as (A & pi & s' & v' & pivot & E & Hh & _ & Hp & _ & R).
  split.
  - apply (A 2 (number_of_Z 2) 0 [1] (-1) (number_of_Z 2)); reflexivity.
  - exists pi, s', v', pivot. repeat (split; [assumption|]). exact R.
Defined.

(** C7. On every subrange inside the array, and whatever [Math.random]
    returns, [randomizedQuickSort] returns; and when [low < high] the
    index [randomizedPartition] returns lies in [low .. high], so that
    both subranges of the recursive calls are strictly shorter. *)
Theorem quicksort_terminates rnd arr low high s v :
  heap s !! arr = Some v ->
  0 <= low -> high < Z.of_nat (length v) ->
  (exists s', randomizedQuickSort rnd arr low high s = Some (tt, s'))
  /\ (low < high ->
      exists pi s1,
        randomizedPartition rnd arr low high s = Some (pi, s1)
        /\ low <= pi <= high
        /\ (pi - 1) - low < high - low
        /\ high - (pi + 1) < high - low).
Proof.
  intros Hv Hlow Hhigh.
  pose proof (lookup_lt_Some _ _ _ Hv) as Harr. split.
  - destruct (after_quicksort rnd s arr Harr (Z.to_nat (high - low)) low high v
                [] 0%nat []) as (cs & ev & v' & E & _); [lia|lia|lia|].
    rewrite (after_init s arr v Hv) in E. eauto.
  - intros Hlt.
    pose proof (after_partition rnd s arr low high v [] 0%nat [] Harr Hlow Hlt Hhigh) as E.
    rewrite (after_init s arr v Hv) in E. cbn zeta in E.
    pose proof (spec_partition_bounds v low high (drawn rnd s low high) ltac:(lia)) as B.
    eexists. eexists. split; [exact E|]. lia.
Qed.

Lemma quicksort_terminates_witness :
  heap sorting_312 !! 0%nat = Some three_one_two
  /\ 0 <= 0 /\ 2 < Z.of_nat (length three_one_two)
  /\ (exists s', randomizedQuickSort thirds 0%nat 0 2 sorting_312 = Some (tt, s'))
  /\ (0 < 2 ->
      exists pi s1,
        randomizedPartition thirds 0%nat 0 2 sorting_312 = Some (pi, s1)
        /\ 0 <= pi <= 2
        /\ (pi - 1) - 0 < 2 - 0
        /\ 2 - (pi + 1) < 2 - 0).
Proof.
  assert (H1 : heap sorting_312 !! 0%nat = Some three_one_two) by reflexivity.
  assert (H2 : 0 <= 0) by lia.
  assert (H3 : 2 < Z.of_nat (length three_one_two)) by (simpl; lia).
  repeat (split; [assumption|]).
  exact (quicksort_terminates thirds 0%nat 0 2 sorting_312 three_one_two H1 H2 H3).
Defined.

(** Overwriting an array object that no step refers to leaves the trace
    as it is. *)
Lemma trace_store a w s s'' :
  ~ In a (map Step.array (steps s)) ->
  store a w s = Some (tt, s'') ->
  trace s'' = trace s.
Proof.
  intros Hnot E. unfold store in E.
  destruct (heap s !! a); [|discriminate]. injection E as <-.
  unfold trace. cbn [heap steps set_heap]. apply map_ext_in.
  intros st Hst. unfold view. f_equal.
  apply list_lookup_insert_ne. intros ->.
  apply Hnot. now apply in_map.
Qed.

(** C8. A snapshot is a copy of its own.  [saveStep] stores the elements
    of the array in a fresh object, which no later assignment to another
    object changes; while the sort exchanges elements of the live array,
    the snapshots recorded before stay as they were; and after
    [generateArray] has returned, the steps refer to pairwise distinct
    objects, none of them the array [array], so that overwriting [array]
    (or any object other than those of the steps) changes no snapshot. *)
Theorem snapshots_are_copies rnd :
  (forall arr hl s v,
      heap s !! arr = Some v ->
      exists s' copy,
        saveStep arr hl s = Some (tt, s')
        /\ steps s' = steps s ++ [Step.mk copy hl]
        /\ heap s !! copy = None
        /\ heap s' !! copy = Some v
        /\ heap s' !! arr = Some v
        /\ forall a w s'', a <> copy -> store a w s' = Some (tt, s'') ->
                           heap s'' !! copy = Some v)
  /\ (forall arr low high s v,
         heap s !! arr = Some v -> refs_ok arr s ->
         0 <= low -> high < Z.of_nat (length v) ->
         exists s' new,
           randomizedQuickSort rnd arr low high s = Some (tt, s')
           /\ trace s' = trace s ++ new
           /\ refs_ok arr s')
  /\ (forall input s,
         accepted input = true ->
         exists s',
           generateArray rnd input s = Some (Rendered 0, s')
           /\ NoDup (map Step.array (steps s'))
           /\ ~ In (array s') (map Step.array (steps s'))
           /\ heap s' !! array s' = Some (input_of rnd input s)
           /\ (forall w, exists s'',
                  store (array s') w s' = Some (tt, s'') /\ trace s'' = trace s')
           /\ (forall a w s'',
                  ~ In a (map Step.array (steps s')) ->
                  store a w s' = Some (tt, s'') -> trace s'' = trace s')).
Proof.
  split; [|split].
  - intros arr hl s v Hv. pose proof (lookup_lt_Some _ _ _ Hv) as Harr.
    eexists. exists (length (heap s)).
    split; [apply (saveStep_run _ _ _ _ Hv)|].
    cbn [heap steps set_heap set_steps].
    split; [reflexivity|]. split; [apply lookup_ge_None; lia|].
    split; [now apply list_lookup_middle|].
    split; [rewrite lookup_app_l by exact Harr; exact Hv|].
    intros a w s'' Hne E. unfold store in E.
    cbn [heap set_heap set_steps] in E.
    destruct ((heap s ++ [v]) !! a); [|discriminate]. injection E as <-.
    cbn [heap set_heap]. rewrite list_lookup_insert_ne by exact Hne.
    now apply list_lookup_middle.
  - intros arr low high s v Hv Hrefs Hlow Hhigh.
    pose proof (lookup_lt_Some _ _ _ Hv) as Harr.
    destruct (after_quicksort rnd s arr Harr (Z.to_nat (high - low)) low high v
                [] 0%nat []) as (cs & ev & v' & E & _); [lia|lia|lia|].
    rewrite (after_init s arr v Hv) in E.
    eexists. exists (map seen ev). split; [exact E|].
    split; [now apply trace_after|now apply refs_ok_after].
  - intros input s Hacc.
    destruct (generateArray_run rnd input s Hacc) as (cs & ev & v' & E & Sq).
    eexists. split; [exact E|].
    set (F := recorded _ _ _ _ _).
    assert (Hrefs : map Step.array (steps F)
                    = S (length (heap s)) :: seq (length (heap s) + 3) (S (length ev))).
    { subst F. rewrite recorded_refs. unfold prepared. cbn [heap].
      rewrite length_app. cbn [length]. rewrite seq_S.
      replace (length (heap s) + 1 + 2)%nat with (length (heap s) + 3)%nat by lia.
      replace (length (heap s) + 1)%nat with (S (length (heap s))) by lia.
      reflexivity. }
    assert (Harray : array F = length (heap s)) by reflexivity.
    assert (Hnot : ~ In (array F) (map Step.array (steps F))).
    { rewrite Hrefs, Harray. intros [H|H]; [lia|]. apply in_seq in H. lia. }
    assert (Hin : heap F !! array F = Some (input_of rnd input s)).
    { rewrite Harray. subst F. unfold recorded, prepared. cbn [heap].
      rewrite <- app_assoc. now apply list_lookup_middle. }
    split; [|split; [exact Hnot|split; [exact Hin|split]]].
    + rewrite Hrefs. constructor.
      * intros H. apply elem_of_seq in H. lia.
      * apply NoDup_seq.
    + intros w. unfold store. rewrite Hin. eexists. split; [reflexivity|].
      apply (trace_store (array F) w F); [exact Hnot|].
      unfold store. now rewrite Hin.
    + intros a w s'' Ha Es. now apply (trace_store a w F).
Qed.

Lemma snapshots_are_copies_witness :
  accepted (Some three_one_two) = true
  /\ exists s',
       generateArray thirds (Some three_one_two) initial = Some (Rendered 0, s')
       /\ NoDup (map Step.array (steps s'))
       /\ ~ In (array s') (map Step.array (steps s'))
       /\ forall w, exists s'',
            store (array s') w s' = Some (tt, s'') /\ trace s'' = trace s'.
Proof.
  assert (H : accepted (Some three_one_two) = true) by reflexivity.
  split; [exact H|].
  destruct (proj2 (proj2 (snapshots_are_copies thirds)) (Some three_one_two) initial H)
    as (s' & E & N & A & _ & W & _).
  exists s'. repeat (split; [assumption|]). exact W.
Defined.

(** C9. Two runs on the same input array, whatever the two sources of
    random numbers, that choose the same sequence of pivot indices leave
    the same trace: the same snapshots, values and highlights, in the same
    order. *)
Theorem same_choices_same_trace rnd1 rnd2 input1 input2 s1 s2 :
  accepted input1 = true -> accepted input2 = true ->
  input_of rnd1 input1 s1 = input_of rnd2 input2 s2 ->
  exists s1' s2' cs1 cs2,
    generateArray rnd1 input1 s1 = Some (Rendered 0, s1')
    /\ generateArray rnd2 input2 s2 = Some (Rendered 0, s2')
    /\ chosen s1' = chosen s1 ++ cs1
    /\ chosen s2' = chosen s2 ++ cs2
    /\ (cs1 = cs2 -> trace s1' = trace s2').
Proof.
  intros Hacc1 Hacc2 Hin.
  destruct (generateArray_run rnd1 input1 s1 Hacc1) as (cs1 & ev1 & v1 & E1 & Sq1).
  destruct (generateArray_run rnd2 input2 s2 Hacc2) as (cs2 & ev2 & v2 & E2 & Sq2).
  eexists. eexists. exists cs1, cs2.
  split; [exact E1|]. split; [exact E2|].
  split; [reflexivity|]. split; [reflexivity|].
  intros Hcs. rewrite !trace_recorded. rewrite <- Hin in Sq2 |- *.
  destruct (sq_deterministic _ _ _ _ _ _ Sq1 cs2 ev2 v2 [] [] Sq2) as (_ & <- & <-).
  - now rewrite Hcs.
  - reflexivity.
Qed.

Lemma same_choices_same_trace_witness :
  accepted (Some three_one_two) = true
  /\ input_of always_half (Some three_one_two) initial
     = input_of always_five_eighths (Some three_one_two) sorting_312
  /\ exists s1' s2' cs,
       generateArray always_half (Some three_one_two) initial = Some (Rendered 0, s1')
       /\ generateArray always_five_eighths (Some three_one_two) sorting_312
          = Some (Rendered 0, s2')
       /\ chosen s1' = chosen initial ++ cs
       /\ chosen s2' = chosen sorting_312 ++ cs
       /\ cs = [1; 2]
       /\ trace s1' = trace s2'.
Proof.
  assert (H : accepted (Some three_one_two) = true) by reflexivity.
  assert (I : input_of always_half (Some three_one_two) initial
              = input_of always_five_eighths (Some three_one_two) sorting_312)
    by reflexivity.
  split; [exact H|]. split; [exact I|].
  destruct (same_choices_same_trace always_half always_five_eighths
              (Some three_one_two) (Some three_one_two) initial sorting_312 H H I)
    as (s1' & s2' & cs1 & cs2 & E1 & E2 & C1 & C2 & T).
  destruct half_and_five_eighths_choose_alike as (t1 & t2 & F1 & F2 & D1 & D2).
  assert (S1 : s1' = t1) by congruence.
  assert (S2 : s2' = t2) by congruence.
  rewrite S1, D1 in C1. rewrite S2, D2 in C2.
  change (chosen initial ++ cs1) with cs1 in C1.
  change (chosen sorting_312 ++ cs2) with cs2 in C2.
  exists s1', s2', [1; 2].
  split; [exact E1|]. split; [exact E2|].
  split; [rewrite S1; exact D1|]. split; [rewrite S2; exact D2|].
  split; [reflexivity|].
  apply T. now rewrite <- C1, <- C2.
Defined.

(** C10. Every snapshot of the trace of an accepted input, not only the
    last one, holds a permutation of the input, hence as many elements as
    the input. *)
Theorem every_snapshot_permutes_input rnd input s :
  accepted input = true ->
  exists s',
    generateArray rnd input s = Some (Rendered 0, s')
    /\ Forall (fun sn => exists vals,
                 sn.1 = Some vals
                 /\ Permutation vals (input_of rnd input s)
                 /\ length vals = length (input_of rnd input s))
              (trace s').
Proof.
  intros Hacc.
  destruct (generateArray_run rnd input s Hacc) as (cs & ev & v' & E & Sq).
  destruct (sq_perm _ _ _ _ _ _ Sq) as [P F].
  eexists. split; [exact E|]. rewrite trace_recorded.
  constructor; [|apply Forall_app; split].
  - eexists. split; [reflexivity|]. split; reflexivity.
  - rewrite List.Forall_forall in F. apply List.Forall_forall.
    intros sn Hsn. apply in_map_iff in Hsn as (e & <- & He).
    exists e.1. split; [reflexivity|].
    split; [apply (F e He)|apply Permutation_length, (F e He)].
  - constructor; [|constructor].
    exists v'. split; [reflexivity|].
    split; [exact P|apply Permutation_length, P].
Qed.

Lemma every_snapshot_permutes_input_witness :
  accepted None = true
  /\ exists s',
       generateArray thirds None initial = Some (Rendered 0, s')
       /\ Forall (fun sn => exists vals,
                    sn.1 = Some vals
                    /\ Permutation vals (input_of thirds None initial)
                    /\ length vals = length (input_of thirds None initial))
                 (trace s').
Proof.
  split; [reflexivity|].
  apply (every_snapshot_permutes_input thirds None initial). reflexivity.
Defined.

(** * Further properties of the script *)

(** ** The sorter: cost, highlights, postconditions *)

Lemma spec_scan_events_length high p js :
  forall i v, (length (spec_scan high p js i v).1.1 <= 2 * length js)%nat.
Proof.
  induction js as [|j js IH]; intros i v; simpl; [lia|].
  destruct (lt_at v j p); simpl.
  - specialize (IH (i + 1) (swap_list v (i + 1) j)). lia.
  - specialize (IH i v). lia.
Qed.

Lemma spec_partition_events_length v low high r :
  low <= high ->
  Z.of_nat (length (spec_partition v low high r).1.1) <= 2 * (high - low) + 2.
Proof.
  intros H. unfold spec_partition. cbn [fst snd length].
  rewrite length_app. cbn [length].
  pose proof (spec_scan_events_length high
    (default S754_nan (lookupZ (swap_list v r high) high))
    (seqZ low (high - low)) (low - 1) (swap_list v r high)) as B.
  rewrite length_seqZ in B. lia.
Qed.

(** A sort of [d + 1] elements chooses at most [d] pivots and records at
    most [d * (d + 3)] snapshots. *)
Lemma sq_cost v low high cs ev v' :
  spec_quicksort v low high cs ev v' ->
  let d := Z.max 0 (high - low) in
  Z.of_nat (length cs) <= d /\ Z.of_nat (length ev) <= d * (d + 3).
Proof.
  induction 1 as [v low high Hle|v low high r cl cr evl evr v2 v3 Hlt Hr p H1 IH1 H2 IH2].
  - simpl. lia.
  - pose proof (spec_partition_bounds v low high r ltac:(lia)) as B. fold p in B.
    pose proof (spec_partition_events_length v low high r ltac:(lia)) as L. fold p in L.
    cbn zeta in IH1, IH2 |- *.
    destruct IH1 as [C1 E1], IH2 as [C2 E2].
    cbn [length]. rewrite !length_app.
    set (a := Z.max 0 (p.1.2 - 1 - low)) in *.
    set (b := Z.max 0 (high - (p.1.2 + 1))) in *.
    replace (Z.max 0 (high - low)) with (high - low) by lia.
    assert (Ha : 0 <= a) by lia. assert (Hb : 0 <= b) by lia.
    assert (Hab : a + b <= high - low - 1) by lia.
    split; [lia|]. nia.
Qed.

Lemma highlight_within_mono low high low' high' h :
  low' <= low -> high <= high' ->
  highlight_within low high h -> highlight_within low' high' h.
Proof.
  intros H1 H2 [Hp Hc]. split.
  - intros p E. specialize (Hp p E). lia.
  - intros j E. destruct (Hc j E) as (Hj & q & Eq & Hlt).
    split; [lia|]. eauto.
Qed.

Lemma spec_scan_highlight_within low high p n :
  forall j0 i v,
    low <= j0 -> j0 + Z.of_nat n <= high ->
    Forall (sorting_highlight low high)
           (spec_scan high p (seqZ j0 (Z.of_nat n)) i v).1.1.
Proof.
  assert (Hc : forall j v, low <= j < high ->
             sorting_highlight low high (v, hl_compare high j)).
  { intros j v Hj. split; [split|reflexivity]; simpl.
    - intros q [= <-]. lia.
    - intros k [= <-]. split; [lia|]. exists high. split; [reflexivity|lia]. }
  assert (Hp : forall v, low <= high -> sorting_highlight low high (v, hl_pivot high)).
  { intros v Hlh. split; [split|reflexivity]; simpl.
    - intros q [= <-]. lia.
    - discriminate. }
  induction n as [|n IH]; intros j0 i v Hj Hn.
  - constructor.
  - rewrite seqZ_cons by lia.
    replace (Z.pred (Z.of_nat (S n))) with (Z.of_nat n) by lia.
    cbn [spec_scan]. destruct (lt_at v j0 p); cbn [fst snd].
    + constructor; [apply Hc; lia|]. constructor; [apply Hp; lia|].
      apply IH; lia.
    + constructor; [apply Hc; lia|]. apply IH; lia.
Qed.

Lemma spec_partition_highlight_within v low high r :
  low <= r <= high ->
  Forall (sorting_highlight low high) (spec_partition v low high r).1.1.
Proof.
  intros Hr. unfold spec_partition. cbn [fst].
  constructor; [|apply Forall_app; split].
  - split; [split|reflexivity]; simpl.
    + intros q [= <-]. lia.
    + discriminate.
  - pose proof (spec_scan_highlight_within low high
      (default S754_nan (lookupZ (swap_list v r high) high))
      (Z.to_nat (high - low)) low (low - 1) (swap_list v r high)) as H.
    replace (Z.of_nat (Z.to_nat (high - low))) with (high - low) in H by lia.
    apply H; lia.
  - constructor; [|constructor].
    split; [split|reflexivity]; simpl; discriminate.
Qed.

Lemma sq_highlight_within v low high cs ev v' :
  spec_quicksort v low high cs ev v' ->
  Forall (sorting_highlight low high) ev.
Proof.
  induction 1 as [v low high Hle|v low high r cl cr evl evr v2 v3 Hlt Hr p H1 IH1 H2 IH2].
  - constructor.
  - pose proof (spec_partition_bounds v low high r ltac:(lia)) as B. fold p in B.
    repeat (apply Forall_app; split).
    + now apply spec_partition_highlight_within.
    + eapply Forall_impl; [exact IH1|]. intros sn [W S]. split; [|exact S].
      eapply highlight_within_mono; [| |exact W]; lia.
    + eapply Forall_impl; [exact IH2|]. intros sn [W S]. split; [|exact S].
      eapply highlight_within_mono; [| |exact W]; lia.
Qed.

(** During the scan the element at [high] is the pivot, in every snapshot. *)
Lemma spec_scan_pivot_stays high pv n :
  forall j0 i v,
    0 <= i + 1 <= j0 -> j0 + Z.of_nat n <= high -> high < Z.of_nat (length v) ->
    lookupZ v high = Some pv ->
    Forall (fun sn => lookupZ sn.1 high = Some pv)
           (spec_scan high pv (seqZ j0 (Z.of_nat n)) i v).1.1.
Proof.
  induction n as [|n IH]; intros j0 i v Hi Hn Hlen Hv.
  - constructor.
  - rewrite seqZ_cons by lia.
    replace (Z.pred (Z.of_nat (S n))) with (Z.of_nat n) by lia.
    cbn [spec_scan]. destruct (lt_at v j0 pv); cbn [fst snd].
    + assert (Hs : lookupZ (swap_list v (i + 1) j0) high = Some pv).
      { rewrite lookupZ_swap by lia.
        destruct (Z.eqb_spec high j0); [lia|].
        destruct (Z.eqb_spec high (i + 1)); [lia|exact Hv]. }
      constructor; [exact Hv|]. constructor; [exact Hs|].
      apply IH; [lia|lia|rewrite swap_list_length; lia|exact Hs].
    + constructor; [exact Hv|]. apply IH; [lia|lia|lia|exact Hv].
Qed.

(** X1. [randomizedPartition] on a subrange [low .. high] inside the
    array, [low < high]: it draws one random number, returns an index of
    the subrange at which it leaves the chosen pivot, leaves no element
    smaller than the pivot to the right of that index, keeps the elements
    outside the subrange where they were, and only permutes the array. *)
Theorem partition_postcondition rnd arr low high s v :
  heap s !! arr = Some v ->
  0 <= low -> low < high -> high < Z.of_nat (length v) ->
  exists pi s' v' pv,
    randomizedPartition rnd arr low high s = Some (pi, s')
    /\ heap s' !! arr = Some v'
    /\ calls s' = S (calls s)
    /\ low <= pi <= high
    /\ lookupZ v (drawn rnd s low high) = Some pv
    /\ lookupZ v' pi = Some pv
    /\ (forall k x, pi < k <= high -> lookupZ v' k = Some x -> SFltb x pv = false)
    /\ (forall k, k < low \/ high < k -> lookupZ v' k = lookupZ v k)
    /\ Permutation v' v.
Proof.
  intros Hv Hlow Hlt Hhigh.
  pose proof (lookup_lt_Some _ _ _ Hv) as Harr.
  pose proof (after_partition rnd s arr low high v [] 0%nat [] Harr Hlow Hlt Hhigh) as E.
  rewrite (after_init s arr v Hv) in E. cbn zeta in E.
  set (r := drawn rnd s low high) in *.
  assert (Hr : low <= r <= high) by (apply drawn_range; lia).
  destruct (lookupZ_is_Some v r ltac:(lia)) as [pv Hpv].
  destruct (spec_partition_inv v low high r pv) as (Hpiv & _ & Hlarge & Hout);
    [lia|lia|lia|lia|exact Hpv|].
  eexists. eexists. eexists. exists pv.
  split; [exact E|]. split; [now apply after_heap_arr|].
  split; [simpl; lia|].
  split; [apply spec_partition_bounds; lia|].
  split; [exact Hpv|]. split; [exact Hpiv|]. split; [exact Hlarge|].
  split; [exact Hout|]. apply spec_partition_perm.
Qed.

Lemma partition_postcondition_witness :
  heap sorting_312 !! 0%nat = Some three_one_two
  /\ 0 <= 0 /\ 0 < 2 /\ 2 < Z.of_nat (length three_one_two)
  /\ exists pi s' v' pv,
       randomizedPartition always_two_thirds 0%nat 0 2 sorting_312 = Some (pi, s')
       /\ heap s' !! 0%nat = Some v'
       /\ calls s' = S (calls sorting_312)
       /\ 0 <= pi <= 2
       /\ lookupZ three_one_two (drawn always_two_thirds sorting_312 0 2) = Some pv
       /\ lookupZ v' pi = Some pv
       /\ (forall k x, pi < k <= 2 -> lookupZ v' k = Some x -> SFltb x pv = false)
       /\ (forall k, k < 0 \/ 2 < k -> lookupZ v' k = lookupZ three_one_two k)
       /\ Permutation v' three_one_two.
Proof.
  assert (H1 : heap sorting_312 !! 0%nat = Some three_one_two) by reflexivity.
  assert (H2 : 0 <= 0) by lia.
  assert (H3 : 0 < 2) by lia.
  assert (H4 : 2 < Z.of_nat (length three_one_two)) by (simpl; lia).
  repeat (split; [assumption|]).
  exact (partition_postcondition always_two_thirds 0%nat 0 2 sorting_312 three_one_two
           H1 H2 H3 H4).
Defined.

(** X2. [randomizedQuickSort] on a subrange [low .. high] inside an
    array whose elements there are not NaN: it returns, the subrange is
    then in non-descending order, the elements outside it are where they
    were, and the array is a permutation of what it was. *)
Theorem quicksort_sorts_subrange rnd arr low high s v :
  heap s !! arr = Some v ->
  0 <= low -> high < Z.of_nat (length v) ->
  range_all (fun x => isNaN x = false) v low high ->
  exists s' v',
    randomizedQuickSort rnd arr low high s = Some (tt, s')
    /\ heap s' !! arr = Some v'
    /\ sorted_range v' low high
    /\ (forall k, k < low \/ high < k -> lookupZ v' k = lookupZ v k)
    /\ Permutation v' v.
Proof.
  intros Hv Hlow Hhigh Hnan.
  pose proof (lookup_lt_Some _ _ _ Hv) as Harr.
  destruct (after_quicksort rnd s arr Harr (Z.to_nat (high - low)) low high v
              [] 0%nat []) as (cs & ev & v' & E & Sq); [lia|lia|lia|].
  rewrite (after_init s arr v Hv) in E.
  eexists. exists v'. split; [exact E|].
  split; [now apply after_heap_arr|].
  split; [now apply (sq_sorted _ _ _ _ _ _ Sq)|].
  split; [now apply (sq_outside _ _ _ _ _ _ Sq)|].
  apply (sq_perm _ _ _ _ _ _ Sq).
Qed.

Lemma quicksort_sorts_subrange_witness :
  heap sorting_five !! 0%nat = Some five
  /\ 0 <= 1 /\ 3 < Z.of_nat (length five)
  /\ range_all (fun x => isNaN x = false) five 1 3
  /\ exists s' v',
       randomizedQuickSort thirds 0%nat 1 3 sorting_five = Some (tt, s')
       /\ heap s' !! 0%nat = Some v'
       /\ sorted_range v' 1 3
       /\ (forall k, k < 1 \/ 3 < k -> lookupZ v' k = lookupZ five k)
       /\ Permutation v' five.
Proof.
  assert (H1 : heap sorting_five !! 0%nat = Some five) by reflexivity.
  assert (H2 : 0 <= 1) by lia.
  assert (H3 : 3 < Z.of_nat (length five)) by (simpl; lia).
  assert (H4 : range_all (fun x => isNaN x = false) five 1 3).
  { intros k x Hk Hx.
    assert (k = 1 \/ k = 2 \/ k = 3) as [-> | [-> | ->]] by lia;
      injection Hx as <-; reflexivity. }
  repeat (split; [assumption|]).
  exact (quicksort_sorts_subrange thirds 0%nat 1 3 sorting_five five H1 H2 H3 H4).
Defined.

(** X3. A run of [generateArray] on an accepted input of [n] elements
    calls [Math.random] once per pivot chosen (after the ten calls that
    draw the array when the input box is empty), and chooses at most
    [n - 1] pivots. *)
Theorem random_draws_bounded rnd input s :
  accepted input = true ->
  exists s' cs,
    generateArray rnd input s = Some (Rendered 0, s')
    /\ chosen s' = chosen s ++ cs
    /\ calls s' = (calls s + match input with None => defaultSize | Some _ => 0 end
                   + length cs)%nat
    /\ (length cs <= Nat.pred (length (input_of rnd input s)))%nat.
Proof.
  intros Hacc.
  destruct (generateArray_run rnd input s Hacc) as (cs & ev & v' & E & Sq).
  eexists. exists cs. split; [exact E|].
  split; [reflexivity|]. split; [reflexivity|].
  pose proof (sq_cost _ _ _ _ _ _ Sq) as [C _]. cbn zeta in C. lia.
Qed.

Lemma random_draws_bounded_witness :
  accepted (Some three_one_two) = true
  /\ exists s' cs,
       generateArray thirds (Some three_one_two) initial = Some (Rendered 0, s')
       /\ chosen s' = chosen initial ++ cs
       /\ calls s' = (calls initial + 0 + length cs)%nat
       /\ (length cs <= Nat.pred (length (input_of thirds (Some three_one_two) initial)))%nat.
Proof.
  split; [reflexivity|].
  apply (random_draws_bounded thirds (Some three_one_two) initial). reflexivity.
Defined.

(** X4. The trace of an accepted input of [n >= 1] elements has at most
    [n * n + n] snapshots (and two when the input is empty). *)
Theorem trace_length_at_most rnd input s :
  accepted input = true ->
  exists s',
    generateArray rnd input s = Some (Rendered 0, s')
    /\ let n := length (input_of rnd input s) in
       (length (trace s') <= Nat.max 2 (n * n + n))%nat.
Proof.
  intros Hacc.
  destruct (generateArray_run rnd input s Hacc) as (cs & ev & v' & E & Sq).
  eexists. split; [exact E|]. rewrite trace_recorded. cbn zeta.
  cbn [length]. rewrite length_app, length_map. cbn [length].
  pose proof (sq_cost _ _ _ _ _ _ Sq) as [_ C]. cbn zeta in C. nia.
Qed.

Lemma trace_length_at_most_witness :
  accepted (Some three_one_two) = true
  /\ exists s',
       generateArray thirds (Some three_one_two) initial = Some (Rendered 0, s')
       /\ let n := length (input_of thirds (Some three_one_two) initial) in
          (length (trace s') <= Nat.max 2 (n * n + n))%nat.
Proof.
  split; [reflexivity|].
  apply (trace_length_at_most thirds (Some three_one_two) initial). reflexivity.
Defined.

(** X5. In the trace of an accepted input of [n] elements every
    highlight points inside the array: a pivot index lies in
    [0 .. n - 1], a compare index too and below the pivot index of the
    same snapshot; and [sorted] is set in the last snapshot only. *)
Theorem highlights_point_inside rnd input s :
  accepted input = true ->
  exists s',
    generateArray rnd input s = Some (Rendered 0, s')
    /\ Forall (fun sn => highlight_within 0
                           (Z.of_nat (length (input_of rnd input s)) - 1) sn.2)
              (trace s')
    /\ (forall i sn, trace s' !! i = Some sn ->
          (S i < length (trace s'))%nat -> sorted sn.2 = None).
Proof.
  intros Hacc.
  destruct (generateArray_run rnd input s Hacc) as (cs & ev & v' & E & Sq).
  pose proof (sq_highlight_within _ _ _ _ _ _ Sq) as W.
  eexists. split; [exact E|]. rewrite trace_recorded.
  assert (Hn : highlight_within 0
             (Z.of_nat (length (input_of rnd input s)) - 1) hl_none
           /\ highlight_within 0
             (Z.of_nat (length (input_of rnd input s)) - 1) hl_sorted).
  { repeat split; simpl; discriminate. }
  split.
  - constructor; [exact (proj1 Hn)|].
    apply Forall_app. split; [|constructor; [exact (proj2 Hn)|constructor]].
    rewrite List.Forall_forall in W. apply List.Forall_forall.
    intros sn Hsn. apply in_map_iff in Hsn as (e & <- & He).
    apply (W e He).
  - intros i sn Hi Hlt. cbn [length] in Hlt.
    rewrite length_app, length_map in Hlt. cbn [length] in Hlt.
    destruct i as [|i]; [injection Hi as <-; reflexivity|].
    change ((map seen ev ++ [(Some v', hl_sorted)]) !! i = Some sn) in Hi.
    rewrite lookup_app_l in Hi by (rewrite length_map; lia).
    rewrite lookup_map in Hi.
    destruct (ev !! i) as [e|] eqn:Ee; [|discriminate]. injection Hi as <-.
    rewrite List.Forall_forall in W.
    apply (W e). apply list_elem_of_In. eapply list_elem_of_lookup_2. exact Ee.
Qed.

Lemma highlights_point_inside_witness :
  accepted None = true
  /\ exists s',
       generateArray thirds None initial = Some (Rendered 0, s')
       /\ Forall (fun sn => highlight_within 0
                              (Z.of_nat (length (input_of thirds None initial)) - 1) sn.2)
                 (trace s')
       /\ (forall i sn, trace s' !! i = Some sn ->
             (S i < length (trace s'))%nat -> sorted sn.2 = None).
Proof.
  split; [reflexivity|].
  apply (highlights_point_inside thirds None initial). reflexivity.
Defined.

Lemma spec_scan_pivot_marked high pv n :
  forall j0 i v,
    0 <= i + 1 <= j0 -> j0 + Z.of_nat n <= high -> high < Z.of_nat (length v) ->
    lookupZ v high = Some pv ->
    Forall (fun sn => forall k, pivot sn.2 = Some k -> lookupZ sn.1 k = Some pv)
           (spec_scan high pv (seqZ j0 (Z.of_nat n)) i v).1.1.
Proof.
  intros j0 i v Hi Hn Hlen Hv.
  pose proof (spec_scan_pivot_stays high pv n j0 i v Hi Hn Hlen Hv) as S.
  assert (P : Forall (fun sn : snapshot => pivot sn.2 = Some high)
                (spec_scan high pv (seqZ j0 (Z.of_nat n)) i v).1.1).
  { clear. generalize (seqZ j0 (Z.of_nat n)) as js. intros js. revert i v.
    induction js as [|j js IH]; intros i v; simpl; [constructor|].
    destruct (lt_at v j pv); simpl; repeat (constructor; [reflexivity|]); apply IH. }
  rewrite List.Forall_forall in S, P. apply List.Forall_forall.
  intros sn Hsn k Hk. rewrite (P sn Hsn) in Hk. injection Hk as <-.
  apply (S sn Hsn).
Qed.

(** X6. In every snapshot a call of [randomizedPartition] records, the
    index the highlight gives as pivot holds the pivot value: first at
    [randomIndex], before the pivot is moved, then at [high] during the
    scan. *)
Theorem pivot_highlight_marks_pivot rnd arr low high s v :
  heap s !! arr = Some v -> refs_ok arr s ->
  0 <= low -> low < high -> high < Z.of_nat (length v) ->
  exists pi s' new pv,
    randomizedPartition rnd arr low high s = Some (pi, s')
    /\ trace s' = trace s ++ map seen new
    /\ lookupZ v (drawn rnd s low high) = Some pv
    /\ Forall (fun sn => forall k, pivot sn.2 = Some k -> lookupZ sn.1 k = Some pv)
              new.
Proof.
  intros Hv Hrefs Hlow Hlt Hhigh.
  pose proof (lookup_lt_Some _ _ _ Hv) as Harr.
  pose proof (after_partition rnd s arr low high v [] 0%nat [] Harr Hlow Hlt Hhigh) as E.
  rewrite (after_init s arr v Hv) in E. cbn zeta in E.
  set (r := drawn rnd s low high) in *.
  assert (Hr : low <= r <= high) by (apply drawn_range; lia).
  destruct (lookupZ_is_Some v r ltac:(lia)) as [pv Hpv].
  eexists. eexists. exists (spec_partition v low high r).1.1, pv.
  split; [exact E|]. split; [now apply trace_after|]. split; [exact Hpv|].
  unfold spec_partition. cbn [fst].
  set (v1 := swap_list v r high).
  assert (Hp1 : lookupZ v1 high = Some pv).
  { unfold v1. rewrite lookupZ_swap by lia. now rewrite Z.eqb_refl. }
  rewrite Hp1. change (default S754_nan (Some pv)) with pv.
  constructor; [|apply Forall_app; split].
  - simpl. intros k [= <-]. exact Hpv.
  - pose proof (spec_scan_pivot_marked high pv (Z.to_nat (high - low))
                  low (low - 1) v1) as H.
    replace (Z.of_nat (Z.to_nat (high - low))) with (high - low) in H by lia.
    apply H; [lia|lia| |exact Hp1].
    unfold v1. rewrite swap_list_length. lia.
  - constructor; [|constructor]. simpl. discriminate.
Qed.

Lemma pivot_highlight_marks_pivot_witness :
  heap sorting_312 !! 0%nat = Some three_one_two
  /\ refs_ok 0 sorting_312
  /\ 0 <= 0 /\ 0 < 2 /\ 2 < Z.of_nat (length three_one_two)
  /\ exists pi s' new pv,
       randomizedPartition always_two_thirds 0%nat 0 2 sorting_312 = Some (pi, s')
       /\ trace s' = trace sorting_312 ++ map seen new
       /\ lookupZ three_one_two (drawn always_two_thirds sorting_312 0 2) = Some pv
       /\ Forall (fun sn => forall k, pivot sn.2 = Some k -> lookupZ sn.1 k = Some pv)
                 new.
Proof.
  assert (H1 : heap sorting_312 !! 0%nat = Some three_one_two) by reflexivity.
  assert (H2 : refs_ok 0 sorting_312) by constructor.
  assert (H3 : 0 <= 0) by lia.
  assert (H4 : 0 < 2) by lia.
  assert (H5 : 2 < Z.of_nat (length three_one_two)) by (simpl; lia).
  repeat (split; [assumption|]).
  exact (pivot_highlight_marks_pivot always_two_thirds 0%nat 0 2 sorting_312 three_one_two
           H1 H2 H3 H4 H5).
Defined.

(** X7. With an empty input box [generateArray] draws ten integers
    between 1 and 100 with the first ten calls of [Math.random]: they are
    the array [array] refers to afterwards and the values of the first
    snapshot. *)
Theorem random_array_drawn rnd s :
  exists s' numbers,
    generateArray rnd None s = Some (Rendered 0, s')
    /\ heap s' !! array s' = Some numbers
    /\ head (trace s') = Some (Some numbers, hl_none)
    /\ length numbers = 10%nat
    /\ numbers = map (fun k => number_of_Z
                                 (floor_scaled (rnd (calls s + k)%nat) 100 + 1))
                     (seq 0 10)
    /\ Forall (fun x => exists z, 1 <= z <= 100 /\ x = number_of_Z z) numbers.
Proof.
  destruct (generateArray_run rnd None s eq_refl) as (cs & ev & v' & E & Sq).
  eexists. exists (input_of rnd None s). split; [exact E|].
  split; [|split; [now rewrite trace_recorded|split; [reflexivity|split; [reflexivity|]]]].
  - unfold recorded, prepared. cbn [heap array].
    rewrite <- app_assoc. now apply list_lookup_middle.
  - apply List.Forall_forall. intros x Hx.
    unfold input_of, generated in Hx. apply in_map_iff in Hx as (k & <- & _).
    eexists. split; [|reflexivity].
    pose proof (floor_scaled_range (rnd (calls s + k)%nat) 100). lia.
Qed.

(** ** The page *)

Lemma renderStep_only_container index p p' :
  Page.renderStep index p = Some p' -> p' = set_container (container p') p.
Proof.
  unfold Page.renderStep. cbn [core set_container].
  destruct (Page.step_at (steps (core p)) index) as [st|].
  - destruct (heap (core p) !! Step.array st); [|discriminate].
    intros [= <-]. reflexivity.
  - intros [= <-]. reflexivity.
Qed.

Lemma step_at_Some l index st :
  Page.step_at l index = Some st ->
  0 <= index < Z.of_nat (length l) /\ l !! Z.to_nat index = Some st.
Proof.
  unfold Page.step_at. destruct (Z.ltb_spec index 0) as [|Hge]; [discriminate|].
  intros E. pose proof (lookup_lt_Some _ _ _ E). split; [lia|exact E].
Qed.

Lemma step_at_None l index :
  Page.step_at l index = None -> index < 0 \/ Z.of_nat (length l) <= index.
Proof.
  unfold Page.step_at. destruct (Z.ltb_spec index 0) as [|Hge]; [lia|].
  intros E. apply lookup_ge_None in E. lia.
Qed.

(** Rendering never fails when the steps can be read. *)
Lemma renderStep_total index p :
  refs_allocated (core p) -> exists p', Page.renderStep index p = Some p'.
Proof.
  intros Hrefs. unfold Page.renderStep. cbn [core set_container].
  destruct (Page.step_at (steps (core p)) index) as [st|] eqn:E; [|eauto].
  apply step_at_Some in E as [_ E].
  unfold refs_allocated in Hrefs. rewrite List.Forall_forall in Hrefs.
  assert (Hlt : (Step.array st < length (heap (core p)))%nat).
  { apply Hrefs, list_elem_of_In. eapply list_elem_of_lookup_2. exact E. }
  destruct (lookup_lt_is_Some_2 _ _ Hlt) as [values Hv]. rewrite Hv. eauto.
Qed.

(** Rendering a step of the trace shows one bar per value. *)
Lemma renderStep_seen index p values h :
  0 <= index ->
  trace (core p) !! Z.to_nat index = Some (Some values, h) ->
  Page.renderStep index p
  = Some (set_container (imap (Page.bar_of h (Math_max values)) values) p).
Proof.
  intros H0 Ht. unfold trace in Ht. rewrite lookup_map in Ht.
  destruct (steps (core p) !! Z.to_nat index) as [st|] eqn:E; [|discriminate].
  injection Ht as Hv Hh.
  unfold Page.renderStep, Page.step_at. cbn [core set_container].
  destruct (Z.ltb_spec index 0); [lia|].
  rewrite E, Hv, Hh. reflexivity.
Qed.

Lemma renderStep_outside index p :
  index < 0 \/ Z.of_nat (length (steps (core p))) <= index ->
  Page.renderStep index p = Some (set_container [] p).
Proof.
  intros H. unfold Page.renderStep. cbn [core set_container].
  destruct (Page.step_at (steps (core p)) index) as [st|] eqn:E; [|reflexivity].
  apply step_at_Some in E. lia.
Qed.

Lemma map_imap_value {A B} (g : B -> A) (l : list A) :
  forall f : nat -> A -> B, (forall i x, g (f i x) = x) -> map g (imap f l) = l.
Proof.
  induction l as [|x l IH]; intros f Hf; [reflexivity|].
  rewrite imap_cons. cbn [map]. rewrite Hf. f_equal.
  apply IH. intros i y. apply Hf.
Qed.

Lemma in_classes h i :
  (In "pivot"%string (Page.classes h i) <-> Page.is_index i (pivot h) = true)
  /\ (In "comparing"%string (Page.classes h i) <-> Page.is_index i (compare h) = true)
  /\ (In "sorted"%string (Page.classes h i) <-> sorted h = Some true).
Proof.
  unfold Page.classes.
  destruct (Page.is_index i (pivot h)), (Page.is_index i (compare h)),
    (sorted h) as [[]|]; simpl;
    repeat split; intros H; try reflexivity; try discriminate;
      repeat (destruct H as [H|H]; try discriminate H); tauto.
Qed.

Lemma is_index_true i h : Page.is_index i h = true <-> h = Some (Z.of_nat i).
Proof.
  unfold Page.is_index. destruct h as [k|]; [|split; discriminate].
  rewrite Z.eqb_eq. split; [intros ->; reflexivity|intros [= ->]; reflexivity].
Qed.

Lemma page_ok_container l p : page_ok p -> page_ok (set_container l p).
Proof. intros H. exact H. Qed.

Lemma page_ok_cursor c p :
  page_ok p ->
  0 <= c -> (c < Z.of_nat (length (steps (core p))) \/ c = 0) ->
  page_ok (Page.with_currentStep c p).
Proof.
  intros (R & _ & _ & T & N) H0 H1.
  split; [exact R|]. split; [exact H0|]. split; [exact H1|]. split; [exact T|exact N].
Qed.

Lemma clearInterval_frame h p :
  core (Page.clearInterval h p) = core p
  /\ autoPlayInterval (Page.clearInterval h p) = autoPlayInterval p
  /\ issued (Page.clearInterval h p) = issued p
  /\ speedSlider (Page.clearInterval h p) = speedSlider p
  /\ container (Page.clearInterval h p) = container p.
Proof. destruct h; repeat split; reflexivity. Qed.

Lemma clear_own_interval p :
  page_ok p -> intervals (Page.clearInterval (autoPlayInterval p) p) = [].
Proof.
  intros (_ & _ & _ & T & _). unfold Page.clearInterval.
  destruct T as [E|(id & d & E & A)].
  - destruct (autoPlayInterval p); [|exact E]. cbn [intervals set_intervals].
    now rewrite E.
  - rewrite A. cbn [intervals set_intervals]. rewrite E. simpl.
    now rewrite Nat.eqb_refl.
Qed.

(** [startAutoPlay] leaves exactly one timer, the new one. *)
Lemma startAutoPlay_one_timer p :
  page_ok p ->
  let p' := Page.startAutoPlay p in
  intervals p' = [(S (issued p), speedSlider p)]
  /\ autoPlayInterval p' = Some (S (issued p))
  /\ issued p' = S (issued p)
  /\ core p' = core p /\ container p' = container p
  /\ speedSlider p' = speedSlider p
  /\ page_ok p'.
Proof.
  intros Hok. pose proof (clear_own_interval p Hok) as Hc.
  destruct Hok as (R & C0 & C1 & T & N).
  unfold Page.startAutoPlay, Page.setInterval.
  destruct (clearInterval_frame (autoPlayInterval p) p) as (H1 & _ & H2 & H3 & H4).
  cbn [intervals autoPlayInterval issued core container speedSlider
       set_autoPlayInterval set_issued set_intervals].
  rewrite Hc, H1, H2, H3, H4. cbn [app].
  repeat (split; [reflexivity|]).
  unfold page_ok.
  cbn [intervals autoPlayInterval issued core container speedSlider
       set_autoPlayInterval set_issued set_intervals].
  rewrite H1.
  split; [exact R|]. split; [exact C0|]. split; [exact C1|].
  split; [right; eauto|]. intros id [= <-]. discriminate.
Qed.

Lemma refs_allocated_recorded s0 input v' ev cs :
  refs_allocated (recorded s0 input v' ev cs).
Proof.
  unfold refs_allocated, recorded. cbn [heap steps].
  assert (L : length (heap s0 ++ [input; v'] ++ map fst ev ++ [v'])
              = (length (heap s0) + 2 + length ev + 1)%nat)
    by (rewrite !length_app, length_map; simpl; lia).
  rewrite L. constructor; [simpl; lia|]. apply Forall_app. split.
  - eapply Forall_impl; [apply fresh_steps_refs|]. simpl. intros st Hst. lia.
  - constructor; [simpl; lia|constructor].
Qed.

(** [generateArray] returns on every input, with the cursor at 0, steps
    that can be read, and no step at all when it has alerted. *)
Lemma generateArray_outcome rnd input s :
  exists o s',
    generateArray rnd input s = Some (o, s')
    /\ refs_allocated s' /\ currentStep s' = 0
    /\ match o with
       | Rendered index => index = 0 /\ accepted input = true
       | Alerted _ => steps s' = [] /\ accepted input = false
       end.
Proof.
  destruct (accepted input) eqn:Hacc.
  - destruct (generateArray_run rnd input s Hacc) as (cs & ev & v' & E & _).
    eexists. eexists. split; [exact E|].
    split; [apply refs_allocated_recorded|]. split; [reflexivity|]. auto.
  - destruct input as [numbers|]; [|discriminate].
    simpl in Hacc. apply negb_false_iff in Hacc.
    rewrite (generateArray_alert rnd numbers s Hacc).
    eexists. eexists. split; [reflexivity|].
    split; [constructor|]. split; [reflexivity|].
    split; reflexivity.
Qed.

Lemma page_ok_render index p p' :
  page_ok p -> Page.renderStep index p = Some p' -> page_ok p'.
Proof.
  intros Hok E. rewrite (renderStep_only_container _ _ _ E).
  now apply page_ok_container.
Qed.

Lemma blank_ok slider : page_ok (blank slider).
Proof.
  unfold page_ok, blank. cbn.
  split; [constructor|]. split; [lia|]. split; [right; reflexivity|].
  split; [left; reflexivity|discriminate].
Qed.

Lemma handle_keeps_page_ok rnd e p :
  page_ok p -> exists p', Page.handle rnd e p = Some p' /\ page_ok p'.
Proof.
  intros Hok. pose proof Hok as (R & C0 & C1 & T & N).
  destruct e as [input| | | |value|id]; cbn [Page.handle].
  - (* Generate *)
    unfold Page.generateArray.
    set (q := Page.clearInterval (autoPlayInterval p) p).
    assert (Hq : intervals q = []) by now apply clear_own_interval.
    destruct (clearInterval_frame (autoPlayInterval p) p) as (Hcore & Hauto & _).
    fold q in Hcore, Hauto.
    destruct (generateArray_outcome rnd input (core q)) as (o & s' & E & R' & C' & Ho).
    rewrite E.
    assert (Hok' : page_ok (set_core s' q)).
    { split; [exact R'|]. cbn [core set_core]. rewrite C'.
      split; [lia|]. split; [right; reflexivity|].
      split; [left; exact Hq|]. cbn [autoPlayInterval set_core].
      rewrite Hauto. exact N. }
    destruct o as [msg|index].
    + eauto.
    + destruct (renderStep_total index (set_core s' q) R') as [p' Ep].
      exists p'. split; [exact Ep|]. eapply page_ok_render; eassumption.
  - (* Start *)
    assert (Hok0 : page_ok (Page.with_currentStep 0 p))
      by (apply page_ok_cursor; [exact Hok|lia|right; reflexivity]).
    destruct (renderStep_total (currentStep (core (Page.with_currentStep 0 p)))
                (Page.with_currentStep 0 p)) as [p1 E1]; [exact R|].
    rewrite E1. eexists. split; [reflexivity|].
    apply startAutoPlay_one_timer. eapply page_ok_render; eassumption.
  - (* Next *)
    destruct (Z.ltb_spec (currentStep (core p))
                (Z.of_nat (length (steps (core p))) - 1)); [|eauto].
    assert (Hok1 : page_ok (Page.with_currentStep (currentStep (core p) + 1) p))
      by (apply page_ok_cursor; [exact Hok|lia|left; lia]).
    destruct (renderStep_total
                (currentStep (core (Page.with_currentStep (currentStep (core p) + 1) p)))
                (Page.with_currentStep (currentStep (core p) + 1) p)) as [p1 E1];
      [exact R|].
    rewrite E1. exists p1. split; [reflexivity|]. eapply page_ok_render; eassumption.
  - (* Prev *)
    destruct (Z.ltb_spec 0 (currentStep (core p))); [|eauto].
    assert (Hok1 : page_ok (Page.with_currentStep (currentStep (core p) - 1) p))
      by (apply page_ok_cursor; [exact Hok|lia|left; lia]).
    destruct (renderStep_total
                (currentStep (core (Page.with_currentStep (currentStep (core p) - 1) p)))
                (Page.with_currentStep (currentStep (core p) - 1) p)) as [p1 E1];
      [exact R|].
    rewrite E1. exists p1. split; [reflexivity|]. eapply page_ok_render; eassumption.
  - (* Slide *)
    assert (Hoks : page_ok (set_speedSlider value p)) by exact Hok.
    cbn [autoPlayInterval set_speedSlider].
    destruct (autoPlayInterval p) as [[|id]|] eqn:Ea; [eauto| |eauto].
    eexists. split; [reflexivity|]. now apply startAutoPlay_one_timer.
  - (* Fire *)
    destruct (existsb (fun t => Nat.eqb (fst t) id) (intervals p)); [|eauto].
    unfold Page.tick.
    destruct (Z.ltb_spec (currentStep (core p))
                (Z.of_nat (length (steps (core p))) - 1)).
    + assert (Hok1 : page_ok (Page.with_currentStep (currentStep (core p) + 1) p))
        by (apply page_ok_cursor; [exact Hok|lia|left; lia]).
      destruct (renderStep_total
                  (currentStep (core (Page.with_currentStep (currentStep (core p) + 1) p)))
                  (Page.with_currentStep (currentStep (core p) + 1) p)) as [p1 E1];
        [exact R|].
      rewrite E1. exists p1. split; [reflexivity|]. eapply page_ok_render; eassumption.
    + eexists. split; [reflexivity|].
      pose proof (clear_own_interval p Hok) as Hc.
      destruct (clearInterval_frame (autoPlayInterval p) p) as (Hs1 & Hs2 & _).
      split; [rewrite Hs1; exact R|]. rewrite Hs1.
      split; [exact C0|]. split; [exact C1|]. split; [left; exact Hc|].
      rewrite Hs2. exact N.
Qed.

Lemma play_keeps_page_ok rnd es :
  forall p, page_ok p -> exists p', Page.play rnd es p = Some p' /\ page_ok p'.
Proof.
  induction es as [|e es IH]; intros p Hok.
  - exists p. split; [reflexivity|exact Hok].
  - destruct (handle_keeps_page_ok rnd e p Hok) as (p1 & E1 & Hok1).
    destruct (IH p1 Hok1) as (p' & E' & Hok').
    exists p'. split; [|exact Hok']. cbn [Page.play]. now rewrite E1.
Qed.

(** X8. Whatever the user and the timers do, in any order, no handler
    fails, and afterwards the steps can be read, [currentStep] is an index
    of [steps] (0 when there is no step), at most one interval timer is
    active, the one [autoPlayInterval] names. *)
Theorem handlers_keep_page_ok rnd p es :
  page_ok p ->
  exists p', Page.play rnd es p = Some p' /\ page_ok p'.
Proof. intros Hok. now apply play_keeps_page_ok. Qed.

Lemma handlers_keep_page_ok_witness :
  page_ok (blank 500)
  /\ exists p',
       Page.play thirds [Generate None; Start; Fire 1; Slide 20; Fire 1; Fire 2;
                         Next; Prev; Generate (Some [S754_nan]); Start; Fire 3]
                 (blank 500) = Some p'
       /\ page_ok p'.
Proof.
  split; [apply blank_ok|].
  apply (handlers_keep_page_ok thirds (blank 500)). apply blank_ok.
Defined.

(** The page after [Generate] on an accepted input. *)
Lemma handle_generate_accepted rnd input p :
  page_ok p -> accepted input = true ->
  exists cs ev v',
    Page.handle rnd (Generate input) p
    = Some (set_container
              (imap (Page.bar_of hl_none (Math_max (input_of rnd input (core p))))
                    (input_of rnd input (core p)))
              (set_core (recorded (prepared rnd input (core p))
                                  (input_of rnd input (core p)) v' ev cs)
                        (Page.clearInterval (autoPlayInterval p) p)))
    /\ spec_quicksort (input_of rnd input (core p)) 0
         (Z.of_nat (length (input_of rnd input (core p))) - 1) cs ev v'.
Proof.
  intros Hok Hacc. cbn [Page.handle]. unfold Page.generateArray.
  destruct (clearInterval_frame (autoPlayInterval p) p) as (Hcore & _).
  rewrite Hcore.
  destruct (generateArray_run rnd input (core p) Hacc) as (cs & ev & v' & E & Sq).
  rewrite E. exists cs, ev, v'. split; [|exact Sq].
  apply renderStep_seen; [lia|].
  cbn [core set_core]. now rewrite trace_recorded.
Qed.

(** X9. [Generate] on an accepted input stops the animation (no timer
    stays active), puts the cursor on the first step and shows the input
    as it is: one bar per element, in order, none highlighted. *)
Theorem generate_shows_input rnd input p :
  page_ok p -> accepted input = true ->
  exists p',
    Page.handle rnd (Generate input) p = Some p'
    /\ currentStep (core p') = 0
    /\ intervals p' = []
    /\ map innerText (container p') = input_of rnd input (core p)
    /\ Forall (fun b => classList b = ["bar"%string]) (container p').
Proof.
  intros Hok Hacc.
  destruct (handle_generate_accepted rnd input p Hok Hacc) as (cs & ev & v' & E & _).
  eexists. split; [exact E|]. cbn [core container intervals set_container set_core].
  split; [reflexivity|]. split; [now apply clear_own_interval|].
  split; [now apply map_imap_value|].
  apply Forall_lookup. intros i b Hb.
  rewrite list_lookup_imap in Hb.
  destruct (input_of rnd input (core p) !! i); [|discriminate].
  injection Hb as <-. reflexivity.
Qed.

Lemma generate_shows_input_witness :
  page_ok (blank 500) /\ accepted (Some three_one_two) = true
  /\ exists p',
       Page.handle thirds (Generate (Some three_one_two)) (blank 500) = Some p'
       /\ currentStep (core p') = 0
       /\ intervals p' = []
       /\ map innerText (container p') = three_one_two
       /\ Forall (fun b => classList b = ["bar"%string]) (container p').
Proof.
  assert (H1 : page_ok (blank 500)) by apply blank_ok.
  assert (H2 : accepted (Some three_one_two) = true) by reflexivity.
  split; [exact H1|]. split; [exact H2|].
  exact (generate_shows_input thirds (Some three_one_two) (blank 500) H1 H2).
Defined.

Lemma renderStep_cursor index c p :
  Page.renderStep index (Page.with_currentStep c p)
  = option_map (Page.with_currentStep c) (Page.renderStep index p).
Proof.
  unfold Page.renderStep, Page.with_currentStep.
  cbn [core set_container set_core steps heap set_currentStep].
  destruct (Page.step_at (steps (core p)) index) as [st|]; [|reflexivity].
  destruct (heap (core p) !! Step.array st); reflexivity.
Qed.

Lemma renderStep_container index l p :
  Page.renderStep index (set_container l p) = Page.renderStep index p.
Proof. reflexivity. Qed.

Lemma with_currentStep_twice c c' p :
  Page.with_currentStep c (Page.with_currentStep c' p) = Page.with_currentStep c p.
Proof. reflexivity. Qed.

Lemma with_currentStep_same p :
  Page.with_currentStep (currentStep (core p)) p = p.
Proof. destruct p as [[h a st c cl ch] au sp iv n co]. reflexivity. Qed.

Lemma with_currentStep_container c l p :
  Page.with_currentStep c (set_container l p)
  = set_container l (Page.with_currentStep c p).
Proof. reflexivity. Qed.

(** X10. Stepping forward and back again, or back and forward again,
    ends on the step the cursor was on, rendered: [Next] then [Prev] when
    the cursor is not on the last step, [Prev] then [Next] when it is not
    on the first. *)
Theorem next_prev_round_trip rnd p :
  page_ok p ->
  (currentStep (core p) < Z.of_nat (length (steps (core p))) - 1 ->
   exists p', Page.play rnd [Next; Prev] p = Some p'
              /\ Page.renderStep (currentStep (core p)) p = Some p')
  /\ (0 < currentStep (core p) ->
      exists p', Page.play rnd [Prev; Next] p = Some p'
                 /\ Page.renderStep (currentStep (core p)) p = Some p').
Proof.
  intros Hok. pose proof Hok as (R & C0 & C1 & _).
  set (c := currentStep (core p)) in *.
  destruct (renderStep_total c p R) as [p0 E0].
  assert (Hback : forall c', exists p1,
             Page.renderStep c' (Page.with_currentStep c' p) = Some p1
             /\ Page.renderStep c (Page.with_currentStep c p1) = Some p0).
  { intros c'. destruct (renderStep_total c' p R) as [q Eq].
    exists (Page.with_currentStep c' q). split.
    - rewrite renderStep_cursor, Eq. reflexivity.
    - rewrite with_currentStep_twice, renderStep_cursor.
      rewrite (renderStep_only_container _ _ _ Eq), renderStep_container, E0.
      cbn [option_map]. f_equal.
      rewrite (renderStep_only_container _ _ _ E0), with_currentStep_container.
      subst c. now rewrite with_currentStep_same. }
  split; intros Hc.
  - destruct (Hback (c + 1)) as (p1 & E1 & E2).
    exists p0. split; [|exact E0].
    cbn [Page.play Page.handle]. fold c.
    destruct (Z.ltb_spec c (Z.of_nat (length (steps (core p))) - 1)); [|lia].
    cbn [core Page.with_currentStep set_core currentStep set_currentStep].
    rewrite E1.
    assert (Hc1 : currentStep (core p1) = c + 1).
    { rewrite (renderStep_only_container _ _ _ E1). reflexivity. }
    rewrite Hc1. destruct (Z.ltb_spec 0 (c + 1)); [|lia].
    replace (c + 1 - 1) with c by lia.
    cbn [core Page.with_currentStep set_core currentStep set_currentStep].
    now rewrite E2.
  - destruct (Hback (c - 1)) as (p1 & E1 & E2).
    exists p0. split; [|exact E0].
    cbn [Page.play Page.handle]. fold c.
    destruct (Z.ltb_spec 0 c); [|lia].
    cbn [core Page.with_currentStep set_core currentStep set_currentStep].
    rewrite E1.
    assert (Hc1 : currentStep (core p1) = c - 1).
    { rewrite (renderStep_only_container _ _ _ E1). reflexivity. }
    assert (Hs1 : steps (core p1) = steps (core p)).
    { rewrite (renderStep_only_container _ _ _ E1). reflexivity. }
    rewrite Hc1, Hs1.
    destruct (Z.ltb_spec (c - 1) (Z.of_nat (length (steps (core p))) - 1)); [|lia].
    replace (c - 1 + 1) with c by lia.
    cbn [core Page.with_currentStep set_core currentStep set_currentStep].
    now rewrite E2.
Qed.

Lemma demo_page_ok : page_ok demo_page.
Proof.
  destruct (play_keeps_page_ok thirds [Generate (Some three_one_two); Next]
              (blank 500) (blank_ok 500))
    as (p' & E & Hok).
  unfold demo_page. rewrite E. exact Hok.
Qed.

Lemma next_prev_round_trip_witness :
  page_ok demo_page
  /\ currentStep (core demo_page) < Z.of_nat (length (steps (core demo_page))) - 1
  /\ 0 < currentStep (core demo_page)
  /\ (exists p', Page.play thirds [Next; Prev] demo_page = Some p'
                 /\ Page.renderStep (currentStep (core demo_page)) demo_page = Some p')
  /\ (exists p', Page.play thirds [Prev; Next] demo_page = Some p'
                 /\ Page.renderStep (currentStep (core demo_page)) demo_page = Some p').
Proof.
  assert (H1 : page_ok demo_page) by apply demo_page_ok.
  assert (H2 : currentStep (core demo_page)
               < Z.of_nat (length (steps (core demo_page))) - 1)
    by (vm_compute; reflexivity).
  assert (H3 : 0 < currentStep (core demo_page)) by (vm_compute; reflexivity).
  split; [exact H1|]. split; [exact H2|]. split; [exact H3|].
  destruct (next_prev_round_trip thirds demo_page H1) as [A B].
  split; [exact (A H2)|exact (B H3)].
Defined.

Lemma renderStep_idem index p p' :
  Page.renderStep index p = Some p' -> Page.renderStep index p' = Some p'.
Proof.
  intros E. pose proof (renderStep_only_container _ _ _ E) as Hp.
  rewrite Hp at 1. rewrite renderStep_container, E. reflexivity.
Qed.

(** If the display shows the step of a given index, it does so on any
    page with the same sorting state and the same bars. *)
Lemma shows_transfer index p q :
  core q = core p -> container q = container p ->
  Page.renderStep index p = Some p -> Page.renderStep index q = Some q.
Proof.
  intros Hc Hb E. unfold Page.renderStep in E |- *.
  cbn [core set_container] in E |- *. rewrite Hc.
  assert (Hq : forall l, container p = l -> set_container l q = q).
  { intros l <-. rewrite <- Hb.
    destruct q as [c1 a1 s1 i1 n1 co1]. reflexivity. }
  destruct (Page.step_at (steps (core p)) index) as [st|].
  - destruct (heap (core p) !! Step.array st); [|discriminate].
    injection E as E. f_equal. apply Hq. now rewrite <- E at 1.
  - injection E as E. f_equal. apply Hq. now rewrite <- E at 1.
Qed.

(** The timer [id] firing [k] times while the cursor can still advance. *)
Lemma fires rnd id d k :
  forall p,
    page_ok p -> intervals p = [(id, d)] ->
    currentStep (core p) + Z.of_nat k <= Z.of_nat (length (steps (core p))) - 1 ->
    exists p',
      Page.play rnd (repeat (Fire id) k) p = Some p'
      /\ currentStep (core p') = currentStep (core p) + Z.of_nat k
      /\ steps (core p') = steps (core p)
      /\ intervals p' = intervals p
      /\ autoPlayInterval p' = autoPlayInterval p
      /\ issued p' = issued p
      /\ speedSlider p' = speedSlider p
      /\ page_ok p'
      /\ ((0 < k)%nat -> Page.renderStep (currentStep (core p')) p' = Some p').
Proof.
  induction k as [|k IH]; intros p Hok Hiv Hk.
  - exists p. cbn [repeat Page.play]. rewrite Z.add_0_r.
    repeat (split; [reflexivity|]). split; [exact Hok|lia].
  - pose proof Hok as (R & C0 & C1 & _).
    cbn [repeat Page.play Page.handle]. rewrite Hiv.
    cbn [existsb fst]. rewrite Nat.eqb_refl. cbn [orb].
    unfold Page.tick.
    destruct (Z.ltb_spec (currentStep (core p))
                (Z.of_nat (length (steps (core p))) - 1)); [|lia].
    set (c := currentStep (core p)) in *.
    cbn [core Page.with_currentStep set_core currentStep set_currentStep].
    destruct (renderStep_total (c + 1) (Page.with_currentStep (c + 1) p) R)
      as [p1 E1].
    rewrite E1.
    pose proof (renderStep_only_container _ _ _ E1) as Hp1.
    assert (Hok1 : page_ok p1).
    { eapply page_ok_render; [|exact E1].
      apply page_ok_cursor; [exact Hok|lia|left; lia]. }
    assert (F : currentStep (core p1) = c + 1 /\ steps (core p1) = steps (core p)
                /\ intervals p1 = intervals p
                /\ autoPlayInterval p1 = autoPlayInterval p
                /\ issued p1 = issued p /\ speedSlider p1 = speedSlider p)
      by (rewrite Hp1; repeat split; reflexivity).
    destruct F as (F1 & F2 & F3 & F4 & F5 & F6).
    destruct (IH p1 Hok1) as (p' & E' & G1 & G2 & G3 & G4 & G5 & G6 & Hok' & G7).
    { now rewrite F3. }
    { rewrite F1, F2. lia. }
    exists p'. split; [exact E'|].
    split; [rewrite G1, F1; lia|]. split; [now rewrite G2, F2|].
    split; [now rewrite G3, F3|]. split; [now rewrite G4, F4|].
    split; [now rewrite G5, F5|]. split; [now rewrite G6, F6|].
    split; [exact Hok'|]. intros _.
    destruct k as [|k]; [|apply G7; lia].
    cbn [repeat Page.play] in E'. injection E' as <-.
    rewrite F1. eapply renderStep_idem. exact E1.
Qed.

(** X11. [Start] rewinds to the first step and starts one timer; each
    time it fires the display moves to the next step, and the firing that
    finds the cursor on the last step clears the timer: after [k] firings
    ([k] less than the number [n] of steps) the cursor is [k], the display
    shows step [k] and the timer is active; after [n] firings the cursor
    is [n - 1] and no timer is active, while [autoPlayInterval] still
    holds the identifier of the cleared timer. *)
Theorem autoplay_runs_to_the_end rnd p :
  page_ok p -> steps (core p) <> [] ->
  let n := length (steps (core p)) in
  let id := S (issued p) in
  (forall k, (k < n)%nat ->
     exists p',
       Page.play rnd (Start :: repeat (Fire id) k) p = Some p'
       /\ currentStep (core p') = Z.of_nat k
       /\ intervals p' = [(id, speedSlider p)]
       /\ Page.renderStep (Z.of_nat k) p' = Some p')
  /\ exists p',
       Page.play rnd (Start :: repeat (Fire id) n) p = Some p'
       /\ currentStep (core p') = Z.of_nat n - 1
       /\ intervals p' = []
       /\ autoPlayInterval p' = Some id
       /\ Page.renderStep (Z.of_nat n - 1) p' = Some p'.
Proof.
  intros Hok Hne n id. pose proof Hok as (R & _).
  assert (Hn : (0 < n)%nat) by (subst n; destruct (steps (core p)); [congruence|simpl; lia]).
  (* the page after Start *)
  destruct (renderStep_total 0 (Page.with_currentStep 0 p) R) as [p0 E0].
  pose proof (renderStep_only_container _ _ _ E0) as Hp0.
  assert (Hok0 : page_ok p0).
  { eapply page_ok_render; [|exact E0].
    apply page_ok_cursor; [exact Hok|lia|right; reflexivity]. }
  destruct (startAutoPlay_one_timer p0 Hok0) as (S1 & S2 & S3 & S4 & S5 & S6 & Hoks).
  set (ps := Page.startAutoPlay p0) in *.
  assert (Estart : Page.handle rnd Start p = Some ps).
  { cbn [Page.handle].
    cbn [core Page.with_currentStep set_core currentStep set_currentStep].
    now rewrite E0. }
  assert (F : currentStep (core ps) = 0 /\ steps (core ps) = steps (core p)
              /\ intervals ps = [(id, speedSlider p)]
              /\ autoPlayInterval ps = Some id).
  { rewrite S4, S1, S2, Hp0. repeat split; reflexivity. }
  destruct F as (F1 & F2 & F3 & F4).
  assert (Rs : Page.renderStep 0 ps = Some ps).
  { apply (shows_transfer 0 p0 ps S4 S5). eapply renderStep_idem. exact E0. }
  split.
  - intros k Hk.
    destruct (fires rnd id (speedSlider p) k ps Hoks F3)
      as (p' & E' & G1 & G2 & G3 & _ & _ & _ & _ & G7).
    { rewrite F1, F2. fold n. lia. }
    exists p'. split; [cbn [Page.play]; rewrite Estart; exact E'|].
    split; [rewrite G1, F1; lia|]. split; [now rewrite G3|].
    destruct k as [|k].
    + cbn [repeat Page.play] in E'. injection E' as <-. exact Rs.
    + replace (Z.of_nat (S k)) with (currentStep (core p')) by (rewrite G1, F1; lia).
      apply G7. lia.
  - destruct (fires rnd id (speedSlider p) (n - 1) ps Hoks F3)
      as (p1 & E1 & G1 & G2 & G3 & G4 & _ & _ & Hok1 & G7).
    { rewrite F1, F2. fold n. lia. }
    set (pe := Page.clearInterval (autoPlayInterval p1) p1).
    assert (Elast : Page.handle rnd (Fire id) p1 = Some pe).
    { cbn [Page.handle]. rewrite G3, F3.
      cbn [existsb fst]. rewrite Nat.eqb_refl. cbn [orb].
      unfold Page.tick. rewrite G1, G2, F1, F2. fold n.
      destruct (Z.ltb_spec (0 + Z.of_nat (n - 1)) (Z.of_nat n - 1)); [lia|].
      reflexivity. }
    exists pe. split.
    + cbn [Page.play]. rewrite Estart.
      replace n with (n - 1 + 1)%nat at 1 by lia.
      rewrite repeat_app. cbn [repeat].
      assert (Happ : forall es1 es2 q q',
                 Page.play rnd es1 q = Some q' ->
                 Page.play rnd (es1 ++ es2) q = Page.play rnd es2 q').
      { induction es1 as [|e es1 IHe]; intros es2 q q' Hq.
        - injection Hq as <-. reflexivity.
        - cbn [Page.play app] in Hq |- *.
          destruct (Page.handle rnd e q); [|discriminate]. now apply IHe. }
      rewrite (Happ _ _ _ _ E1). cbn [Page.play]. now rewrite Elast.
    + destruct (clearInterval_frame (autoPlayInterval p1) p1) as (Hc1 & Hc2 & _).
      fold pe in Hc1, Hc2.
      split; [rewrite Hc1, G1, F1; lia|].
      split; [now apply clear_own_interval|].
      split; [rewrite Hc2, G4; exact F4|].
      assert (Rp1 : Page.renderStep (Z.of_nat n - 1) p1 = Some p1).
      { destruct (Nat.eq_dec n 1%nat) as [En|En].
        - replace (n - 1)%nat with 0%nat in E1 by lia.
          cbn [repeat Page.play] in E1. injection E1 as <-.
          replace (Z.of_nat n - 1) with 0 by lia. exact Rs.
        - replace (Z.of_nat n - 1) with (currentStep (core p1))
            by (rewrite G1, F1; lia).
          apply G7. lia. }
      destruct (clearInterval_frame (autoPlayInterval p1) p1) as (_ & _ & _ & _ & Hc5).
      fold pe in Hc5.
      exact (shows_transfer _ p1 pe Hc1 Hc5 Rp1).
Qed.

Lemma demo_page_steps : steps (core demo_page) <> [].
Proof. intros H. vm_compute in H. discriminate H. Qed.

Lemma autoplay_runs_to_the_end_witness :
  page_ok demo_page /\ steps (core demo_page) <> []
  /\ (exists p',
        Page.play thirds (Start :: repeat (Fire (S (issued demo_page))) 2) demo_page
        = Some p'
        /\ currentStep (core p') = 2
        /\ intervals p' = [(S (issued demo_page), speedSlider demo_page)])
  /\ exists p',
       Page.play thirds
         (Start :: repeat (Fire (S (issued demo_page)))
                          (length (steps (core demo_page)))) demo_page
       = Some p'
       /\ intervals p' = []
       /\ autoPlayInterval p' = Some (S (issued demo_page)).
Proof.
  assert (H1 : page_ok demo_page) by apply demo_page_ok.
  assert (H2 : steps (core demo_page) <> []) by apply demo_page_steps.
  split; [exact H1|]. split; [exact H2|].
  destruct (autoplay_runs_to_the_end thirds demo_page H1 H2) as [A (p' & E & _ & I & U & _)].
  split.
  - destruct (A 2%nat) as (q & Eq & C & Iq & _).
    + vm_compute. repeat constructor.
    + exists q. repeat (split; [assumption|]). exact Iq.
  - exists p'. repeat (split; [assumption|]). exact U.
Defined.

(** X12. Moving the slider stores the new value and restarts the
    animation exactly when [autoPlayInterval] holds a timer identifier,
    which it does from the first [Start] on, also after the animation has
    ended or [Generate] has stopped it: the timer named is cleared and one
    new timer, with the new delay, is the only active one.  Before any
    [Start], when [autoPlayInterval] is [null], nothing else happens. *)
Theorem slider_restarts_autoplay rnd value p :
  page_ok p ->
  (autoPlayInterval p = None ->
   Page.handle rnd (Slide value) p = Some (set_speedSlider value p))
  /\ (forall id, autoPlayInterval p = Some id ->
        exists p',
          Page.handle rnd (Slide value) p = Some p'
          /\ intervals p' = [(S (issued p), value)]
          /\ autoPlayInterval p' = Some (S (issued p))
          /\ core p' = core p
          /\ container p' = container p).
Proof.
  intros Hok. split.
  - intros E. cbn [Page.handle autoPlayInterval set_speedSlider]. now rewrite E.
  - intros id E. pose proof Hok as (_ & _ & _ & _ & N).
    cbn [Page.handle autoPlayInterval set_speedSlider]. rewrite E.
    destruct id as [|id]; [now destruct (N 0%nat E)|].
    assert (Hoks : page_ok (set_speedSlider value p)) by exact Hok.
    destruct (startAutoPlay_one_timer (set_speedSlider value p) Hoks)
      as (S1 & S2 & _ & S4 & S5 & _).
    eexists. split; [reflexivity|].
    split; [exact S1|]. split; [exact S2|]. split; [exact S4|exact S5].
Qed.

Lemma finished_page_ok : page_ok finished_page.
Proof.
  destruct (play_keeps_page_ok thirds
              (Generate (Some three_one_two) :: Start :: repeat (Fire 1) 12)
              (blank 500) (blank_ok 500))
    as (p' & E & Hok).
  unfold finished_page. rewrite E. exact Hok.
Qed.

Lemma slider_restarts_autoplay_witness :
  page_ok finished_page
  /\ intervals finished_page = []
  /\ autoPlayInterval finished_page = Some 1%nat
  /\ exists p',
       Page.handle thirds (Slide 20) finished_page = Some p'
       /\ intervals p' = [(S (issued finished_page), 20)]
       /\ autoPlayInterval p' = Some (S (issued finished_page)).
Proof.
  assert (H1 : page_ok finished_page) by apply finished_page_ok.
  assert (H2 : intervals finished_page = []) by (vm_compute; reflexivity).
  assert (H3 : autoPlayInterval finished_page = Some 1%nat) by (vm_compute; reflexivity).
  split; [exact H1|]. split; [exact H2|]. split; [exact H3|].
  destruct (proj2 (slider_restarts_autoplay thirds 20 finished_page H1) 1%nat H3)
    as (p' & E & I & A & _).
  exists p'. split; [exact E|]. split; [exact I|exact A].
Defined.

(** X13. [Generate] on an input with a NaN entry empties [steps] and
    clears the timer but leaves the bars of the display as they were;
    [Next] and [Prev] then do nothing, [Start] blanks the display, and the
    first firing of the timer [Start] has set clears it. *)
Theorem refused_input_leaves_no_step rnd numbers p :
  page_ok p -> existsb isNaN numbers = true ->
  exists p1,
    Page.handle rnd (Generate (Some numbers)) p = Some p1
    /\ steps (core p1) = []
    /\ container p1 = container p
    /\ intervals p1 = []
    /\ Page.handle rnd Next p1 = Some p1
    /\ Page.handle rnd Prev p1 = Some p1
    /\ exists p2 p3,
         Page.handle rnd Start p1 = Some p2
         /\ container p2 = []
         /\ intervals p2 = [(S (issued p), speedSlider p)]
         /\ Page.handle rnd (Fire (S (issued p))) p2 = Some p3
         /\ container p3 = []
         /\ intervals p3 = []
         /\ currentStep (core p3) = 0.
Proof.
  intros Hok Hnan.
  destruct (clearInterval_frame (autoPlayInterval p) p) as (Hc1 & Hc2 & Hc3 & Hc4 & Hc5).
  pose proof (clear_own_interval p Hok) as Hc0.
  set (q := Page.clearInterval (autoPlayInterval p) p) in *.
  set (s1 := mkState (heap (core p) ++ [numbers]) (array (core p)) [] 0
                     (calls (core p)) (chosen (core p))).
  assert (E1 : Page.handle rnd (Generate (Some numbers)) p = Some (set_core s1 q)).
  { cbn [Page.handle]. unfold Page.generateArray. fold q. rewrite Hc1.
    now rewrite (generateArray_alert rnd numbers (core p) Hnan). }
  set (p1 := set_core s1 q) in *.
  assert (Hok1 : page_ok p1).
  { destruct (handle_keeps_page_ok rnd (Generate (Some numbers)) p Hok) as (x & Ex & Hx).
    rewrite E1 in Ex. injection Ex as <-. exact Hx. }
  exists p1. split; [exact E1|]. split; [reflexivity|].
  split; [exact Hc5|]. split; [exact Hc0|].
  split; [reflexivity|]. split; [reflexivity|].
  (* Start *)
  set (p1' := set_container [] (Page.with_currentStep 0 p1)).
  assert (Hok1' : page_ok p1').
  { apply page_ok_container. apply page_ok_cursor; [exact Hok1|lia|right; reflexivity]. }
  destruct (startAutoPlay_one_timer p1' Hok1') as (S1 & S2 & S3 & S4 & S5 & S6 & Hok2).
  set (p2 := Page.startAutoPlay p1') in *.
  assert (E2 : Page.handle rnd Start p1 = Some p2) by reflexivity.
  assert (Hiss : issued p1' = issued p) by exact Hc3.
  assert (Hsp : speedSlider p1' = speedSlider p) by exact Hc4.
  rewrite Hiss, Hsp in S1. rewrite Hiss in S2.
  exists p2, (Page.clearInterval (autoPlayInterval p2) p2).
  split; [exact E2|]. split; [exact S5|]. split; [exact S1|].
  destruct (clearInterval_frame (autoPlayInterval p2) p2) as (D1 & _ & _ & _ & D5).
  split.
  - cbn [Page.handle]. rewrite S1. cbn [existsb fst]. rewrite Nat.eqb_refl.
    cbn [orb]. unfold Page.tick. rewrite S4. reflexivity.
  - split; [rewrite D5; exact S5|].
    split; [now apply clear_own_interval|]. rewrite D1, S4. reflexivity.
Qed.

Lemma refused_input_leaves_no_step_witness :
  page_ok demo_page /\ existsb isNaN [number_of_Z 4; S754_nan] = true
  /\ exists p1,
       Page.handle thirds (Generate (Some [number_of_Z 4; S754_nan])) demo_page = Some p1
       /\ steps (core p1) = []
       /\ container p1 = container demo_page
       /\ Page.handle thirds Next p1 = Some p1.
Proof.
  assert (H1 : page_ok demo_page) by apply demo_page_ok.
  assert (H2 : existsb isNaN [number_of_Z 4; S754_nan] = true) by reflexivity.
  split; [exact H1|]. split; [exact H2|].
  destruct (refused_input_leaves_no_step thirds [number_of_Z 4; S754_nan] demo_page H1 H2)
    as (p1 & E & S & C & _ & N & _).
  exists p1. repeat (split; [assumption|]). exact N.
Defined.

(** Every entry of the trace [recorded] describes can be read, has as
    many values as the input, and a highlight that points inside. *)
Lemma recorded_trace_entries s0 input v' ev cs :
  spec_quicksort input 0 (Z.of_nat (length input) - 1) cs ev v' ->
  Forall (fun sn => exists values,
            sn.1 = Some values /\ length values = length input
            /\ highlight_within 0 (Z.of_nat (length input) - 1) sn.2)
         (trace (recorded s0 input v' ev cs)).
Proof.
  intros Sq. rewrite trace_recorded.
  destruct (sq_perm _ _ _ _ _ _ Sq) as [P F].
  pose proof (sq_highlight_within _ _ _ _ _ _ Sq) as W.
  constructor; [|apply Forall_app; split].
  - exists input. repeat split; simpl; discriminate.
  - rewrite List.Forall_forall in F, W. apply List.Forall_forall.
    intros sn Hsn. apply in_map_iff in Hsn as (e & <- & He).
    exists e.1. split; [reflexivity|].
    split; [apply Permutation_length, (F e He)|apply (W e He)].
  - constructor; [|constructor]. exists v'.
    split; [reflexivity|]. split; [apply Permutation_length, P|].
    repeat split; simpl; discriminate.
Qed.

Lemma bar_lookup h maxVal values i b :
  imap (Page.bar_of h maxVal) values !! i = Some b ->
  exists x, values !! i = Some x /\ b = Page.bar_of h maxVal i x.
Proof.
  rewrite list_lookup_imap. destruct (values !! i) as [x|]; [|discriminate].
  intros [= <-]. eauto.
Qed.

(** X14. After [Generate] on an accepted input, rendering any step shows
    one bar per element of the input, with the values of that snapshot;
    the bar of index [i] has the class [pivot] exactly when the highlight
    names [i] as pivot, and [comparing] exactly when it names [i] as
    compare index; and each index a highlight names is the index of a bar:
    no highlight is lost outside the display. *)
Theorem highlighted_bars_exist rnd input p :
  page_ok p -> accepted input = true ->
  exists p',
    Page.handle rnd (Generate input) p = Some p'
    /\ forall index,
         0 <= index < Z.of_nat (length (steps (core p'))) ->
         exists p'' values h,
           Page.renderStep index p' = Some p''
           /\ trace (core p') !! Z.to_nat index = Some (Some values, h)
           /\ map innerText (container p'') = values
           /\ length (container p'') = length (input_of rnd input (core p))
           /\ (forall i b, container p'' !! i = Some b ->
                 (In "pivot"%string (classList b) <-> pivot h = Some (Z.of_nat i))
                 /\ (In "comparing"%string (classList b)
                     <-> compare h = Some (Z.of_nat i)))
           /\ (forall k, pivot h = Some k ->
                 exists b, container p'' !! Z.to_nat k = Some b
                           /\ In "pivot"%string (classList b))
           /\ (forall j, compare h = Some j ->
                 exists b, container p'' !! Z.to_nat j = Some b
                           /\ In "comparing"%string (classList b)).
Proof.
  intros Hok Hacc.
  destruct (handle_generate_accepted rnd input p Hok Hacc) as (cs & ev & v' & E & Sq).
  eexists. split; [exact E|].
  cbn [core set_container set_core].
  set (inp := input_of rnd input (core p)) in *.
  set (F := recorded _ inp v' ev cs).
  pose proof (recorded_trace_entries (prepared rnd input (core p)) inp v' ev cs Sq) as T.
  fold F in T.
  intros index Hi.
  assert (Hlen : length (trace F) = length (steps F)) by apply length_map.
  destruct (lookup_lt_is_Some_2 (trace F) (Z.to_nat index)) as [sn Hsn]; [lia|].
  rewrite Forall_lookup in T.
  destruct (T _ _ Hsn) as (values & Hv & Hl & [Wp Wc]).
  destruct sn as [o h]. simpl in Hv, Wp, Wc. subst o.
  eexists. exists values, h.
  split; [apply renderStep_seen; [lia|exact Hsn]|].
  split; [exact Hsn|]. cbn [container set_container].
  split; [now apply map_imap_value|].
  split; [rewrite length_imap; exact Hl|].
  assert (Hcls : forall i x,
            (In "pivot"%string (classList (Page.bar_of h (Math_max values) i x))
             <-> pivot h = Some (Z.of_nat i))
            /\ (In "comparing"%string (classList (Page.bar_of h (Math_max values) i x))
                <-> compare h = Some (Z.of_nat i))).
  { intros i x. cbn [classList Page.bar_of].
    destruct (in_classes h i) as (A & B & _).
    rewrite A, B, !is_index_true. tauto. }
  assert (Hbar : forall k, 0 <= k <= Z.of_nat (length inp) - 1 ->
            exists x, imap (Page.bar_of h (Math_max values)) values !! Z.to_nat k
                      = Some (Page.bar_of h (Math_max values) (Z.to_nat k) x)).
  { intros k Hk.
    destruct (lookup_lt_is_Some_2 values (Z.to_nat k)) as [x Hx]; [lia|].
    exists x. rewrite list_lookup_imap, Hx. reflexivity. }
  split; [|split].
  - intros i b Hb. apply bar_lookup in Hb as (x & _ & ->). apply Hcls.
  - intros k Hk. destruct (Hbar k (Wp k Hk)) as [x Hx].
    eexists. split; [exact Hx|]. apply Hcls.
    rewrite Hk. f_equal. specialize (Wp k Hk). lia.
  - intros j Hj. destruct (Wc j Hj) as (Hj0 & q & Hq & Hjq).
    specialize (Wp q Hq).
    destruct (Hbar j ltac:(lia)) as [x Hx].
    eexists. split; [exact Hx|]. apply Hcls.
    rewrite Hj. f_equal. lia.
Qed.

Lemma highlighted_bars_exist_witness :
  page_ok (blank 500) /\ accepted (Some three_one_two) = true
  /\ exists p',
       Page.handle thirds (Generate (Some three_one_two)) (blank 500) = Some p'
       /\ forall index,
            0 <= index < Z.of_nat (length (steps (core p'))) ->
            exists p'' values h,
              Page.renderStep index p' = Some p''
              /\ trace (core p') !! Z.to_nat index = Some (Some values, h)
              /\ map innerText (container p'') = values
              /\ (forall k, pivot h = Some k ->
                    exists b, container p'' !! Z.to_nat k = Some b
                              /\ In "pivot"%string (classList b)).
Proof.
  assert (H1 : page_ok (blank 500)) by apply blank_ok.
  assert (H2 : accepted (Some three_one_two) = true) by reflexivity.
  split; [exact H1|]. split; [exact H2|].
  destruct (highlighted_bars_exist thirds (Some three_one_two) (blank 500) H1 H2)
    as (p' & E & R).
  exists p'. split; [exact E|]. intros index Hi.
  destruct (R index Hi) as (p'' & values & h & E' & T & M & _ & _ & P & _).
  exists p'', values, h. repeat (split; [assumption|]). exact P.
Defined.

(** X15. After [Generate] on an accepted input, the last step is the only
    one whose bars have the class [sorted]: rendering it shows all bars
    with that class and the input in non-descending order; rendering any
    earlier step shows no bar with it. *)
Theorem sorted_class_on_last_step rnd input p :
  page_ok p -> accepted input = true ->
  exists p',
    Page.handle rnd (Generate input) p = Some p'
    /\ let last := Z.of_nat (length (steps (core p'))) - 1 in
       (exists p'',
          Page.renderStep last p' = Some p''
          /\ Forall (fun b => In "sorted"%string (classList b)) (container p'')
          /\ Permutation (map innerText (container p'')) (input_of rnd input (core p))
          /\ StronglySorted num_le (map innerText (container p'')))
       /\ (forall index p'',
             0 <= index < last -> Page.renderStep index p' = Some p'' ->
             Forall (fun b => ~ In "sorted"%string (classList b)) (container p'')).
Proof.
  intros Hok Hacc.
  destruct (handle_generate_accepted rnd input p Hok Hacc) as (cs & ev & v' & E & Sq).
  eexists. split; [exact E|].
  cbn [core set_container set_core].
  set (inp := input_of rnd input (core p)) in *.
  set (F := recorded _ inp v' ev cs).
  set (q := set_container _ _).
  assert (HF : core q = F) by reflexivity.
  assert (Hlen : length (steps F) = (2 + length ev)%nat).
  { rewrite <- (length_map (view (heap F))). fold (trace F). subst F.
    rewrite trace_recorded. cbn [length]. rewrite length_app, length_map.
    cbn [length]. lia. }
  assert (HT : trace F = (Some inp, hl_none) :: map seen ev ++ [(Some v', hl_sorted)])
    by apply trace_recorded.
  cbn zeta. rewrite Hlen. split.
  - assert (Hl : trace (core q) !! Z.to_nat (Z.of_nat (2 + length ev) - 1)
                 = Some (Some v', hl_sorted)).
    { rewrite HF, HT. rewrite app_comm_cons. apply list_lookup_middle.
      cbn [length]. rewrite length_map. lia. }
    eexists. split; [apply renderStep_seen; [lia|exact Hl]|].
    cbn [container set_container].
    rewrite (map_imap_value innerText v') by reflexivity.
    split; [|split].
    + apply Forall_lookup. intros i b Hb.
      apply bar_lookup in Hb as (x & _ & ->). cbn [classList Page.bar_of].
      apply (in_classes hl_sorted i). reflexivity.
    + apply (sq_perm _ _ _ _ _ _ Sq).
    + apply sorted_range_StronglySorted.
      rewrite (sq_length _ _ _ _ _ _ Sq).
      apply (sq_sorted _ _ _ _ _ _ Sq); [lia|lia|].
      intros k x Hk Hx. pose proof (input_not_nan rnd input (core p) Hacc) as Hn.
      rewrite List.Forall_forall in Hn. apply Hn.
      unfold lookupZ in Hx. destruct (k <? 0); [discriminate|].
      apply list_elem_of_In. eapply list_elem_of_lookup_2. exact Hx.
  - intros index p'' Hi Er.
    assert (Hnot : exists values h,
               trace (core q) !! Z.to_nat index = Some (Some values, h)
               /\ sorted h = None).
    { rewrite HF, HT.
      destruct (Z.to_nat index) as [|i] eqn:Ei.
      - exists inp, hl_none. split; reflexivity.
      - change ((((Some inp, hl_none) :: map seen ev ++ [(Some v', hl_sorted)]) !! S i))
          with ((map seen ev ++ [(Some v', hl_sorted)]) !! i).
        rewrite lookup_app_l by (rewrite length_map; lia).
        rewrite lookup_map.
        destruct (lookup_lt_is_Some_2 ev i) as [e He]; [lia|].
        rewrite He. exists e.1, e.2. split; [reflexivity|].
        pose proof (sq_highlight_within _ _ _ _ _ _ Sq) as W.
        rewrite List.Forall_forall in W. apply (W e).
        apply list_elem_of_In. eapply list_elem_of_lookup_2. exact He. }
    destruct Hnot as (values & h & Ht & Hs).
    rewrite (renderStep_seen index q values h ltac:(lia) Ht) in Er.
    injection Er as <-. cbn [container set_container].
    apply Forall_lookup. intros i b Hb.
    apply bar_lookup in Hb as (x & _ & ->). cbn [classList Page.bar_of].
    intros Hin. apply (in_classes h i) in Hin. congruence.
Qed.

Lemma sorted_class_on_last_step_witness :
  page_ok (blank 500) /\ accepted (Some twos) = true
  /\ exists p',
       Page.handle always_half (Generate (Some twos)) (blank 500) = Some p'
       /\ exists p'',
            Page.renderStep (Z.of_nat (length (steps (core p'))) - 1) p' = Some p''
            /\ Forall (fun b => In "sorted"%string (classList b)) (container p'')
            /\ StronglySorted num_le (map innerText (container p'')).
Proof.
  assert (H1 : page_ok (blank 500)) by apply blank_ok.
  assert (H2 : accepted (Some twos) = true) by reflexivity.
  split; [exact H1|]. split; [exact H2|].
  destruct (sorted_class_on_last_step always_half (Some twos) (blank 500) H1 H2)
    as (p' & E & (p'' & R & A & _ & S) & _).
  exists p'. split; [exact E|]. exists p''.
  split; [exact R|]. split; [exact A|exact S].
Defined.
